(** * HashTable: a chained hash table with load-factor driven doubling

    Shallow embedding of [HashTable.c] / [HashTable.h] and the properties
    of its operations.

    Conventions of the embedding (LP64, IEEE-754 [float], no excess
    precision):
    - a [void*] is the address it holds, a [Z]; [NULL] is [0];
    - a [size_t] is a [Z] in [0, 2^64), arithmetic on it wraps;
    - a chain ([Element* ] linked through [next]) is the list of its
      elements, head first; the bucket array is a list of chains;
    - the table is passed and returned by value (state passing);
    - [malloc]/[calloc] take their verdict from an allocator oracle that
      is threaded through the calls;
    - [free] has no observable effect on the table and is not modelled;
    - division by zero and reads past the bucket array are faults. *)

From stdpp Require Import base list.
From Stdlib Require Import ZArith Lia.
From Stdlib Require Import Floats.SpecFloat.
From Stdlib Require Import Reals Lra.

Open Scope Z_scope.

(** ** Pointers and machine integers *)

Definition ptr := Z.
Definition NULL : ptr := 0.

Definition SIZE_MAX : Z := 2 ^ 64 - 1.

(** Conversion to [size_t]. *)
Definition size_wrap (z : Z) : Z := z mod 2 ^ 64.

(** [(void* )-1], the value [insertElement] returns for a fresh key. *)
Definition INSERTED : ptr := SIZE_MAX.

(** Addresses at which an object (of at least one byte) can live. *)
Definition object_address (p : ptr) : Prop := 0 < p ∧ p + 1 <= SIZE_MAX.

(** ** Single-precision arithmetic of the load-factor test *)

Module Float32.

Definition prec : Z := 24.
Definition emax : Z := 128.

(** [(float) n] for an unsigned integer [n]. *)
Definition of_size (n : Z) : spec_float := binary_normalize prec emax n 0 false.

Definition div := SFdiv prec emax.
Definition sub := SFsub prec emax.

(** [x > y]. *)
Definition gt (x y : spec_float) : bool := SFltb y x.

(** [FLT_EPSILON] of <float.h>: [2^-23]. *)
Definition FLT_EPSILON : spec_float := S754_finite false 8388608 (-46).

(** [static const float LOAD_FACTOR = 0.7;] the double constant [0.7]
    rounded to [float]. *)
Definition LOAD_FACTOR : spec_float :=
  binary_normalize prec emax 6305039478318694 (-53) false.

End Float32.

(** ** Structures *)

(** [struct Element_t]; the [next] field is the tail of the chain. *)
Record Element := mkElement { key : ptr; value : ptr }.

Abbreviation chain := (list Element).

Record HashTable := mkHashTable {
  capacity : Z;
  elementsArray : list chain;
  nbElements : Z;
  hashFunction : ptr → Z;
  compareFunction : ptr → ptr → Z
}.

(** ** Faults and outcomes *)

Inductive fault := DivisionByZero | OutOfBounds.

Inductive outcome (A : Type) : Type :=
| Ret (a : A)
| Fault (f : fault)
| OutOfFuel.
Arguments Ret {A} a.
Arguments Fault {A} f.
Arguments OutOfFuel {A}.

Global Instance outcome_bind : MBind outcome := λ A B f m,
  match m with
  | Ret a => f a
  | Fault e => Fault e
  | OutOfFuel => OutOfFuel
  end.

(** ** The allocator *)

(** The verdicts of the successive allocation calls; once the list is
    used up every further call succeeds. *)
Abbreviation allocator := (list bool).

Definition malloc (a : allocator) : bool * allocator :=
  match a with
  | [] => (true, [])
  | b :: a' => (b, a')
  end.

Definition sizeof_ElementsArray : Z := 8.

(** [calloc(n, sizeof(ElementsArray))]: [n] empty buckets, or failure when
    the allocator refuses or the byte count does not fit a [size_t]. *)
Definition calloc (n : Z) (a : allocator) : option (list chain) * allocator :=
  let '(granted, a') := malloc a in
  if granted && (n * sizeof_ElementsArray <=? SIZE_MAX)
  then (Some (replicate (Z.to_nat n) []), a')
  else (None, a').

(** ** Operations *)

(** [createHashTable]; an absent callback is [None]. *)
Definition createHashTable (capacity : Z)
    (hashFunction : option (ptr → Z))
    (compareFunction : option (ptr → ptr → Z))
    (a : allocator) : option HashTable * allocator :=
  match hashFunction, compareFunction with
  | Some h, Some c =>
      let '(granted, a1) := malloc a in
      if granted then
        match calloc capacity a1 with
        | (Some newElementsArray, a2) =>
            (Some (mkHashTable capacity newElementsArray 0 h c), a2)
        | (None, a2) => (None, a2)
        end
      else (None, a1)
  | _, _ => (None, a)
  end.

(** [hashKey]: [key] is a [size_t]. *)
Definition hashKey (t : HashTable) (key : Z) : outcome Z :=
  if key <? capacity t then Ret key
  else if capacity t =? 0 then Fault DivisionByZero
  else Ret (key mod capacity t).

(** [hashKey(hashTable, ( *hashTable->hashFunction)(key))]: the callback
    returns a [size_t]. *)
Definition bucketIndex (t : HashTable) (key : ptr) : outcome Z :=
  hashKey t (size_wrap (hashFunction t key)).

(** [hashTable->elementsArray[index].listElements] *)
Definition bucket (t : HashTable) (index : Z) : outcome chain :=
  match elementsArray t !! Z.to_nat index with
  | Some listElements => Ret listElements
  | None => Fault OutOfBounds
  end.

(** The test of [insertElement] on the load factor:
    [(float)(nbElements + 1) / capacity - LOAD_FACTOR > FLT_EPSILON]. *)
Definition loadExceeded (nbElements capacity : Z) : bool :=
  let loadFactor :=
    Float32.div (Float32.of_size (size_wrap (nbElements + 1)))
                (Float32.of_size capacity) in
  Float32.gt (Float32.sub loadFactor Float32.LOAD_FACTOR) Float32.FLT_EPSILON.

(** The search loop of [insertElement]: every element but the last one of
    the chain is compared with the key [k]; on the first match the value is
    replaced by [v] and the old one returned. *)
Fixpoint replaceInChain (cmp : ptr → ptr → Z) (k v : ptr)
    (listElements : chain) : option (ptr * chain) :=
  match listElements with
  | [] => None
  | e :: next =>
      match next with
      | [] => None
      | _ :: _ =>
          if cmp (key e) k =? 0
          then Some (value e, mkElement (key e) v :: next)
          else
            match replaceInChain cmp k v next with
            | Some (old, next') => Some (old, e :: next')
            | None => None
            end
      end
  end.

(** The table with bucket [index] set to [listElements] and [nbElements]
    set to [n]. *)
Definition updateTable (t : HashTable) (index : Z) (listElements : chain)
    (n : Z) : HashTable :=
  mkHashTable (capacity t)
              (<[Z.to_nat index := listElements]> (elementsArray t))
              n (hashFunction t) (compareFunction t).

Abbreviation insertResult := (ptr * HashTable * allocator)%type.
Abbreviation reHashResult := (Z * HashTable * allocator)%type.

Section InsertBody.

(** [reHashTable], which the body of [insertElement] calls. *)
Variable reHash : HashTable → allocator → outcome reHashResult.

(** The resize step at the head of [insertElement]: the return code of
    [reHashTable], or [0] when the table is not resized. *)
Definition resizeStep (t : HashTable) (a : allocator) : outcome reHashResult :=
  if loadExceeded (nbElements t) (capacity t) then reHash t a
  else Ret (0, t, a).

(** [insertElement] from the computation of the index on. *)
Definition insertAtIndex (t : HashTable) (k v : ptr) (a : allocator)
    : outcome insertResult :=
  index ← bucketIndex t k;
  listElements ← bucket t index;
  match replaceInChain (compareFunction t) k v listElements with
  | Some (temporaryValue, listElements') =>
      Ret (temporaryValue,
           updateTable t index listElements' (size_wrap (nbElements t + 1)),
           a)
  | None =>
      let '(granted, a') := malloc a in
      if granted then
        Ret (INSERTED,
             updateTable t index (listElements ++ [mkElement k v])
                         (size_wrap (nbElements t + 1)),
             a')
      else Ret (NULL, t, a')
  end.

Definition insertBody (t : HashTable) (k v : ptr) (a : allocator)
    : outcome insertResult :=
  if (k =? NULL) || (v =? NULL) then Ret (NULL, t, a)
  else
    '(rc, t1, a1) ← resizeStep t a;
    if rc =? 0 then insertAtIndex t1 k v a1
    else Ret (NULL, t1, a1).

End InsertBody.

Section ReHash.

(** [insertElement], which [reHashTable] calls on the resized table. *)
Variable insert : HashTable → ptr → ptr → allocator → outcome insertResult.

(** The inner loop of [reHashTable]: the elements of one old chain are
    inserted in order; [false] when an insertion returned [NULL]. *)
Fixpoint reinsertChain (listElements : chain) (t : HashTable) (a : allocator)
    : outcome (bool * HashTable * allocator) :=
  match listElements with
  | [] => Ret (true, t, a)
  | e :: next =>
      '(r, t1, a1) ← insert t (key e) (value e) a;
      if r =? NULL then Ret (false, t1, a1)
      else reinsertChain next t1 a1
  end.

(** The outer loop, over the buckets of the old array. *)
Fixpoint reinsertBuckets (oldArray : list chain) (t : HashTable) (a : allocator)
    : outcome (bool * HashTable * allocator) :=
  match oldArray with
  | [] => Ret (true, t, a)
  | listElements :: rest =>
      '(ok, t1, a1) ← reinsertChain listElements t a;
      if ok : bool then reinsertBuckets rest t1 a1
      else Ret (false, t1, a1)
  end.

(** [reHashTable]: return code, table and allocator. The loop reads
    [oldArray[i]] for every [i < oldCapacity]. *)
Definition reHashTableWith (t : HashTable) (a : allocator) : outcome reHashResult :=
  let newCapacity := size_wrap (capacity t * 2) in
  match calloc newCapacity a with
  | (None, a1) => Ret (-2, t, a1)
  | (Some newArray, a1) =>
      let oldArray := elementsArray t in
      let oldCapacity := capacity t in
      let t0 := mkHashTable newCapacity newArray 0
                            (hashFunction t) (compareFunction t) in
      '(ok, t1, a2) ← reinsertBuckets (take (Z.to_nat oldCapacity) oldArray) t0 a1;
      if ok : bool then
        if Z.of_nat (length oldArray) <? oldCapacity then Fault OutOfBounds
        else Ret (0, t1, a2)
      else Ret (-3, t1, a2)
  end.

End ReHash.

(** [insertElement] and [reHashTable] call each other; [fuel] bounds the
    depth of the calls of [insertElement]. *)
Fixpoint insertElementF (fuel : nat) (t : HashTable) (k v : ptr) (a : allocator)
    : outcome insertResult :=
  match fuel with
  | O => OutOfFuel
  | S fuel' => insertBody (reHashTableWith (insertElementF fuel')) t k v a
  end.

(** All the elements of the table, bucket after bucket. *)
Definition entries (t : HashTable) : list Element := concat (elementsArray t).

(** A resize inserts the elements of the old array into a table that is
    empty at first, so that the depth of the calls is at most the number
    of elements plus one (see [insertElementF_fuel]). *)
Definition insertElement (t : HashTable) (k v : ptr) (a : allocator)
    : outcome insertResult :=
  insertElementF (S (length (entries t))) t k v a.

Definition reHashTable (t : HashTable) (a : allocator) : outcome reHashResult :=
  reHashTableWith insertElement t a.

(** The search loop of [removeElement]: the first element whose key
    matches is unlinked. *)
Fixpoint removeFromChain (cmp : ptr → ptr → Z) (k : ptr)
    (listElements : chain) : option (ptr * chain) :=
  match listElements with
  | [] => None
  | e :: next =>
      if cmp (key e) k =? 0 then Some (value e, next)
      else
        match removeFromChain cmp k next with
        | Some (temporaryValue, next') => Some (temporaryValue, e :: next')
        | None => None
        end
  end.

Definition removeElement (t : HashTable) (k : ptr) : outcome (ptr * HashTable) :=
  if k =? NULL then Ret (NULL, t)
  else
    index ← bucketIndex t k;
    listElements ← bucket t index;
    match removeFromChain (compareFunction t) k listElements with
    | Some (temporaryValue, listElements') =>
        Ret (temporaryValue,
             updateTable t index listElements' (size_wrap (nbElements t - 1)))
    | None => Ret (NULL, t)
    end.

Definition getNumElements (t : HashTable) : Z := nbElements t.

(** The search loop of [hasKey]. *)
Fixpoint chainHasKey (cmp : ptr → ptr → Z) (k : ptr) (listElements : chain) : bool :=
  match listElements with
  | [] => false
  | e :: next => if cmp (key e) k =? 0 then true else chainHasKey cmp k next
  end.

Definition hasKey (t : HashTable) (k : ptr) : outcome bool :=
  if k =? NULL then Ret false
  else
    index ← bucketIndex t k;
    listElements ← bucket t index;
    Ret (chainHasKey (compareFunction t) k listElements).

(** ** A test harness: keys are the elements of an [int] array *)

Module Harness.

(** [int keys[]] lives at [keysBase]; [keyPtr i] is [&keys[i]], and
    [keys[i] == i]. *)
Definition keysBase : Z := 4096.
Definition keyPtr (i : Z) : ptr := keysBase + 4 * i.
Definition intAt (p : ptr) : Z := (p - keysBase) / 4.

(** [h(k) = k] and [cmp(a, b) = a - b] on the integers pointed to. *)
Definition hashInt (p : ptr) : Z := intAt p.
Definition compareInt (a b : ptr) : Z := intAt a - intAt b.

(** The values are the addresses of some other objects. *)
Definition valPtr (i : Z) : ptr := 2 ^ 32 + 8 * i.

(** A run of insertions, in order, with the values they return. *)
Fixpoint insertAll (t : HashTable) (kvs : list (ptr * ptr)) (a : allocator)
    : outcome (list ptr * HashTable * allocator) :=
  match kvs with
  | [] => Ret ([], t, a)
  | (k, v) :: rest =>
      '(r, t1, a1) ← insertElement t k v a;
      '(rs, t2, a2) ← insertAll t1 rest a1;
      Ret (r :: rs, t2, a2)
  end.

Definition create (capacity : Z) : option HashTable :=
  fst (createHashTable capacity (Some hashInt) (Some compareInt) []).

(** The element for [keys[i]] with the [j]-th value. *)
Definition entry (i j : Z) : Element := mkElement (keyPtr i) (valPtr j).

(** The elements for [keys[0]], ..., [keys[n - 1]], in this order. *)
Definition firstEntries (n : nat) : list Element :=
  map (λ i, entry (Z.of_nat i) (Z.of_nat i)) (seq 0 n).

(** A table over these keys, given by its fields. *)
Definition table (capacity : Z) (buckets : list chain) (n : Z) : HashTable :=
  mkHashTable capacity buckets n hashInt compareInt.

End Harness.

(** * Specification *)

(** The bucket array has [capacity] slots and was obtained from [calloc]. *)
Definition shape (t : HashTable) : Prop :=
  0 <= capacity t ∧ capacity t * sizeof_ElementsArray <= SIZE_MAX ∧
  length (elementsArray t) = Z.to_nat (capacity t).

(** [t'] has the callbacks of [t], at most [extra] elements more, and its
    capacity is the capacity of [t] doubled [d >= least] times. *)
Record extends (extra : nat) (least : Z) (t t' : HashTable) : Prop := {
  ext_entries : (length (entries t') ≤ length (entries t) + extra)%nat;
  ext_hash : hashFunction t' = hashFunction t;
  ext_compare : compareFunction t' = compareFunction t;
  ext_shape : shape t → shape t';
  ext_capacity : shape t → ∃ d, least <= d ∧ capacity t' = 2 ^ d * capacity t
}.

(** While the old elements migrate to the table that started as [t0]:
    [rest] are still to be inserted, out of [total]. *)
Definition migrating (t0 : HashTable) (total : nat)
    (t : HashTable) (rest : list Element) : Prop :=
  (length rest ≤ total)%nat ∧ extends (total - length rest) 0 t0 t.

(** Two keys that the comparison function tells apart, in either order. *)
Definition apart (cmp : ptr → ptr → Z) (k1 k2 : ptr) : Prop :=
  cmp k1 k2 ≠ 0 ∧ cmp k2 k1 ≠ 0.

Fixpoint distinctKeys (cmp : ptr → ptr → Z) (l : list Element) : Prop :=
  match l with
  | [] => True
  | e :: rest =>
      (∀ x, x ∈ rest → apart cmp (key e) (key x)) ∧ distinctKeys cmp rest
  end.

(** [k] is told apart from every key of [l]. *)
Definition fresh (cmp : ptr → ptr → Z) (l : list Element) (k : ptr) : Prop :=
  ∀ x, x ∈ l → apart cmp (key x) k.

(** The elements are counted by [nbElements]. *)
Definition counted (t : HashTable) : Prop :=
  nbElements t = size_wrap (Z.of_nat (length (entries t))).

(** Well-formed tables: every element sits in the bucket of its key, the
    keys are not [NULL] and pairwise distinct. *)
Record wf (t : HashTable) : Prop := {
  wf_shape : shape t;
  wf_index : ∀ i l e,
    elementsArray t !! i = Some l → e ∈ l →
    bucketIndex t (key e) = Ret (Z.of_nat i);
  wf_keys : ∀ e, e ∈ entries t → key e ≠ NULL;
  wf_distinct : distinctKeys (compareFunction t) (entries t)
}.

(** Re-inserting the elements after a doubling does not resize again. *)
Definition quietResize (t : HashTable) : Prop :=
  ∀ j : nat, (j < length (entries t))%nat →
    loadExceeded (size_wrap (Z.of_nat j)) (2 * capacity t) = false.

(** What a successful insertion of a fresh key into a well-formed table
    achieves. *)
Record insertedFresh (t : HashTable) (k v r : ptr) (t' : HashTable) : Prop := {
  fresh_result : r = INSERTED;
  fresh_wf : wf t';
  fresh_entries : entries t' ≡ₚ entries t ++ [mkElement k v];
  fresh_counted : counted t → counted t';
  fresh_quiet :
    loadExceeded (nbElements t) (capacity t) = true → quietResize t →
    capacity t' = 2 * capacity t
}.

(** The elements of [t] move to [t']; [rest] are still to be inserted. *)
Definition moving (t t' : HashTable) (rest : list Element) : Prop :=
  wf t' ∧ counted t' ∧ entries t' ++ rest ≡ₚ entries t ∧
  compareFunction t' = compareFunction t ∧
  (quietResize t → capacity t' = 2 * capacity t).

(** [built t es]: [t] was created and the elements [es] were then inserted
    in that order, every key being told apart from the keys before it and
    every insertion returning a value other than [NULL]. *)
Inductive built : HashTable → list Element → Prop :=
| built_create capacity h c a t a' :
    0 <= capacity →
    createHashTable capacity (Some h) (Some c) a = (Some t, a') →
    built t []
| built_insert t es k v a r t' a' :
    built t es →
    fresh (compareFunction t) es k →
    insertElement t k v a = Ret (r, t', a') → r ≠ NULL →
    built t' (es ++ [mkElement k v]).

(** The tables a caller obtains who never inserts a key that is equivalent
    to a stored one: created by [createHashTable], then changed by
    insertions that do not return [NULL] and by removals. *)
Inductive reachable : HashTable → Prop :=
| reachable_create cap h c a t a' :
    0 <= cap →
    createHashTable cap (Some h) (Some c) a = (Some t, a') →
    reachable t
| reachable_insert t k v a r t' a' :
    reachable t →
    fresh (compareFunction t) (entries t) k →
    insertElement t k v a = Ret (r, t', a') → r ≠ NULL →
    reachable t'
| reachable_remove t k r t' :
    reachable t →
    removeElement t k = Ret (r, t') →
    reachable t'.

(** The single-precision test agrees with the exact comparison of
    [(n + 1) / (c + 1)] with [7 / 10]. *)
Definition loadTestExactAt (c n : nat) : bool :=
  Bool.eqb (loadExceeded (Z.of_nat n) (Z.of_nat (S c)))
           (7 * Z.of_nat (S c) <? 10 * (Z.of_nat n + 1)).

(** It does for all [n < bound] and [c < bound]. *)
Definition loadTestExactUpTo (bound : nat) : bool :=
  forallb (λ c, forallb (loadTestExactAt c) (seq 0 bound)) (seq 0 bound).

(** The real value of a binary floating-point number with mantissa [m]
    and exponent [e]. *)
Definition bpow (e : Z) : R := powerRZ 2 e.
Definition F2R (m : positive) (e : Z) : R := (IZR (Zpos m) * bpow e)%R.

(** * Properties *)

(** ** Machine integers, allocator, bucket array *)

Lemma size_wrap_range z : 0 <= size_wrap z < 2 ^ 64.
Proof. unfold size_wrap. apply Z.mod_pos_bound. lia. Qed.

Lemma size_wrap_small z : 0 <= z < 2 ^ 64 → size_wrap z = z.
Proof. intros. unfold size_wrap. apply Z.mod_small. lia. Qed.

Lemma INSERTED_not_NULL : INSERTED ≠ NULL.
Proof. discriminate. Qed.

(** [0.7f] is [0x3F333333] and [FLT_EPSILON] is [0x34000000]. *)
Lemma LOAD_FACTOR_bits :
  Float32.LOAD_FACTOR = S754_finite false 11744051 (-24).
Proof. reflexivity. Qed.

Lemma FLT_EPSILON_valid :
  valid_binary Float32.prec Float32.emax Float32.FLT_EPSILON = true ∧
  Float32.FLT_EPSILON
    = SFldexp Float32.prec Float32.emax (Float32.of_size 1) (-23).
Proof. split; reflexivity. Qed.

(** Two elements in four buckets do not fire the test, the third does;
    without buckets the quotient is infinite and the test fires. *)
Lemma loadExceeded_samples :
  loadExceeded 1 4 = false ∧ loadExceeded 2 4 = true ∧
  loadExceeded 0 0 = true.
Proof. repeat split; reflexivity. Qed.

Lemma calloc_Some n a newArray a' :
  calloc n a = (Some newArray, a') →
  newArray = replicate (Z.to_nat n) [] ∧
  n * sizeof_ElementsArray <= SIZE_MAX ∧ malloc a = (true, a').
Proof.
  unfold calloc. destruct (malloc a) as [granted a1].
  destruct granted; simpl; [|discriminate].
  destruct (Z.leb_spec (n * sizeof_ElementsArray) SIZE_MAX); [|discriminate].
  intros [= <- <-]. auto.
Qed.

Lemma calloc_None n a a' :
  calloc n a = (None, a') → ∃ granted, malloc a = (granted, a').
Proof.
  unfold calloc. destruct (malloc a) as [granted a1].
  destruct (granted && _); [discriminate|]. intros [= <-]. eauto.
Qed.

Lemma concat_replicate_nil {A} n : concat (replicate n ([] : list A)) = [].
Proof. induction n; simpl; auto. Qed.

Lemma hashKey_mod t h :
  0 < capacity t → 0 <= h → hashKey t h = Ret (h mod capacity t).
Proof.
  intros Hc Hh. unfold hashKey.
  destruct (Z.ltb_spec h (capacity t)).
  - by rewrite Z.mod_small by lia.
  - destruct (Z.eqb_spec (capacity t) 0); [lia | done].
Qed.

Lemma hashKey_zero t h :
  capacity t = 0 → 0 <= h → hashKey t h = Fault DivisionByZero.
Proof.
  intros Hc Hh. unfold hashKey. rewrite Hc.
  destruct (Z.ltb_spec h 0); [lia | done].
Qed.

Lemma hashKey_Ret t h i :
  0 <= capacity t → 0 <= h → hashKey t h = Ret i →
  0 < capacity t ∧ i = h mod capacity t.
Proof.
  intros Hc Hh. destruct (Z.eq_dec (capacity t) 0) as [H0|H0].
  - by rewrite hashKey_zero.
  - rewrite hashKey_mod by lia. intros [= <-]. lia.
Qed.

Lemma bucketIndex_mod t k :
  0 < capacity t →
  bucketIndex t k = Ret (size_wrap (hashFunction t k) mod capacity t).
Proof. intros. apply hashKey_mod; [done | apply size_wrap_range]. Qed.

Lemma bucketIndex_Ret t k i :
  0 <= capacity t → bucketIndex t k = Ret i →
  0 < capacity t ∧ 0 <= i < capacity t ∧
  i = size_wrap (hashFunction t k) mod capacity t.
Proof.
  intros Hc Hi. apply hashKey_Ret in Hi as [Hpos ->];
    [|done|apply size_wrap_range].
  split; [done|]. split; [|done]. by apply Z.mod_pos_bound.
Qed.

Lemma bucket_Ret t index listElements :
  bucket t index = Ret listElements ↔
  elementsArray t !! Z.to_nat index = Some listElements.
Proof.
  unfold bucket. destruct (elementsArray t !! Z.to_nat index); split; congruence.
Qed.

(** Writing a bucket changes the elements of that bucket only. *)
Lemma concat_insert_split (arr : list chain) i l l' :
  arr !! i = Some l →
  concat arr = concat (take i arr) ++ l ++ concat (drop (S i) arr) ∧
  concat (<[i:=l']> arr) = concat (take i arr) ++ l' ++ concat (drop (S i) arr).
Proof.
  intros Hl. split.
  - rewrite <- (take_drop_middle arr i l Hl) at 1.
    by rewrite concat_app.
  - rewrite insert_take_drop by (by eapply lookup_lt_Some).
    by rewrite concat_app.
Qed.

Lemma entries_updateTable_append t index l e n :
  bucket t index = Ret l →
  entries (updateTable t index (l ++ [e]) n) ≡ₚ entries t ++ [e].
Proof.
  intros Hl%bucket_Ret. unfold entries, updateTable. cbn [elementsArray].
  destruct (concat_insert_split _ _ _ (l ++ [e]) Hl) as [Ha Hb].
  rewrite Hb, Ha, <- !(assoc_L (++)). do 2 f_equiv. apply Permutation_app_comm.
Qed.

Lemma replaceInChain_length cmp k v l old l' :
  replaceInChain cmp k v l = Some (old, l') → length l' = length l.
Proof.
  revert old l'. induction l as [|e next IH]; intros old l'; [done|].
  simpl. destruct next as [|e' next']; [done|].
  destruct (cmp (key e) k =? 0); [by intros [= <- <-]|].
  destruct (replaceInChain cmp k v (e' :: next')) as [[old1 next1]|] eqn:Hr;
    [|done].
  intros [= <- <-]. simpl. f_equal. by eapply IH.
Qed.

Lemma replaceInChain_None cmp k v l :
  (∀ e, e ∈ l → cmp (key e) k ≠ 0) → replaceInChain cmp k v l = None.
Proof.
  induction l as [|e next IH]; intros Hl; [done|].
  simpl. destruct next as [|e' next']; [done|].
  destruct (Z.eqb_spec (cmp (key e) k) 0) as [Heq|_].
  - exfalso. eapply Hl; [|done]. by left.
  - rewrite IH; [done|]. intros x Hx. apply Hl. by right.
Qed.

Lemma length_entries_updateTable t index l l' n :
  bucket t index = Ret l →
  length (entries (updateTable t index l' n)) =
  (length (entries t) - length l + length l')%nat.
Proof.
  intros Hl%bucket_Ret. unfold entries, updateTable. cbn [elementsArray].
  destruct (concat_insert_split _ _ _ l' Hl) as [Ha Hb].
  rewrite Hb, Ha, !length_app. lia.
Qed.

(** ** The loops of [reHashTable] *)

Section Loops.

Variable ins : HashTable → ptr → ptr → allocator → outcome insertResult.

Lemma reinsertChain_app l1 l2 t a :
  reinsertChain ins (l1 ++ l2) t a =
  '(ok, t1, a1) ← reinsertChain ins l1 t a;
  if ok : bool then reinsertChain ins l2 t1 a1 else Ret (false, t1, a1).
Proof.
  revert t a. induction l1 as [|e l1 IH]; intros t a; [done|].
  cbn [app reinsertChain].
  destruct (ins t (key e) (value e) a) as [[[r t1] a1]| |];
    cbn [mbind outcome_bind]; [|done..].
  destruct (r =? NULL); [done|]. apply IH.
Qed.

(** The two nested loops visit the elements of the old array in the order
    of [concat]. *)
Lemma reinsertBuckets_concat oldArray t a :
  reinsertBuckets ins oldArray t a = reinsertChain ins (concat oldArray) t a.
Proof.
  revert t a. induction oldArray as [|l rest IH]; intros t a; [done|].
  cbn [concat reinsertBuckets]. rewrite reinsertChain_app.
  destruct (reinsertChain ins l t a) as [[[ok t1] a1]| |];
    cbn [mbind outcome_bind]; [|done..].
  destruct ok; [apply IH | done].
Qed.

(** An invariant [Inv t rest] of the table and of the elements still to
    be inserted. *)
Variable Inv : HashTable → list Element → Prop.

Hypothesis Inv_step : ∀ t e rest a r t1 a1,
  Inv t (e :: rest) → ins t (key e) (value e) a = Ret (r, t1, a1) →
  r ≠ NULL → Inv t1 rest.

Lemma reinsertChain_inv l t a t' a' :
  Inv t l → reinsertChain ins l t a = Ret (true, t', a') → Inv t' [].
Proof.
  revert t a. induction l as [|e rest IH]; intros t a HI.
  - by intros [= <- <-].
  - cbn [reinsertChain].
    destruct (ins t (key e) (value e) a) as [[[r t1] a1]| |] eqn:Hins;
      cbn [mbind outcome_bind]; [|done..].
    destruct (Z.eqb_spec r NULL) as [|Hr]; [done|].
    apply IH. by eapply Inv_step.
Qed.

Hypothesis Inv_fuel : ∀ t e rest a,
  Inv t (e :: rest) → ins t (key e) (value e) a ≠ OutOfFuel.

Lemma reinsertChain_fuel l t a :
  Inv t l → reinsertChain ins l t a ≠ OutOfFuel.
Proof.
  revert t a. induction l as [|e rest IH]; intros t a HI; [done|].
  cbn [reinsertChain].
  destruct (ins t (key e) (value e) a) as [[[r t1] a1]| |] eqn:Hins;
    cbn [mbind outcome_bind]; [|done|].
  - destruct (Z.eqb_spec r NULL) as [|Hr]; [done|].
    apply IH. by eapply Inv_step.
  - by eapply Inv_fuel in Hins.
Qed.

Variable ins2 : HashTable → ptr → ptr → allocator → outcome insertResult.

Hypothesis Inv_agree : ∀ t e rest a,
  Inv t (e :: rest) → ins2 t (key e) (value e) a = ins t (key e) (value e) a.

Lemma reinsertChain_ext l t a :
  Inv t l → reinsertChain ins2 l t a = reinsertChain ins l t a.
Proof.
  revert t a. induction l as [|e rest IH]; intros t a HI; [done|].
  cbn [reinsertChain]. rewrite (Inv_agree _ _ _ _ HI).
  destruct (ins t (key e) (value e) a) as [[[r t1] a1]| |] eqn:Hins;
    cbn [mbind outcome_bind]; [|done..].
  destruct (Z.eqb_spec r NULL) as [|Hr]; [done|].
  apply IH. by eapply Inv_step.
Qed.

End Loops.

(** ** What every insertion preserves *)

Lemma extends_refl t : extends 0 0 t t.
Proof. split; auto; [lia|]. intros _. exists 0. lia. Qed.

Lemma extends_trans e1 e2 d1 d2 t1 t2 t3 :
  0 <= d1 → 0 <= d2 →
  extends e1 d1 t1 t2 → extends e2 d2 t2 t3 → extends (e1 + e2) (d1 + d2) t1 t3.
Proof.
  intros Hd1 Hd2 [A1 B1 C1 D1 E1] [A2 B2 C2 D2 E2]. split.
  - lia.
  - congruence.
  - congruence.
  - auto.
  - intros Hs. destruct (E1 Hs) as (x & Hx & Ex).
    destruct (E2 (D1 Hs)) as (y & Hy & Ey).
    exists (x + y). split; [lia|]. rewrite Ey, Ex, Z.pow_add_r by lia. lia.
Qed.

Lemma extends_weaken e1 e2 d1 d2 t t' :
  (e1 ≤ e2)%nat → d2 <= d1 → extends e1 d1 t t' → extends e2 d2 t t'.
Proof.
  intros He Hd [A B C D E]. split; auto; [lia|].
  intros Hs. destruct (E Hs) as (x & Hx & Ex). exists x. split; [lia|done].
Qed.

Lemma shape_updateTable t index l n : shape t → shape (updateTable t index l n).
Proof.
  intros (H1 & H2 & H3). unfold shape, updateTable; cbn.
  by rewrite length_insert.
Qed.

Lemma insertAtIndex_extends t k v a r t' a' :
  insertAtIndex t k v a = Ret (r, t', a') → extends 1 0 t t'.
Proof.
  unfold insertAtIndex.
  destruct (bucketIndex t k) as [index| |]; cbn [mbind outcome_bind]; [|done..].
  destruct (bucket t index) as [l| |] eqn:Hl; cbn [mbind outcome_bind]; [|done..].
  assert (∀ l' n, (length l' ≤ length l + 1)%nat → extends 1 0 t (updateTable t index l' n))
    as Hupd.
  { intros l' n Hlen. split; try done.
    - rewrite (length_entries_updateTable _ _ l) by done.
      apply bucket_Ret in Hl. unfold entries.
      destruct (concat_insert_split _ _ _ l' Hl) as [-> _].
      rewrite !length_app. lia.
    - apply shape_updateTable.
    - intros _. exists 0. cbn. lia. }
  destruct (replaceInChain _ k v l) as [[old l']|] eqn:Hrep.
  - intros [= <- <- <-]. apply Hupd.
    apply replaceInChain_length in Hrep. lia.
  - destruct (malloc a) as [granted a1]. destruct granted.
    + intros [= <- <- <-]. apply Hupd. rewrite length_app. simpl. lia.
    + intros [= <- <- <-]. eapply extends_weaken, extends_refl; lia.
Qed.

Lemma length_concat_take {A} n (ls : list (list A)) :
  (length (concat (take n ls)) ≤ length (concat ls))%nat.
Proof.
  rewrite <- (take_drop n ls) at 2. rewrite concat_app, length_app. lia.
Qed.

Lemma shape_calloc_double t a newArray a1 :
  shape t →
  calloc (size_wrap (capacity t * 2)) a = (Some newArray, a1) →
  size_wrap (capacity t * 2) = 2 * capacity t ∧
  shape (mkHashTable (size_wrap (capacity t * 2)) newArray 0
                     (hashFunction t) (compareFunction t)).
Proof.
  intros (H1 & H2 & H3) (-> & Hfit & _)%calloc_Some.
  unfold sizeof_ElementsArray, SIZE_MAX in *.
  assert (size_wrap (capacity t * 2) = 2 * capacity t) as Heq
    by (rewrite size_wrap_small; lia).
  split; [done|]. rewrite Heq in *.
  unfold shape; cbn. rewrite length_replicate.
  unfold sizeof_ElementsArray, SIZE_MAX. lia.
Qed.

Section Resize.

Variable ins : HashTable → ptr → ptr → allocator → outcome insertResult.

(** [ins] behaves on the tables of fewer than [N] elements. *)
Variable N : nat.

Hypothesis ins_fuel : ∀ t k v a,
  (length (entries t) < N)%nat → ins t k v a ≠ OutOfFuel.

Hypothesis ins_extends : ∀ t k v a r t' a',
  (length (entries t) < N)%nat →
  ins t k v a = Ret (r, t', a') → r ≠ NULL → extends 1 0 t t'.

Lemma migrating_lt t0 total t e rest :
  entries t0 = [] → (total ≤ N)%nat →
  migrating t0 total t (e :: rest) → (length (entries t) < N)%nat.
Proof.
  intros H0 HN [Hlen [Hent _ _ _ _]]. rewrite H0 in Hent.
  cbn [length] in *. lia.
Qed.

Lemma migrating_step t0 total t e rest a r t1 a1 :
  entries t0 = [] → (total ≤ N)%nat →
  migrating t0 total t (e :: rest) →
  ins t (key e) (value e) a = Ret (r, t1, a1) → r ≠ NULL →
  migrating t0 total t1 rest.
Proof.
  intros H0 HN HI Hins Hr. pose proof (migrating_lt _ _ _ _ _ H0 HN HI) as Hlt.
  destruct HI as [Hlen Hext]. cbn [length] in *. split; [lia|].
  eapply extends_weaken; [| |eapply extends_trans;
    [| |exact Hext|eapply ins_extends; eauto]]; lia.
Qed.

Lemma reHashTableWith_extends t a t' a' :
  (length (entries t) ≤ N)%nat →
  reHashTableWith ins t a = Ret (0, t', a') → extends 0 1 t t'.
Proof.
  intros HN. unfold reHashTableWith.
  destruct (calloc _ a) as [[newArray|] a1] eqn:Hc; [|done].
  rewrite reinsertBuckets_concat.
  set (t0 := mkHashTable _ newArray 0 _ _).
  set (l := concat (take _ _)).
  destruct (reinsertChain ins l t0 a1) as [[[ok t1] a2]| |] eqn:Hloop;
    cbn [mbind outcome_bind]; [|done..].
  destruct ok; [|done]. destruct (_ <? _); [done|]. intros [= <- <-].
  assert (entries t0 = []) as H0.
  { apply calloc_Some in Hc as (-> & _). apply concat_replicate_nil. }
  assert (length l ≤ length (entries t))%nat as Hl
    by apply length_concat_take.
  assert (migrating t0 (length l) t1 []) as [_ Hext].
  { eapply (reinsertChain_inv ins (migrating t0 (length l))); [|split|done].
    - intros. eapply migrating_step; eauto. lia.
    - lia.
    - rewrite Nat.sub_diag. apply extends_refl. }
  destruct Hext as [A B C D E]. rewrite H0 in A. cbn [length] in A.
  split; try done.
  - lia.
  - intros Hs. apply D. by eapply shape_calloc_double.
  - intros Hs. destruct (shape_calloc_double _ _ _ _ Hs Hc) as [Hcap Hs0].
    destruct (E Hs0) as (d & Hd & Hd').
    exists (d + 1). split; [lia|].
    rewrite Hd'. subst t0. cbn [capacity]. rewrite Hcap.
    rewrite Z.pow_add_r by lia. lia.
Qed.

Lemma reHashTableWith_fuel t a :
  (length (entries t) ≤ N)%nat → reHashTableWith ins t a ≠ OutOfFuel.
Proof.
  intros HN. unfold reHashTableWith.
  destruct (calloc _ a) as [[newArray|] a1] eqn:Hc; [|done].
  rewrite reinsertBuckets_concat.
  set (t0 := mkHashTable _ newArray 0 _ _).
  set (l := concat (take _ _)).
  assert (entries t0 = []) as H0.
  { apply calloc_Some in Hc as (-> & _). apply concat_replicate_nil. }
  assert (length l ≤ length (entries t))%nat as Hl
    by apply length_concat_take.
  destruct (reinsertChain ins l t0 a1) as [[[ok t1] a2]| |] eqn:Hloop;
    cbn [mbind outcome_bind]; [|done|].
  - destruct ok; [|done]. by destruct (_ <? _).
  - exfalso. revert Hloop.
    apply (reinsertChain_fuel ins (migrating t0 (length l))).
    + intros. eapply migrating_step; eauto. lia.
    + intros t2 e rest a2 HI.
      eapply ins_fuel, (migrating_lt t0 (length l)); [done|lia|done].
    + split; [lia|]. rewrite Nat.sub_diag. apply extends_refl.
Qed.

Variable ins2 : HashTable → ptr → ptr → allocator → outcome insertResult.

Hypothesis ins_agree : ∀ t k v a,
  (length (entries t) < N)%nat → ins2 t k v a = ins t k v a.

Lemma reHashTableWith_ext t a :
  (length (entries t) ≤ N)%nat →
  reHashTableWith ins2 t a = reHashTableWith ins t a.
Proof.
  intros HN. unfold reHashTableWith.
  destruct (calloc _ a) as [[newArray|] a1] eqn:Hc; [|done].
  rewrite !reinsertBuckets_concat.
  set (t0 := mkHashTable _ newArray 0 _ _).
  set (l := concat (take _ _)).
  assert (entries t0 = []) as H0.
  { apply calloc_Some in Hc as (-> & _). apply concat_replicate_nil. }
  assert (length l ≤ length (entries t))%nat as Hl
    by apply length_concat_take.
  rewrite (reinsertChain_ext ins (migrating t0 (length l))); [done|..].
  - intros. eapply migrating_step; eauto. lia.
  - intros t2 e rest a2 HI.
    eapply ins_agree, (migrating_lt t0 (length l)); [done|lia|done].
  - split; [lia|]. rewrite Nat.sub_diag. apply extends_refl.
Qed.

End Resize.

Lemma insertAtIndex_capacity t k v a r t' a' :
  insertAtIndex t k v a = Ret (r, t', a') → capacity t' = capacity t.
Proof.
  unfold insertAtIndex.
  destruct (bucketIndex t k) as [index| |]; cbn [mbind outcome_bind]; [|done..].
  destruct (bucket t index) as [l| |]; cbn [mbind outcome_bind]; [|done..].
  destruct (replaceInChain _ k v l) as [[old l']|].
  - by intros [= <- <- <-].
  - destruct (malloc a) as [[] a1]; by intros [= <- <- <-].
Qed.

Lemma insertBody_extends reHash t k v a r t' a' :
  (∀ t1 a1, reHash t a = Ret (0, t1, a1) → extends 0 1 t t1) →
  insertBody reHash t k v a = Ret (r, t', a') → r ≠ NULL →
  extends 1 (if loadExceeded (nbElements t) (capacity t) then 1 else 0) t t' ∧
  (loadExceeded (nbElements t) (capacity t) = false → capacity t' = capacity t).
Proof.
  intros Hre. unfold insertBody, resizeStep.
  destruct (_ || _); [by intros [= <- <- <-]|].
  destruct (loadExceeded _ _).
  - destruct (reHash t a) as [[[rc t1] a1]| |] eqn:Hr;
      cbn [mbind outcome_bind]; [|done..].
    destruct (Z.eqb_spec rc 0) as [->|_]; [|by intros [= <- <- <-]].
    intros Hins%insertAtIndex_extends _. split; [|done].
    eapply extends_weaken; [| |eapply extends_trans;
      [| |eapply Hre; eauto|exact Hins]]; lia.
  - cbn [mbind outcome_bind Z.eqb]. intros Hins _. split.
    + by eapply insertAtIndex_extends.
    + intros _. by eapply insertAtIndex_capacity.
Qed.

Lemma insertBody_fuel reHash t k v a :
  reHash t a ≠ OutOfFuel → insertBody reHash t k v a ≠ OutOfFuel.
Proof.
  intros Hre. unfold insertBody, resizeStep, insertAtIndex.
  destruct (_ || _); [done|].
  assert (∀ t1 a1, insertAtIndex t1 k v a1 ≠ OutOfFuel) as Hat.
  { intros t1 a1. unfold insertAtIndex, bucketIndex, hashKey, bucket.
    repeat (case_match; cbn [mbind outcome_bind]; try done). }
  destruct (loadExceeded _ _).
  - destruct (reHash t a) as [[[rc t1] a1]| |] eqn:Hr;
      cbn [mbind outcome_bind]; [|done..].
    destruct (rc =? 0); [apply Hat|done].
  - cbn [mbind outcome_bind Z.eqb]. apply Hat.
Qed.

Lemma insertBody_ext reHash reHash2 t k v a :
  reHash2 t a = reHash t a →
  insertBody reHash2 t k v a = insertBody reHash t k v a.
Proof. intros H. unfold insertBody, resizeStep. by rewrite H. Qed.

(** The fuel: with more fuel than the table has elements, [insertElementF]
    returns or faults, and more fuel does not change what it does. *)
Lemma insertElementF_general n :
  ∀ t k v a, (length (entries t) < n)%nat →
    insertElementF n t k v a ≠ OutOfFuel ∧
    (∀ m, (n ≤ m)%nat → insertElementF m t k v a = insertElementF n t k v a) ∧
    (∀ r t' a', insertElementF n t k v a = Ret (r, t', a') → r ≠ NULL →
                extends 1 0 t t').
Proof.
  induction n as [|n IH]; intros t k v a Hn; [lia|].
  assert (length (entries t) ≤ n)%nat as Hle by lia.
  cbn [insertElementF]. split; [|split].
  - apply insertBody_fuel. apply (reHashTableWith_fuel _ n); [| |done].
    + intros. by apply IH.
    + intros ??????? Hlt. by apply (IH _ _ _ _ Hlt).
  - intros [|m] Hm; [lia|]. cbn [insertElementF].
    apply insertBody_ext. apply (reHashTableWith_ext _ n); [| |done].
    + intros ??????? Hlt. by apply (IH _ _ _ _ Hlt).
    + intros t1 k1 v1 a1 Hlt. apply (IH _ _ _ _ Hlt). lia.
  - intros r t' a' Hins Hr.
    eapply extends_weaken; [| |eapply insertBody_extends; [|done..]].
    + lia.
    + by destruct (loadExceeded _ _).
    + intros t1 a1. apply (reHashTableWith_extends _ n); [|done].
      intros ??????? Hlt. by apply (IH _ _ _ _ Hlt).
Qed.

Lemma insertElementF_fuel n t k v a :
  (length (entries t) < n)%nat →
  insertElementF n t k v a = insertElement t k v a.
Proof.
  intros Hn. unfold insertElement.
  by apply (insertElementF_general (S (length (entries t)))); [lia..|].
Qed.

(** [insertElement] returns or faults. *)
Lemma insertElement_total t k v a : insertElement t k v a ≠ OutOfFuel.
Proof. apply insertElementF_general. lia. Qed.

Lemma insertElement_extends_weak t k v a r t' a' :
  insertElement t k v a = Ret (r, t', a') → r ≠ NULL → extends 1 0 t t'.
Proof. apply insertElementF_general. lia. Qed.

Lemma reHashTable_fuel t a :
  reHashTableWith (insertElementF (length (entries t))) t a = reHashTable t a.
Proof.
  symmetry. apply (reHashTableWith_ext _ (length (entries t))); [| |done].
  - intros ??????? Hlt. by apply (insertElementF_general _ _ _ _ _ Hlt).
  - intros t1 k v a1 Hlt. symmetry. by apply insertElementF_fuel.
Qed.

(** [insertElement] is its body, calling [reHashTable]. *)
Lemma insertElement_unfold t k v a :
  insertElement t k v a = insertBody reHashTable t k v a.
Proof.
  unfold insertElement. cbn [insertElementF].
  apply insertBody_ext, reHashTable_fuel.
Qed.

Lemma reHashTable_extends t a t' a' :
  reHashTable t a = Ret (0, t', a') → extends 0 1 t t'.
Proof.
  apply (reHashTableWith_extends _ (S (length (entries t)))); [|lia].
  intros t1 k v a1 r t1' a1' _. apply insertElement_extends_weak.
Qed.

Lemma insertElement_extends t k v a r t' a' :
  insertElement t k v a = Ret (r, t', a') → r ≠ NULL →
  extends 1 (if loadExceeded (nbElements t) (capacity t) then 1 else 0) t t' ∧
  (loadExceeded (nbElements t) (capacity t) = false → capacity t' = capacity t).
Proof.
  rewrite insertElement_unfold. apply insertBody_extends.
  intros t1 a1. apply reHashTable_extends.
Qed.

(** ** Tables with pairwise distinct keys *)

Lemma apart_sym cmp k1 k2 : apart cmp k1 k2 → apart cmp k2 k1.
Proof. intros [? ?]. by split. Qed.

Lemma distinctKeys_perm cmp l l' :
  l ≡ₚ l' → distinctKeys cmp l → distinctKeys cmp l'.
Proof.
  induction 1 as [|x l l' Hp IH|x y l|l l' l'' _ IH1 _ IH2]; cbn.
  - done.
  - intros [Hx Hl]. split; [|auto]. intros z Hz. apply Hx. by rewrite Hp.
  - intros [Hy [Hx Hl]]. split; [|split; [|done]].
    + intros z [->|Hz]%elem_of_cons; [|by apply Hx].
      apply apart_sym, Hy. by left.
    + intros z Hz. apply Hy. by right.
  - auto.
Qed.

Lemma distinctKeys_middle cmp l e rest :
  distinctKeys cmp (l ++ e :: rest) → fresh cmp l (key e).
Proof.
  intros H x Hx.
  apply (distinctKeys_perm _ _ (e :: l ++ rest)) in H;
    [|by rewrite Permutation_middle].
  destruct H as [H _]. apply apart_sym, H, elem_of_app. by left.
Qed.

Lemma distinctKeys_snoc cmp l e :
  distinctKeys cmp l → fresh cmp l (key e) → distinctKeys cmp (l ++ [e]).
Proof.
  intros Hl He. apply (distinctKeys_perm _ (e :: l)).
  - by rewrite (comm (++)).
  - split; [|done]. intros x Hx. by apply apart_sym, He.
Qed.

Lemma elem_of_entries t e :
  e ∈ entries t ↔ ∃ i l, elementsArray t !! i = Some l ∧ e ∈ l.
Proof.
  unfold entries. induction (elementsArray t) as [|l0 ls IH]; cbn [concat].
  - split; [by intros ?%elem_of_nil | by intros (i & l & ? & _)].
  - rewrite elem_of_app, IH. split.
    + intros [He|(i & l & Hi & He)]; [by exists 0%nat, l0|by exists (S i), l].
    + intros ([|i] & l & Hi & He); [left; by injection Hi as ->|right; eauto].
Qed.

Lemma wf_empty newCapacity newArray a a' h c :
  0 <= newCapacity →
  calloc newCapacity a = (Some newArray, a') →
  wf (mkHashTable newCapacity newArray 0 h c) ∧
  counted (mkHashTable newCapacity newArray 0 h c) ∧
  entries (mkHashTable newCapacity newArray 0 h c) = [].
Proof.
  intros Hc (-> & Hfit & _)%calloc_Some.
  assert (entries (mkHashTable newCapacity (replicate (Z.to_nat newCapacity) [])
                               0 h c) = []) as H0
    by apply concat_replicate_nil.
  split; [split|split; [|done]].
  - unfold shape; cbn. by rewrite length_replicate.
  - cbn. intros i l e [-> _]%lookup_replicate. by intros ?%elem_of_nil.
  - rewrite H0. by intros e ?%elem_of_nil.
  - by rewrite H0.
  - unfold counted. by rewrite H0.
Qed.

(** The insertion proper, for a key that is not in the table. *)
Lemma insertAtIndex_fresh t k v a r t' a' :
  wf t → fresh (compareFunction t) (entries t) k → k ≠ NULL →
  insertAtIndex t k v a = Ret (r, t', a') → r ≠ NULL →
  r = INSERTED ∧ wf t' ∧ entries t' ≡ₚ entries t ++ [mkElement k v] ∧
  nbElements t' = size_wrap (nbElements t + 1).
Proof.
  intros Hwf Hfresh Hk. unfold insertAtIndex.
  destruct (bucketIndex t k) as [index| |] eqn:Hi;
    cbn [mbind outcome_bind]; [|done..].
  destruct (bucket t index) as [l| |] eqn:Hl; cbn [mbind outcome_bind]; [|done..].
  pose proof Hl as Hl'%bucket_Ret.
  rewrite replaceInChain_None; cycle 1.
  { intros e He. apply Hfresh, elem_of_entries. eauto. }
  destruct (malloc a) as [[] a1]; [|by intros [= <- <- <-]].
  intros [= <- <- <-] _.
  pose proof (entries_updateTable_append t index l (mkElement k v)
                (size_wrap (nbElements t + 1)) Hl) as Hperm.
  destruct Hwf as [Hs Hidx Hkeys Hdist].
  split; [done|]. split; [|done]. split.
  - by apply shape_updateTable.
  - intros i l1 e. cbn [updateTable elementsArray].
    change (bucketIndex (updateTable t index (l ++ [mkElement k v])
              (size_wrap (nbElements t + 1))) (key e))
      with (bucketIndex t (key e)).
    destruct (decide (i = Z.to_nat index)) as [->|Hne].
    + rewrite list_lookup_insert_eq by (by eapply lookup_lt_Some).
      intros [= <-] [He|He%list_elem_of_singleton]%elem_of_app.
      * by eapply Hidx.
      * subst e. cbn [key]. rewrite Z2Nat.id; [done|].
        apply bucketIndex_Ret in Hi; [lia|apply Hs].
    + rewrite list_lookup_insert_ne by done. apply Hidx.
  - intros e. rewrite Hperm.
    intros [He|He%list_elem_of_singleton]%elem_of_app;
      [by apply Hkeys|by subst e].
  - cbn [updateTable compareFunction].
    eapply distinctKeys_perm; [symmetry; exact Hperm|].
    by apply distinctKeys_snoc.
Qed.

Lemma size_wrap_succ z : size_wrap (size_wrap z + 1) = size_wrap (z + 1).
Proof. unfold size_wrap. by rewrite Zplus_mod_idemp_l. Qed.

Lemma counted_succ t t' e :
  entries t' ≡ₚ entries t ++ [e] →
  counted t → nbElements t' = size_wrap (nbElements t + 1) → counted t'.
Proof.
  unfold counted. intros Hp -> ->. rewrite Hp, length_app. cbn [length].
  rewrite size_wrap_succ. f_equal. lia.
Qed.

Section ResizeDistinct.

(** Fresh insertions behave on the tables of fewer than [N] elements. *)
Variable N : nat.

Hypothesis IH : ∀ t k v a r t' a',
  (length (entries t) < N)%nat → wf t →
  fresh (compareFunction t) (entries t) k →
  insertElement t k v a = Ret (r, t', a') → r ≠ NULL →
  insertedFresh t k v r t'.

Lemma moving_step t tj e rest a r t' a' :
  (length (entries t) ≤ N)%nat → wf t →
  moving t tj (e :: rest) →
  insertElement tj (key e) (value e) a = Ret (r, t', a') → r ≠ NULL →
  moving t t' rest.
Proof.
  intros HN Hwf (Hwfj & Hcnt & Hperm & Hcmp & Hquiet) Hins Hr.
  assert (length (entries tj) < length (entries t))%nat as Hlt.
  { rewrite <- Hperm, length_app. cbn [length]. lia. }
  assert (fresh (compareFunction tj) (entries tj) (key e)) as Hfresh.
  { rewrite Hcmp. eapply distinctKeys_middle, distinctKeys_perm;
      [symmetry; exact Hperm|apply Hwf]. }
  assert (length (entries tj) < N)%nat as HltN by lia.
  destruct (IH _ _ _ _ _ _ _ HltN Hwfj Hfresh Hins Hr)
    as [_ Hwf' Hent Hcnt' _].
  assert (mkElement (key e) (value e) = e) as He by by destruct e.
  rewrite He in Hent.
  destruct (insertElement_extends _ _ _ _ _ _ _ Hins Hr) as [Hext Hsame].
  split; [done|]. split; [auto|]. split; [|split].
  - by rewrite Hent, <- (assoc_L (++)).
  - rewrite <- Hcmp. apply Hext.
  - intros Hq. rewrite <- (Hquiet Hq). apply Hsame.
    rewrite Hcnt, (Hquiet Hq). by apply Hq.
Qed.

Lemma reHashTable_distinct t a t1 a1 :
  (length (entries t) ≤ N)%nat → wf t →
  reHashTable t a = Ret (0, t1, a1) →
  wf t1 ∧ counted t1 ∧ entries t1 ≡ₚ entries t ∧
  (quietResize t → capacity t1 = 2 * capacity t).
Proof.
  intros HN Hwf. unfold reHashTable, reHashTableWith.
  destruct (calloc _ a) as [[newArray|] a0] eqn:Hc; [|done].
  rewrite reinsertBuckets_concat.
  destruct (shape_calloc_double _ _ _ _ (wf_shape _ Hwf) Hc) as [Hcap _].
  destruct (wf_empty _ _ _ _ (hashFunction t) (compareFunction t)
              (proj1 (size_wrap_range _)) Hc) as (Hwf0 & Hcnt0 & Hnil0).
  set (t0 := mkHashTable _ newArray 0 _ _) in *.
  replace (concat (take _ _)) with (entries t); cycle 1.
  { unfold entries. rewrite take_ge; [done|].
    destruct Hwf as [(_ & _ & ->) _ _ _]. lia. }
  destruct (reinsertChain insertElement (entries t) t0 a0)
    as [[[ok t2] a2]| |] eqn:Hloop; cbn [mbind outcome_bind]; [|done..].
  destruct ok; [|done]. destruct (_ <? _); [done|]. intros [= <- <-].
  assert (moving t t2 []) as (H1 & H2 & H3 & _ & H5).
  { eapply (reinsertChain_inv insertElement (moving t)); [| |exact Hloop].
    - intros. by eapply moving_step.
    - split; [done|]. split; [done|]. split; [by rewrite Hnil0|].
      split; [done|]. intros _. subst t0. by cbn. }
  rewrite (right_id_L [] (++)) in H3. done.
Qed.

End ResizeDistinct.

(** A successful insertion of a fresh key into a well-formed table. *)
Lemma insertElement_fresh t k v a r t' a' :
  wf t → fresh (compareFunction t) (entries t) k →
  insertElement t k v a = Ret (r, t', a') → r ≠ NULL →
  insertedFresh t k v r t'.
Proof.
  remember (S (length (entries t))) as n eqn:Hn.
  assert (length (entries t) < n)%nat as Hlt by lia. clear Hn.
  revert t k v a r t' a' Hlt.
  induction n as [|n IH]; intros t k v a r t' a' Hlt Hwf Hfresh; [lia|].
  rewrite insertElement_unfold. unfold insertBody, resizeStep.
  destruct (Z.eqb_spec k NULL) as [|Hk]; [by intros [= <- <- <-]|].
  destruct (v =? NULL); [by intros [= <- <- <-]|]. cbn [orb].
  destruct (loadExceeded _ _) eqn:Hload.
  - destruct (reHashTable t a) as [[[rc t1] a1]| |] eqn:Hre;
      cbn [mbind outcome_bind]; [|done..].
    destruct (Z.eqb_spec rc 0) as [->|_]; [|by intros [= <- <- <-]].
    assert (length (entries t) ≤ n)%nat as Hle by lia.
    destruct (reHashTable_distinct n IH t a t1 a1 Hle Hwf Hre)
      as (Hwf1 & Hcnt1 & Hperm1 & Hquiet1).
    pose proof (reHashTable_extends _ _ _ _ Hre) as [_ _ Hcmp _ _].
    intros Hat Hr.
    destruct (insertAtIndex_fresh t1 k v a1 r t' a' Hwf1) as (-> & ? & Hp & Hnb);
      [|done..|].
    { rewrite Hcmp. intros x Hx. apply Hfresh. by rewrite <- Hperm1. }
    split; try done.
    + by rewrite Hp, Hperm1.
    + intros _. by eapply counted_succ.
    + intros _ Hq. rewrite <- (Hquiet1 Hq). by eapply insertAtIndex_capacity.
  - cbn [mbind outcome_bind Z.eqb]. intros Hat Hr.
    destruct (insertAtIndex_fresh t k v a r t' a' Hwf) as (-> & ? & Hp & Hnb);
      [done..|].
    split; try done.
    + intros Hc. by eapply counted_succ.
    + intros Hc. congruence.
Qed.

(** ** Lookup in a well-formed table *)

Lemma chainHasKey_elem cmp l e :
  cmp (key e) (key e) = 0 → e ∈ l → chainHasKey cmp (key e) l = true.
Proof.
  intros Hrefl. induction l as [|x l IH]; [by intros ?%elem_of_nil|].
  intros [->|He]%elem_of_cons; cbn [chainHasKey].
  - by rewrite Hrefl.
  - destruct (_ =? 0); auto.
Qed.

Lemma hasKey_entry t e :
  wf t → compareFunction t (key e) (key e) = 0 → e ∈ entries t →
  hasKey t (key e) = Ret true.
Proof.
  intros Hwf Hrefl He. pose proof (wf_keys _ Hwf _ He) as Hk.
  apply elem_of_entries in He as (i & l & Hi & He).
  unfold hasKey. destruct (Z.eqb_spec (key e) NULL); [done|].
  rewrite (wf_index _ Hwf _ _ _ Hi He). cbn [mbind outcome_bind].
  unfold bucket. rewrite Nat2Z.id, Hi. cbn [mbind outcome_bind].
  by rewrite chainHasKey_elem.
Qed.

(** ** Tables built by successful insertions of distinct keys *)

Lemma createHashTable_Some capacity h c a t a' :
  createHashTable capacity (Some h) (Some c) a = (Some t, a') →
  ∃ a1 newArray,
    malloc a = (true, a1) ∧ calloc capacity a1 = (Some newArray, a') ∧
    t = mkHashTable capacity newArray 0 h c.
Proof.
  unfold createHashTable. destruct (malloc a) as [[] a1]; [|done].
  destruct (calloc capacity a1) as [[newArray|] a2] eqn:Hc; [|done].
  intros [= <- <-]. eauto.
Qed.

Lemma built_wf t es : built t es → wf t ∧ counted t ∧ entries t ≡ₚ es.
Proof.
  induction 1 as [capacity h c a t a' Hcap Hcreate
                 |t es k v a r t' a' _ (Hwf & Hcnt & Hperm) Hfresh Hins Hr].
  - apply createHashTable_Some in Hcreate as (a1 & newArray & _ & Hc & ->).
    destruct (wf_empty _ _ _ _ h c Hcap Hc) as (? & ? & ->). done.
  - destruct (insertElement_fresh t k v a r t' a' Hwf) as [_ ? Hent Hcnt' _];
      [|done..|].
    { intros x Hx. apply Hfresh. by rewrite <- Hperm. }
    split; [done|]. split; [auto|]. by rewrite Hent, Hperm.
Qed.

(** After successful insertions of distinct keys the count is their
    number. *)
Lemma built_count t es :
  built t es → getNumElements t = size_wrap (Z.of_nat (length es)).
Proof.
  intros (_ & Hcnt & Hperm)%built_wf. unfold getNumElements.
  by rewrite Hcnt, Hperm.
Qed.

Lemma pow2_ge_1 d : 0 <= d → 1 <= 2 ^ d.
Proof. intros. pose proof (Z.pow_pos_nonneg 2 d). lia. Qed.

Lemma pow2_ge_2 d : 1 <= d → 2 <= 2 ^ d.
Proof.
  intros. replace d with (1 + (d - 1)) by lia.
  rewrite Z.pow_add_r by lia. pose proof (pow2_ge_1 (d - 1)). lia.
Qed.

(** The resize step keeps the callbacks and only grows the table. *)
Lemma resizeStep_extends t a t1 a1 :
  resizeStep reHashTable t a = Ret (0, t1, a1) → extends 0 0 t t1.
Proof.
  unfold resizeStep. destruct (loadExceeded _ _).
  - intros Hre%reHashTable_extends.
    eapply extends_weaken; [| |exact Hre]; lia.
  - intros [= <- <-]. apply extends_refl.
Qed.

(** ** The search loops *)

(** The search of [insertElement] replaces the value of the first
    equivalent key that is followed by another element, and never looks at
    the last element of the chain. *)
Lemma replaceInChain_inner cmp k v l1 e e' l2 :
  (∀ x, x ∈ l1 → cmp (key x) k ≠ 0) → cmp (key e) k = 0 →
  replaceInChain cmp k v (l1 ++ e :: e' :: l2)
  = Some (value e, l1 ++ mkElement (key e) v :: e' :: l2).
Proof.
  intros Hl1 He. induction l1 as [|x l1 IH]; cbn.
  - by rewrite He.
  - destruct (l1 ++ e :: e' :: l2) eqn:Hl; [by destruct l1|].
    destruct (Z.eqb_spec (cmp (key x) k) 0) as [Hx|_].
    + exfalso. eapply Hl1; [|done]. by left.
    + rewrite IH; [done|]. intros y Hy. apply Hl1. by right.
Qed.

Lemma replaceInChain_last cmp k v l1 e :
  (∀ x, x ∈ l1 → cmp (key x) k ≠ 0) →
  replaceInChain cmp k v (l1 ++ [e]) = None.
Proof.
  intros Hl1. induction l1 as [|x l1 IH]; cbn; [done|].
  destruct (l1 ++ [e]) eqn:Hl; [done|].
  destruct (Z.eqb_spec (cmp (key x) k) 0) as [Hx|_].
  - exfalso. eapply Hl1; [|done]. by left.
  - rewrite IH; [done|]. intros y Hy. apply Hl1. by right.
Qed.

Lemma removeFromChain_first cmp k l1 e l2 :
  (∀ x, x ∈ l1 → cmp (key x) k ≠ 0) → cmp (key e) k = 0 →
  removeFromChain cmp k (l1 ++ e :: l2) = Some (value e, l1 ++ l2).
Proof.
  intros Hl1 He. induction l1 as [|x l1 IH]; cbn.
  - by rewrite He.
  - destruct (Z.eqb_spec (cmp (key x) k) 0) as [Hx|_].
    + exfalso. eapply Hl1; [|done]. by left.
    + rewrite IH; [done|]. intros y Hy. apply Hl1. by right.
Qed.

Lemma removeFromChain_None cmp k l :
  (∀ x, x ∈ l → cmp (key x) k ≠ 0) → removeFromChain cmp k l = None.
Proof.
  induction l as [|x l IH]; intros Hl; [done|]. cbn.
  destruct (Z.eqb_spec (cmp (key x) k) 0) as [Hx|_].
  - exfalso. eapply Hl; [|done]. by left.
  - rewrite IH; [done|]. intros y Hy. apply Hl. by right.
Qed.

Lemma array_bucket t index :
  length (elementsArray t) = Z.to_nat (capacity t) →
  0 <= index < capacity t → ∃ l, bucket t index = Ret l.
Proof.
  intros Hlen Hi.
  destruct (lookup_lt_is_Some_2 (elementsArray t) (Z.to_nat index)) as [l Hl];
    [lia|].
  exists l. by apply bucket_Ret.
Qed.

(** ** The bucket index *)

(** C5: for a table of positive capacity the bucket index is
    [hash(key) mod capacity], which is [hash(key)] itself when that is
    below the capacity; [hasKey], [removeElement] and the insertion search
    and modify the chain at that index (the insertion, in the table as it
    is after its resize step); key 5 in a table of capacity 4 goes to
    bucket 1. *)
Theorem bucketIndex_hash_mod_capacity t k :
  0 < capacity t →
  let hash := size_wrap (hashFunction t k) in
  bucketIndex t k = Ret (hash mod capacity t) ∧
  (hash < capacity t → bucketIndex t k = Ret hash) ∧
  (hashFunction t k = 5 → capacity t = 4 → bucketIndex t k = Ret 1) ∧
  (k ≠ NULL →
   hasKey t k =
     (listElements ← bucket t (hash mod capacity t);
      Ret (chainHasKey (compareFunction t) k listElements)) ∧
   removeElement t k =
     (listElements ← bucket t (hash mod capacity t);
      match removeFromChain (compareFunction t) k listElements with
      | Some (temporaryValue, listElements') =>
          Ret (temporaryValue,
               updateTable t (hash mod capacity t) listElements'
                           (size_wrap (nbElements t - 1)))
      | None => Ret (NULL, t)
      end)) ∧
  (∀ v a, insertAtIndex t k v a =
     (listElements ← bucket t (hash mod capacity t);
      match replaceInChain (compareFunction t) k v listElements with
      | Some (temporaryValue, listElements') =>
          Ret (temporaryValue,
               updateTable t (hash mod capacity t) listElements'
                           (size_wrap (nbElements t + 1)), a)
      | None =>
          let '(granted, a') := malloc a in
          if granted then
            Ret (INSERTED,
                 updateTable t (hash mod capacity t)
                             (listElements ++ [mkElement k v])
                             (size_wrap (nbElements t + 1)), a')
          else Ret (NULL, t, a')
      end)) ∧
  (∀ v a, insertElement t k v a =
     if (k =? NULL) || (v =? NULL) then Ret (NULL, t, a)
     else
       '(rc, t1, a1) ← resizeStep reHashTable t a;
       if rc =? 0 then insertAtIndex t1 k v a1 else Ret (NULL, t1, a1)) ∧
  (∀ a t1 a1,
     shape t → resizeStep reHashTable t a = Ret (0, t1, a1) →
     0 < capacity t1 ∧ bucketIndex t1 k = Ret (hash mod capacity t1)).
Proof.
  intros Hcap hash. pose proof (bucketIndex_mod t k Hcap) as Hidx.
  fold hash in Hidx. split; [done|].
  split; [|split; [|split; [|split; [|split]]]].
  - intros Hlt. rewrite Hidx, Z.mod_small; [done|].
    split; [apply size_wrap_range | done].
  - intros Hh Hc. rewrite Hidx. subst hash. by rewrite Hh, Hc.
  - intros Hk. unfold hasKey, removeElement.
    destruct (Z.eqb_spec k NULL); [done|]. by rewrite Hidx.
  - intros v a. unfold insertAtIndex. by rewrite Hidx.
  - intros v a. apply insertElement_unfold.
  - intros a t1 a1 Hs Hre.
    destruct (resizeStep_extends _ _ _ _ Hre) as [_ Hhash _ _ Hgrow].
    destruct (Hgrow Hs) as (d & Hd & Hcap1).
    pose proof (pow2_ge_1 d Hd).
    assert (0 < capacity t1) as Hpos by nia.
    split; [done|]. rewrite bucketIndex_mod by done.
    subst hash. by rewrite Hhash.
Qed.

(** ** Removal *)

(** C6: for a key other than [NULL] and a table whose array has its
    [capacity > 0] buckets, when the chain of the key's bucket
    holds an element with an equivalent key, [removeElement] unlinks the
    first such element (the chain keeps what is before and what is after
    it), decrements the count and returns the element's value; when the
    chain holds none, it returns [NULL] and the table is unchanged. *)
Theorem removeElement_unlinks_first t k :
  k ≠ NULL →
  0 < capacity t → length (elementsArray t) = Z.to_nat (capacity t) →
  let index := size_wrap (hashFunction t k) mod capacity t in
  ∃ listElements,
    elementsArray t !! Z.to_nat index = Some listElements ∧
    (∀ before e after,
       listElements = before ++ e :: after →
       (∀ x, x ∈ before → compareFunction t (key x) k ≠ 0) →
       compareFunction t (key e) k = 0 →
       removeElement t k =
         Ret (value e,
              mkHashTable (capacity t)
                (<[Z.to_nat index := before ++ after]> (elementsArray t))
                (size_wrap (nbElements t - 1))
                (hashFunction t) (compareFunction t)) ∧
       (0 < nbElements t <= SIZE_MAX →
        size_wrap (nbElements t - 1) = nbElements t - 1)) ∧
    ((∀ x, x ∈ listElements → compareFunction t (key x) k ≠ 0) →
     removeElement t k = Ret (NULL, t)).
Proof.
  intros Hk Hcap Hlen index.
  assert (0 <= index < capacity t) as Hi
    by (apply Z.mod_pos_bound; lia).
  destruct (array_bucket t index Hlen Hi) as [l Hl].
  exists l. split; [by apply bucket_Ret|].
  assert (removeElement t k =
          match removeFromChain (compareFunction t) k l with
          | Some (temporaryValue, listElements') =>
              Ret (temporaryValue,
                   updateTable t index listElements' (size_wrap (nbElements t - 1)))
          | None => Ret (NULL, t)
          end) as ->.
  { unfold removeElement. destruct (Z.eqb_spec k NULL); [done|].
    rewrite bucketIndex_mod by done. fold index. cbn [mbind outcome_bind].
    by rewrite Hl. }
  split.
  - intros before e after -> Hbefore He.
    rewrite removeFromChain_first by done. split; [done|].
    intros Hn. apply size_wrap_small. unfold SIZE_MAX in Hn. lia.
  - intros Hnone. by rewrite removeFromChain_None.
Qed.

(** ** Allocation failures *)

(** C7, as the code has it: when the allocation of the doubled bucket
    array fails, or when the table is not resized, the search finds no
    equivalent key and the allocation of the element fails,
    [insertElement] returns [NULL] and the table is the one it was given. *)
Theorem insertElement_allocation_failure t k v a a1 :
  k ≠ NULL → v ≠ NULL →
  (loadExceeded (nbElements t) (capacity t) = true →
   calloc (size_wrap (capacity t * 2)) a = (None, a1) →
   insertElement t k v a = Ret (NULL, t, a1)) ∧
  (loadExceeded (nbElements t) (capacity t) = false →
   ∀ index listElements,
     bucketIndex t k = Ret index →
     bucket t index = Ret listElements →
     replaceInChain (compareFunction t) k v listElements = None →
     malloc a = (false, a1) →
     insertElement t k v a = Ret (NULL, t, a1)).
Proof.
  intros Hk Hv. rewrite insertElement_unfold. unfold insertBody, resizeStep.
  destruct (Z.eqb_spec k NULL); [done|]. destruct (Z.eqb_spec v NULL); [done|].
  cbn [orb]. split.
  - intros -> Hc. unfold reHashTable, reHashTableWith. by rewrite Hc.
  - intros -> index l Hi Hl Hrep Hm. cbn [mbind outcome_bind Z.eqb].
    unfold insertAtIndex. rewrite Hi. cbn [mbind outcome_bind].
    rewrite Hl. cbn [mbind outcome_bind]. by rewrite Hrep, Hm.
Qed.

(** ** A table of capacity zero *)

Lemma loadExceeded_zero_capacity : loadExceeded 0 0 = true.
Proof. reflexivity. Qed.

(** C10: [createHashTable] accepts the capacity 0: with both callbacks and
    successful allocations it returns a table of capacity 0. On that table
    [hasKey] and [removeElement] of a key other than [NULL], and
    [insertElement] of a key and a value other than [NULL] whose resize
    obtains its (empty) array, divide by zero in [hashKey]. *)
Theorem createHashTable_zero_capacity h c a a1 a2 :
  malloc a = (true, a1) → malloc a1 = (true, a2) →
  ∃ t,
    createHashTable 0 (Some h) (Some c) a = (Some t, a2) ∧
    capacity t = 0 ∧
    ∀ k, k ≠ NULL →
      bucketIndex t k = Fault DivisionByZero ∧
      hasKey t k = Fault DivisionByZero ∧
      removeElement t k = Fault DivisionByZero ∧
      ∀ v a3 a4, v ≠ NULL → malloc a3 = (true, a4) →
        insertElement t k v a3 = Fault DivisionByZero.
Proof.
  intros Hm Hm1. exists (mkHashTable 0 [] 0 h c).
  split; [|split; [done|]].
  - unfold createHashTable, calloc. by rewrite Hm, Hm1.
  - intros k Hk.
    assert (∀ t', capacity t' = 0 → bucketIndex t' k = Fault DivisionByZero)
      as Hdiv.
    { intros t' H0. apply hashKey_zero; [done|apply size_wrap_range]. }
    split; [by apply Hdiv|]. split; [|split].
    + unfold hasKey. destruct (Z.eqb_spec k NULL); [done|]. by rewrite Hdiv.
    + unfold removeElement. destruct (Z.eqb_spec k NULL); [done|].
      by rewrite Hdiv.
    + intros v a3 a4 Hv Hm3. rewrite insertElement_unfold.
      unfold insertBody, resizeStep.
      destruct (Z.eqb_spec k NULL); [done|].
      destruct (Z.eqb_spec v NULL); [done|]. cbn [orb nbElements capacity].
      rewrite loadExceeded_zero_capacity.
      unfold reHashTable, reHashTableWith, calloc. cbn [capacity].
      rewrite Hm3. change (size_wrap (0 * 2)) with 0.
      change (0 * sizeof_ElementsArray <=? SIZE_MAX) with true.
      change (Z.to_nat 0) with 0%nat. cbn.
      change (Z.of_nat 0 <? 0) with false. cbn [mbind outcome_bind Z.eqb].
      unfold insertAtIndex. by rewrite Hdiv.
Qed.

(** ** Binary32 arithmetic: digits and shifts *)

Lemma digits2_pos_size p : digits2_pos p = Pos.size p.
Proof. induction p; simpl; congruence. Qed.

Lemma Zdigits2_pos_bounds p :
  2 ^ (Zpos (digits2_pos p) - 1) <= Zpos p < 2 ^ Zpos (digits2_pos p).
Proof.
  rewrite digits2_pos_size.
  pose proof (Pos.size_gt p) as Hgt. pose proof (Pos.size_le p) as Hle.
  apply Pos2Z.pos_lt_pos in Hgt. apply Pos2Z.pos_le_pos in Hle.
  rewrite Pos2Z.inj_pow in Hgt, Hle. rewrite (Pos2Z.inj_xO p) in Hle.
  replace (Zpos (Pos.size p)) with (1 + (Zpos (Pos.size p) - 1)) in Hle at 1 by lia.
  rewrite Z.pow_add_r in Hle by lia. change (2 ^ 1) with 2 in Hle. lia.
Qed.

Lemma pow2_lt_inv a b : 0 <= a -> 0 <= b -> 2 ^ a < 2 ^ b -> a < b.
Proof. intros. apply (Z.pow_lt_mono_r_iff 2); lia. Qed.

Lemma digits2_pos_unique p d :
  2 ^ (d - 1) <= Zpos p < 2 ^ d -> 0 < d -> Zpos (digits2_pos p) = d.
Proof.
  intros [Hlo Hhi] Hd. pose proof (Zdigits2_pos_bounds p) as [Hlo' Hhi'].
  assert (d - 1 < Zpos (digits2_pos p)) by (apply pow2_lt_inv; lia).
  assert (Zpos (digits2_pos p) - 1 < d) by (apply pow2_lt_inv; lia).
  lia.
Qed.

(** Shifting the mantissa right divides it by a power of two. *)
Lemma shr_1_m mrs : 0 <= shr_m mrs -> shr_m (shr_1 mrs) = shr_m mrs / 2.
Proof.
  destruct mrs as [m r s]. cbn [shr_m]. intros Hm.
  destruct m as [|[p|p|]|p]; cbn [shr_1 shr_m]; try reflexivity; try lia.
  - apply Z.div_unique with 1; lia.
  - apply Z.div_unique with 0; lia.
Qed.

Lemma iter_pos_shr_1_m p : forall mrs,
  0 <= shr_m mrs ->
  0 <= shr_m (SpecFloat.iter_pos shr_1 p mrs) /\
  shr_m (SpecFloat.iter_pos shr_1 p mrs) = shr_m mrs / 2 ^ Zpos p.
Proof.
  assert (forall q, 0 < 2 ^ Zpos q) as Hpow by (intros; apply Z.pow_pos_nonneg; lia).
  induction p as [p IH|p IH|]; intros mrs Hm; cbn [SpecFloat.iter_pos].
  - assert (0 <= shr_m (shr_1 mrs)) as H1
      by (rewrite shr_1_m by assumption; apply Z.div_pos; lia).
    destruct (IH _ H1) as [H2 E2]. destruct (IH _ H2) as [H3 E3].
    split; [assumption|]. rewrite E3, E2, shr_1_m by assumption.
    pose proof (Hpow p).
    rewrite !Z.div_div by lia. f_equal.
    rewrite (Pos2Z.inj_xI p). replace (2 * Zpos p + 1) with (1 + Zpos p + Zpos p) by lia.
    rewrite !Z.pow_add_r by lia. lia.
  - destruct (IH _ Hm) as [H2 E2]. destruct (IH _ H2) as [H3 E3].
    split; [assumption|]. rewrite E3, E2.
    pose proof (Hpow p).
    rewrite !Z.div_div by lia. f_equal.
    rewrite (Pos2Z.inj_xO p). replace (2 * Zpos p) with (Zpos p + Zpos p) by lia.
    rewrite !Z.pow_add_r by lia. lia.
  - rewrite shr_1_m by assumption. change (2 ^ 1) with 2.
    split; [apply Z.div_pos; lia|reflexivity].
Qed.

Lemma pos_iter_xO m d : Zpos (Pos.iter xO m d) = Zpos m * 2 ^ Zpos d.
Proof.
  induction d as [|d IH] using Pos.peano_ind.
  - simpl. lia.
  - rewrite Pos.iter_succ, (Pos2Z.inj_xO (Pos.iter xO m d)), IH,
      Pos2Z.inj_succ, Z.pow_succ_r by lia.
    lia.
Qed.

(** ** Binary32 arithmetic: rounding to 24 digits *)

Lemma fexp_normal e : -125 <= e -> fexp Float32.prec Float32.emax e = e - 24.
Proof. intros. unfold fexp, emin, Float32.prec, Float32.emax. lia. Qed.

Lemma Zdigits2_bounds m :
  0 < m -> 2 ^ (Zdigits2 m - 1) <= m < 2 ^ Zdigits2 m.
Proof. destruct m; try lia. intros _. apply Zdigits2_pos_bounds. Qed.

Lemma Zdigits2_pos m : 0 < m -> 0 < Zdigits2 m.
Proof. destruct m; cbn; lia. Qed.

Lemma Zdigits2_unique m d :
  2 ^ (d - 1) <= m < 2 ^ d -> 0 < d -> Zdigits2 m = d.
Proof.
  intros H Hd. assert (0 < m).
  { pose proof (Z.pow_pos_nonneg 2 (d - 1)). lia. }
  destruct m; try lia. simpl. now apply digits2_pos_unique.
Qed.

Lemma div_pow2_bounds m d :
  0 < m -> 24 <= d -> 2 ^ (d - 1) <= m < 2 ^ d ->
  2 ^ 23 <= m / 2 ^ (d - 24) < 2 ^ 24.
Proof.
  intros Hm Hd [Hlo Hhi].
  assert (0 < 2 ^ (d - 24)) as Hp by (apply Z.pow_pos_nonneg; lia).
  assert (2 ^ (d - 1) = 2 ^ 23 * 2 ^ (d - 24)) as E1
    by (rewrite <- Z.pow_add_r by lia; f_equal; lia).
  assert (2 ^ d = 2 ^ 24 * 2 ^ (d - 24)) as E2
    by (rewrite <- Z.pow_add_r by lia; f_equal; lia).
  split.
  - apply Z.div_le_lower_bound; lia.
  - apply Z.div_lt_upper_bound; lia.
Qed.

Lemma shr_fexp_spec m e l :
  0 < m -> 24 <= Zdigits2 m -> -149 <= e ->
  exists mrs,
    shr_fexp Float32.prec Float32.emax m e l = (mrs, e + (Zdigits2 m - 24)) /\
    shr_m mrs = m / 2 ^ (Zdigits2 m - 24) /\
    (Zdigits2 m = 24 -> mrs = shr_record_of_loc m l).
Proof.
  intros Hm Hd He. unfold shr_fexp.
  rewrite fexp_normal by lia.
  replace (Zdigits2 m + e - 24 - e) with (Zdigits2 m - 24) by lia.
  assert (shr_m (shr_record_of_loc m l) = m) as Hrec
    by (destruct l as [|[]]; reflexivity).
  unfold shr. destruct (Zdigits2 m - 24) as [|p|p] eqn:Hk; try lia.
  - eexists. split; [f_equal; lia|]. split; [|reflexivity].
    rewrite Hrec. change (2 ^ 0) with 1. now rewrite Z.div_1_r.
  - eexists. split; [reflexivity|]. split; [|lia].
    rewrite <- Hrec at 2. apply iter_pos_shr_1_m. lia.
Qed.

Lemma round_nearest_even_bounds m l :
  m <= round_nearest_even m l <= m + 1.
Proof.
  unfold round_nearest_even. destruct l as [|[]]; try lia.
  destruct (Z.even m); lia.
Qed.

Lemma binary_round_aux_spec sx mx ex lx :
  0 < mx -> 24 <= Zdigits2 mx -> -149 <= ex ->
  ex + (Zdigits2 mx - 24) < 104 ->
  exists mr er,
    binary_round_aux Float32.prec Float32.emax sx mx ex lx = S754_finite sx mr er /\
    2 ^ 23 <= Zpos mr < 2 ^ 24 /\
    ((er = ex + (Zdigits2 mx - 24) /\
      mx / 2 ^ (Zdigits2 mx - 24) <= Zpos mr <= mx / 2 ^ (Zdigits2 mx - 24) + 1) \/
     (er = ex + (Zdigits2 mx - 24) + 1 /\ Zpos mr = 2 ^ 23 /\
      mx / 2 ^ (Zdigits2 mx - 24) = 2 ^ 24 - 1)).
Proof.
  intros Hm Hd He Hmax. unfold binary_round_aux.
  destruct (shr_fexp_spec mx ex lx Hm Hd He) as (mrs & -> & Hmrs & _).
  set (k := Zdigits2 mx - 24) in *.
  pose proof (div_pow2_bounds mx (Zdigits2 mx) Hm Hd (Zdigits2_bounds mx Hm))
    as Hb. fold k in Hb. rewrite <- Hmrs in Hb.
  pose proof (round_nearest_even_bounds (shr_m mrs) (loc_of_shr_record mrs))
    as Hr.
  set (m2 := round_nearest_even (shr_m mrs) (loc_of_shr_record mrs)) in *.
  destruct (Z.eq_dec m2 (2 ^ 24)) as [Hov|Hov].
  - (* the mantissa overflowed to 2^24 *)
    assert (Zdigits2 m2 = 25) as Hd2
      by (rewrite Hov; reflexivity).
    destruct (shr_fexp_spec m2 (ex + k) loc_Exact) as (mrs2 & -> & Hm2 & _);
      [lia..|].
    rewrite Hd2 in *. rewrite Hov in Hm2.
    change (2 ^ 24 / 2 ^ (25 - 24)) with (2 ^ 23) in Hm2.
    rewrite Hm2. change (2 ^ 23) with (Zpos 8388608).
    replace (ex + k + (25 - 24) <=? Float32.emax - Float32.prec) with true
      by (symmetry; apply Z.leb_le; unfold Float32.emax, Float32.prec; lia).
    exists 8388608%positive, (ex + k + 1). split; [f_equal; lia|].
    split; [lia|]. right. rewrite <- Hmrs. lia.
  - assert (Zdigits2 m2 = 24) as Hd2
      by (apply Zdigits2_unique; lia).
    destruct (shr_fexp_spec m2 (ex + k) loc_Exact) as (mrs2 & -> & Hm2 & Hrec);
      [lia..|].
    rewrite Hd2 in *. rewrite (Hrec eq_refl). cbn [shr_record_of_loc shr_m].
    destruct m2 as [|p|p]; try lia.
    replace (ex + k + (24 - 24) <=? Float32.emax - Float32.prec) with true
      by (symmetry; apply Z.leb_le; unfold Float32.emax, Float32.prec; lia).
    exists p, (ex + k). split; [f_equal; lia|]. split; [lia|].
    left. rewrite <- Hmrs. lia.
Qed.

(** ** Binary32 arithmetic: the real value of a rounded number *)

Lemma bpow_pos e : (0 < bpow e)%R.
Proof. apply powerRZ_lt. lra. Qed.

Lemma bpow_add a b : bpow (a + b) = (bpow a * bpow b)%R.
Proof. apply powerRZ_add. lra. Qed.

Lemma bpow_IZR k : 0 <= k -> bpow k = IZR (2 ^ k).
Proof.
  intros Hk. unfold bpow. rewrite <- (Z2Nat.id k Hk) at 1.
  rewrite <- pow_powerRZ, pow_IZR. now rewrite Z2Nat.id.
Qed.

Lemma bpow_succ e : bpow (e + 1) = (2 * bpow e)%R.
Proof. rewrite bpow_add. change (bpow 1) with (2 * 1)%R. lra. Qed.

Lemma bpow_le a b : a <= b -> (bpow a <= bpow b)%R.
Proof.
  intros H. replace b with (a + (b - a)) by lia. rewrite bpow_add.
  rewrite (bpow_IZR (b - a)) by lia.
  assert (1 <= 2 ^ (b - a)) by (pose proof (Z.pow_pos_nonneg 2 (b - a)); lia).
  apply IZR_le in H0. pose proof (bpow_pos a). nra.
Qed.

Lemma Rabs_bounds a b : (Rabs a <= b -> - b <= a <= b)%R.
Proof.
  intros H. unfold Rabs in H. destruct (Rcase_abs a); lra.
Qed.

Lemma Rabs_factor A t u x y :
  (0 < A -> x = t * A -> y = u * A -> Rabs t <= u -> Rabs x <= y)%R.
Proof.
  intros HA -> -> Ht. rewrite Rabs_mult, (Rabs_pos_eq A) by lra.
  apply Rmult_le_compat_r; lra.
Qed.

(** Rounding [m * 2^ex] to 24 digits moves it by at most one unit in the
    last place. *)
Lemma binary_round_spec sx m ex :
  let d := Zpos (digits2_pos m) in
  -149 <= ex -> -125 <= d + ex -> d + ex - 24 < 104 ->
  exists mr er,
    binary_round Float32.prec Float32.emax sx m ex = S754_finite sx mr er /\
    2 ^ 23 <= Zpos mr < 2 ^ 24 /\
    d + ex - 24 <= er <= d + ex - 23 /\
    (Rabs (F2R mr er - F2R m ex) <= bpow (d + ex - 24))%R.
Proof.
  intros d Hex Hlo Hhi. unfold binary_round.
  rewrite fexp_normal by (fold d; lia). fold d.
  unfold shl_align. replace (d + ex - 24 - ex) with (d - 24) by lia.
  pose proof (Zdigits2_pos_bounds m) as Hdig. fold d in Hdig.
  destruct (d - 24) as [|p|p] eqn:Hk.
  - (* exactly 24 digits *)
    destruct (binary_round_aux_spec sx (Zpos m) ex loc_Exact)
      as (mr & er & -> & Hmr & Hcase); try (cbn [Zdigits2]; fold d; lia).
    cbn [Zdigits2] in Hcase. fold d in Hcase. rewrite Hk in Hcase.
    change (2 ^ 0) with 1 in Hcase. rewrite Z.div_1_r in Hcase.
    exists mr, er. split; [reflexivity|]. split; [exact Hmr|].
    split; [lia|]. unfold F2R.
    replace (d + ex - 24) with ex by lia.
    destruct Hcase as [(-> & H1 & H2)|(-> & H1 & H2)].
    + replace (ex + 0) with ex by lia.
      apply IZR_le in H1, H2. rewrite plus_IZR in H2.
      apply (Rabs_factor (bpow ex) (IZR (Zpos mr) - IZR (Zpos m)) 1);
        [apply bpow_pos|ring|ring|].
      apply Rabs_le. split; lra.
    + replace (ex + 0 + 1) with (ex + 1) by lia. rewrite bpow_succ, H1.
      apply (f_equal IZR) in H2.
      change (IZR (2 ^ 23)) with 8388608%R.
      change (IZR (2 ^ 24 - 1)) with 16777215%R in H2.
      apply (Rabs_factor (bpow ex) (16777216 - IZR (Zpos m)) 1);
        [apply bpow_pos|ring|ring|].
      rewrite H2. apply Rabs_le. split; lra.
  - (* more than 24 digits: the low bits are rounded away *)
    destruct (binary_round_aux_spec sx (Zpos m) ex loc_Exact)
      as (mr & er & -> & Hmr & Hcase); try (cbn [Zdigits2]; fold d; lia).
    cbn [Zdigits2] in Hcase. fold d in Hcase. rewrite Hk in Hcase.
    exists mr, er. split; [reflexivity|]. split; [exact Hmr|].
    split; [lia|]. unfold F2R.
    replace (d + ex - 24) with (ex + Zpos p) by lia.
    assert (0 < 2 ^ Zpos p) as Hp by (apply Z.pow_pos_nonneg; lia).
    pose proof (Z.mul_div_le (Zpos m) (2 ^ Zpos p) Hp) as Hq1.
    pose proof (Z.mul_succ_div_gt (Zpos m) (2 ^ Zpos p) Hp) as Hq2.
    set (q := Zpos m / 2 ^ Zpos p) in *.
    apply IZR_le in Hq1. apply IZR_lt in Hq2.
    rewrite mult_IZR, <- bpow_IZR in Hq1, Hq2 by lia.
    unfold Z.succ in Hq2. rewrite plus_IZR in Hq2.
    rewrite bpow_add. pose proof (bpow_pos (Zpos p)) as HB.
    destruct Hcase as [(-> & H1 & H2)|(-> & H1 & H2)].
    + rewrite bpow_add. apply IZR_le in H1, H2. rewrite plus_IZR in H2.
      apply (Rabs_factor (bpow ex)
               (IZR (Zpos mr) * bpow (Zpos p) - IZR (Zpos m)) (bpow (Zpos p)));
        [apply bpow_pos|ring|ring|].
      apply Rabs_le. split; nra.
    + replace (ex + Zpos p + 1) with (ex + (Zpos p + 1)) by lia.
      rewrite bpow_add, bpow_succ, H1. rewrite H2 in Hq1, Hq2.
      change (IZR (2 ^ 23)) with 8388608%R.
      change (IZR (2 ^ 24 - 1)) with 16777215%R in *.
      apply (Rabs_factor (bpow ex)
               (16777216 * bpow (Zpos p) - IZR (Zpos m)) (bpow (Zpos p)));
        [apply bpow_pos|ring|ring|].
      apply Rabs_le. split; nra.
  - (* fewer than 24 digits: the mantissa is shifted left *)
    assert (Zpos (Pos.iter xO m p) = Zpos m * 2 ^ Zpos p) as Hmz
      by apply pos_iter_xO.
    assert (0 < 2 ^ Zpos p) as Hp by (apply Z.pow_pos_nonneg; lia).
    assert (Zdigits2 (Zpos (Pos.iter xO m p)) = 24) as Hd24.
    { apply Zdigits2_unique; [|lia]. rewrite Hmz. change (24 - 1) with 23.
      assert (2 ^ 23 = 2 ^ (d - 1) * 2 ^ Zpos p) as ->
        by (rewrite <- Z.pow_add_r by lia; f_equal; lia).
      assert (2 ^ 24 = 2 ^ d * 2 ^ Zpos p) as ->
        by (rewrite <- Z.pow_add_r by lia; f_equal; lia).
      clear Hmz. nia. }
    destruct (binary_round_aux_spec sx (Zpos (Pos.iter xO m p)) (d + ex - 24) loc_Exact)
      as (mr & er & -> & Hmr & Hcase); try lia.
    rewrite Hd24 in Hcase. change (2 ^ (24 - 24)) with 1 in Hcase.
    rewrite Z.div_1_r, Hmz in Hcase.
    exists mr, er. split; [reflexivity|]. split; [exact Hmr|].
    split; [lia|]. unfold F2R.
    assert (bpow ex = bpow (d + ex - 24) * IZR (2 ^ Zpos p))%R as ->.
    { rewrite <- bpow_IZR, <- bpow_add by lia. f_equal. lia. }
    destruct Hcase as [(-> & H1 & H2)|(-> & H1 & H2)].
    + replace (d + ex - 24 + (24 - 24)) with (d + ex - 24) by lia.
      apply IZR_le in H1, H2. rewrite plus_IZR, mult_IZR in H2.
      rewrite mult_IZR in H1.
      apply (Rabs_factor (bpow (d + ex - 24))
               (IZR (Zpos mr) - IZR (Zpos m) * IZR (2 ^ Zpos p)) 1);
        [apply bpow_pos|ring|ring|].
      apply Rabs_le. split; lra.
    + replace (d + ex - 24 + (24 - 24) + 1) with (d + ex - 24 + 1) by lia.
      rewrite bpow_succ, H1. apply (f_equal IZR) in H2.
      rewrite mult_IZR in H2.
      change (IZR (2 ^ 23)) with 8388608%R.
      change (IZR (2 ^ 24 - 1)) with 16777215%R in H2.
      apply (Rabs_factor (bpow (d + ex - 24))
               (16777216 - IZR (Zpos m) * IZR (2 ^ Zpos p)) 1);
        [apply bpow_pos|ring|ring|].
      rewrite H2. apply Rabs_le. split; lra.
Qed.

Lemma F2R_bounds m e :
  2 ^ 23 <= Zpos m < 2 ^ 24 ->
  (8388608 * bpow e <= F2R m e < 16777216 * bpow e)%R.
Proof.
  intros [Hlo Hhi]. apply IZR_le in Hlo. apply IZR_lt in Hhi.
  change (IZR (2 ^ 23)) with 8388608%R in Hlo.
  change (IZR (2 ^ 24)) with 16777216%R in Hhi.
  unfold F2R. pose proof (bpow_pos e). split; nra.
Qed.

(** The conversion of a [size_t] to [float]. *)
Lemma of_size_spec n :
  1 <= n < 2 ^ 64 ->
  exists m e,
    Float32.of_size n = S754_finite false m e /\
    2 ^ 23 <= Zpos m < 2 ^ 24 /\ -23 <= e <= 41 /\
    (Rabs (F2R m e - IZR n) <= bpow e)%R.
Proof.
  intros [Hlo Hhi]. destruct n as [|p|p]; try lia.
  unfold Float32.of_size, binary_normalize.
  pose proof (Zdigits2_pos_bounds p) as [Hd1 Hd2].
  assert (Zpos (digits2_pos p) - 1 < 64) as Hd64
    by (apply pow2_lt_inv; lia).
  destruct (binary_round_spec false p 0) as (m & e & -> & Hm & He & Hr);
    try lia.
  exists m, e. split; [reflexivity|]. split; [exact Hm|]. split; [lia|].
  unfold F2R in Hr at 2. change (bpow 0) with 1%R in Hr.
  rewrite Rmult_1_r in Hr.
  eapply Rle_trans; [exact Hr|]. apply bpow_le. lia.
Qed.

(** The quotient of two normal numbers. *)
Lemma SFdiv_spec m1 e1 m2 e2 :
  2 ^ 23 <= Zpos m1 < 2 ^ 24 -> 2 ^ 23 <= Zpos m2 < 2 ^ 24 ->
  -23 <= e1 <= 41 -> -23 <= e2 <= 41 ->
  exists mq eq,
    SFdiv Float32.prec Float32.emax (S754_finite false m1 e1) (S754_finite false m2 e2)
      = S754_finite false mq eq /\
    2 ^ 23 <= Zpos mq < 2 ^ 24 /\ -90 <= eq <= 44 /\
    (Rabs (F2R mq eq * F2R m2 e2 - F2R m1 e1) <= 3 * bpow e1)%R.
Proof.
  intros Hm1 Hm2 He1 He2. unfold SFdiv, SFdiv_core_binary.
  cbn [xorb Zdigits2].
  rewrite (digits2_pos_unique m1 24), (digits2_pos_unique m2 24) by (cbn; lia).
  rewrite fexp_normal by lia.
  replace (Z.min (24 + e1 - (24 + e2) - 24) (e1 - e2)) with (e1 - e2 - 24) by lia.
  replace (e1 - e2 - (e1 - e2 - 24)) with 24 by lia.
  rewrite Z.shiftl_mul_pow2 by lia.
  pose proof (Z_div_mod (Zpos m1 * 2 ^ 24) (Zpos m2) ltac:(lia)) as Hdiv.
  destruct (Z.div_eucl (Zpos m1 * 2 ^ 24) (Zpos m2)) as [q r].
  destruct Hdiv as [Hq Hr].
  set (e' := e1 - e2 - 24).
  assert (2 ^ 23 <= q < 2 ^ 25) as Hqb by nia.
  assert (24 <= Zdigits2 q <= 25) as Hdq.
  { pose proof (Zdigits2_bounds q ltac:(lia)) as [Hd1 Hd2].
    pose proof (Zdigits2_pos q ltac:(lia)).
    assert (23 < Zdigits2 q) by (apply pow2_lt_inv; lia).
    assert (Zdigits2 q - 1 < 25) by (apply pow2_lt_inv; lia). lia. }
  destruct (binary_round_aux_spec false q e' (new_location (Zpos m2) r))
    as (mq & eq & -> & Hmq & Hcase); try (subst e'; lia).
  exists mq, eq. split; [reflexivity|]. split; [exact Hmq|].
  split; [destruct Hcase as [(-> & _)|(-> & _)]; subst e'; lia|].
  (* in the reals *)
  assert (0 < 2 ^ (Zdigits2 q - 24)) as Hp by (apply Z.pow_pos_nonneg; lia).
  pose proof (Z.mul_div_le q _ Hp) as Hf1.
  pose proof (Z.mul_succ_div_gt q _ Hp) as Hf2.
  set (k := Zdigits2 q - 24) in *. set (f := q / 2 ^ k) in *.
  assert (2 ^ k <= 2) as Hk2
    by (assert (k = 0 \/ k = 1) as [->| ->] by lia; cbn; lia).
  apply IZR_le in Hf1, Hk2. apply IZR_lt in Hf2.
  unfold Z.succ in Hf2. rewrite mult_IZR in Hf1, Hf2. rewrite plus_IZR in Hf2.
  rewrite <- bpow_IZR in Hf1, Hf2, Hk2 by lia.
  apply (f_equal IZR) in Hq. rewrite plus_IZR, !mult_IZR in Hq.
  change (IZR (2 ^ 24)) with 16777216%R in Hq.
  destruct Hr as [Hr1 Hr2]. apply IZR_le in Hr1. apply IZR_lt in Hr2.
  pose proof (F2R_bounds m2 e2 Hm2) as HY. unfold F2R in *.
  assert (bpow e1 = 16777216 * bpow e' * bpow e2)%R as He1R.
  { assert (bpow 24 = 16777216%R) as <-
      by (rewrite bpow_IZR by lia; reflexivity).
    subst e'. rewrite <- !bpow_add. f_equal. lia. }
  pose proof (bpow_pos e') as Hbe'. pose proof (bpow_pos e2) as Hbe2.
  pose proof (bpow_pos k) as Hbk.
  set (M1 := IZR (Zpos m1)) in *. set (M2 := IZR (Zpos m2)) in *.
  set (Q := IZR q) in *. set (R0 := IZR r) in *. set (F := IZR f) in *.
  set (B' := bpow e') in *. set (B2 := bpow e2) in *. set (BK := bpow k) in *.
  assert (Rabs (IZR (Zpos mq) * bpow eq - Q * B') <= 2 * B')%R as HV.
  { destruct Hcase as [(-> & H1 & H2)|(-> & H1 & H2)].
    - apply IZR_le in H1, H2. rewrite plus_IZR in H2. rewrite bpow_add.
      fold B' BK. fold F in H1, H2.
      apply (Rabs_factor B' (IZR (Zpos mq) * BK - Q) 2);
        [assumption|ring|ring|].
      assert (0 <= (IZR (Zpos mq) - F) * BK)%R
        by (apply Rmult_le_pos; lra).
      assert (0 <= (F + 1 - IZR (Zpos mq)) * BK)%R
        by (apply Rmult_le_pos; lra).
      apply Rabs_le. split; lra.
    - replace (e' + k + 1) with (e' + (k + 1)) by lia.
      rewrite bpow_add, bpow_succ, H1. apply (f_equal IZR) in H2.
      change (IZR (2 ^ 23)) with 8388608%R.
      change (IZR (2 ^ 24 - 1)) with 16777215%R in H2.
      fold B' BK. fold F in H2.
      apply (Rabs_factor B' (16777216 * BK - Q) 2);
        [assumption|ring|ring|].
      rewrite H2 in Hf1, Hf2. apply Rabs_le. split; lra. }
  rewrite He1R.
  assert (M1 * (16777216 * B' * B2) = (M2 * Q + R0) * B' * B2)%R as ->
    by (rewrite <- Hq; ring).
  replace (IZR (Zpos mq) * bpow eq * (M2 * B2) - (M2 * Q + R0) * B' * B2)%R
    with (((IZR (Zpos mq) * bpow eq - Q * B') * M2 - R0 * B') * B2)%R
    by ring.
  apply (Rabs_factor B2 ((IZR (Zpos mq) * bpow eq - Q * B') * M2 - R0 * B')
           (3 * 16777216 * B')); [assumption|ring|ring|].
  apply Rabs_bounds in HV. destruct HV as [HV1 HV2].
  assert (8388608 <= M2 < 16777216)%R as HM2.
  { destruct Hm2 as [Ha Hb]. apply IZR_le in Ha. apply IZR_lt in Hb.
    exact (conj Ha Hb). }
  apply Rabs_le. split; nra.
Qed.

Lemma bpow_neg k : 0 <= k -> (bpow (- k) * IZR (2 ^ k) = 1)%R.
Proof.
  intros Hk. rewrite <- bpow_IZR, <- bpow_add by lia.
  replace (- k + k) with 0 by lia. reflexivity.
Qed.

Lemma shl_align_fst m ex ex' :
  ex' <= ex -> Zpos (fst (shl_align m ex ex')) = Zpos m * 2 ^ (ex - ex').
Proof.
  intros H. unfold shl_align. destruct (ex' - ex) as [|p|p] eqn:Hd; try lia.
  - replace (ex - ex') with 0 by lia. cbn [fst]. lia.
  - cbn [fst]. rewrite pos_iter_xO. f_equal. f_equal. lia.
Qed.

(** ** The load-factor test in single precision *)

(** A negative difference is not above [FLT_EPSILON]. *)
Lemma SFltb_EPSILON_negative m e :
  SFltb Float32.FLT_EPSILON (binary_round Float32.prec Float32.emax true m e) = false.
Proof.
  unfold binary_round, binary_round_aux.
  destruct (shl_align m e _) as [mz ez].
  destruct (shr_fexp Float32.prec Float32.emax (Zpos mz) ez loc_Exact) as [mrs1 e1].
  destruct (shr_fexp Float32.prec Float32.emax _ e1 loc_Exact) as [mrs2 e2].
  destruct (shr_m mrs2); [reflexivity| |reflexivity].
  destruct (e2 <=? Float32.emax - Float32.prec); reflexivity.
Qed.

Lemma bpow_m23 : bpow (-23) = (1 / 8388608)%R.
Proof.
  pose proof (bpow_neg 23 ltac:(lia)) as H.
  change (IZR (2 ^ 23)) with 8388608%R in H. change (- (23)) with (-23) in H.
  lra.
Qed.

Lemma bpow_m24 : bpow (-24) = (1 / 16777216)%R.
Proof.
  pose proof (bpow_neg 24 ltac:(lia)) as H.
  change (IZR (2 ^ 24)) with 16777216%R in H. change (- (24)) with (-24) in H.
  lra.
Qed.

Lemma bpow_m25 : bpow (-25) = (1 / 33554432)%R.
Proof.
  pose proof (bpow_neg 25 ltac:(lia)) as H.
  change (IZR (2 ^ 25)) with 33554432%R in H. change (- (25)) with (-25) in H.
  lra.
Qed.

(** The test on a quotient that is at most 0.7000001. *)
Lemma load_test_false mq eq :
  2 ^ 23 <= Zpos mq < 2 ^ 24 -> -90 <= eq <= 44 ->
  (F2R mq eq <= 7000001 / 10000000)%R ->
  Float32.gt (Float32.sub (S754_finite false mq eq) Float32.LOAD_FACTOR)
             Float32.FLT_EPSILON
    = false.
Proof.
  intros Hmq Heq Hv. unfold Float32.gt, Float32.sub.
  rewrite LOAD_FACTOR_bits.
  pose proof (F2R_bounds mq eq Hmq) as [Hlo _].
  assert (eq <= -24) as Hsmall.
  { destruct (Z_le_gt_dec eq (-24)) as [|Hbig]; [assumption|exfalso].
    pose proof (bpow_le (-23) eq ltac:(lia)) as Hle.
    rewrite bpow_m23 in Hle. lra. }
  unfold SFsub. cbn [cond_Zopp].
  replace (Z.min eq (-24)) with eq by lia.
  rewrite !shl_align_fst by lia.
  replace (eq - eq) with 0 by lia. change (2 ^ 0) with 1.
  destruct (Z.eq_dec eq (-24)) as [->|Hne].
  - (* the quotient is in the binade of 0.7 *)
    change (2 ^ (-24 - -24)) with 1.
    assert (Zpos mq < 11744053) as Hmq'.
    { apply lt_IZR. unfold F2R in Hv. rewrite bpow_m24 in Hv. lra. }
    destruct (Zpos mq * 1 - 11744051 * 1) as [|p|p] eqn:Hdiff.
    + reflexivity.
    + assert (p = 1%positive) as -> by lia. reflexivity.
    + cbn [binary_normalize]. apply SFltb_EPSILON_negative.
  - (* the quotient is below 0.5 *)
    assert (2 <= 2 ^ (-24 - eq)) as Hp.
    { change 2 with (2 ^ 1) at 1. apply Z.pow_le_mono_r; lia. }
    destruct (Zpos mq * 1 - 11744051 * 2 ^ (-24 - eq)) as [|p|p] eqn:Hdiff;
      try (cbn in Hmq; nia).
    cbn [binary_normalize]. apply SFltb_EPSILON_negative.
Qed.

(** The test on a quotient that is at least 0.7000004. *)
Lemma load_test_true mq eq :
  2 ^ 23 <= Zpos mq < 2 ^ 24 -> -90 <= eq <= 44 ->
  (7000004 / 10000000 <= F2R mq eq)%R ->
  Float32.gt (Float32.sub (S754_finite false mq eq) Float32.LOAD_FACTOR)
             Float32.FLT_EPSILON
    = true.
Proof.
  intros Hmq Heq Hv. unfold Float32.gt, Float32.sub.
  rewrite LOAD_FACTOR_bits.
  assert (-24 <= eq) as Hbig.
  { destruct (Z_le_gt_dec (-24) eq) as [|Hsmall]; [assumption|exfalso].
    pose proof (F2R_bounds mq eq Hmq) as [_ Hhi].
    pose proof (bpow_le eq (-25) ltac:(lia)) as Hle.
    rewrite bpow_m25 in Hle. lra. }
  unfold SFsub. cbn [cond_Zopp].
  replace (Z.min eq (-24)) with (-24) by lia.
  rewrite !shl_align_fst by lia.
  replace (-24 - -24) with 0 by lia. change (2 ^ 0) with 1.
  replace (eq - -24) with (eq + 24) by lia.
  set (a := Zpos mq * 2 ^ (eq + 24)).
  assert (IZR a = F2R mq eq * 16777216)%R as Ha.
  { subst a. rewrite mult_IZR, <- bpow_IZR, bpow_add by lia.
    assert (bpow 24 = 16777216%R) as ->
      by (rewrite bpow_IZR by lia; reflexivity).
    unfold F2R. ring. }
  assert (11744057 < a) as Halo by (apply lt_IZR; lra).
  assert (a < 2 ^ 92) as Hahi.
  { subst a. assert (2 ^ (eq + 24) <= 2 ^ 68) by (apply Z.pow_le_mono_r; lia).
    change (2 ^ 92) with (2 ^ 24 * 2 ^ 68).
    assert (0 < 2 ^ (eq + 24)) by (apply Z.pow_pos_nonneg; lia). nia. }
  destruct (a - 11744051 * 1) as [|p|p] eqn:Hdiff; try lia.
  cbn [binary_normalize].
  pose proof (Zdigits2_pos_bounds p) as [Hd1 Hd2].
  assert (2 < Zpos (digits2_pos p)) by (apply pow2_lt_inv; lia).
  assert (Zpos (digits2_pos p) - 1 < 92) by (apply pow2_lt_inv; lia).
  destruct (binary_round_spec false p (-24)) as (mr & er & -> & _ & Her & _);
    try lia.
  unfold SFltb, SFcompare, Float32.FLT_EPSILON.
  assert (-46 < er) as Hlt by lia.
  apply Z.compare_lt_iff in Hlt. now rewrite Hlt.
Qed.

(** The quotient [(float) n / (float) c] is within 6 parts in [2^23] of
    [n / c]. *)
Lemma quotient_spec n c :
  1 <= n < 2 ^ 64 -> 1 <= c < 2 ^ 64 ->
  exists mq eq,
    Float32.div (Float32.of_size n) (Float32.of_size c)
      = S754_finite false mq eq /\
    2 ^ 23 <= Zpos mq < 2 ^ 24 /\ -90 <= eq <= 44 /\
    (8388602 * IZR n <= F2R mq eq * (8388608 * IZR c) /\
     F2R mq eq * (8388608 * IZR c) <= 8388614 * IZR n)%R.
Proof.
  intros Hn Hc. unfold Float32.div.
  destruct (of_size_spec n Hn) as (m1 & e1 & -> & Hm1 & He1 & HX).
  destruct (of_size_spec c Hc) as (m2 & e2 & -> & Hm2 & He2 & HY).
  destruct (SFdiv_spec m1 e1 m2 e2 Hm1 Hm2 He1 He2)
    as (mq & eq & -> & Hmq & Heq & HV).
  exists mq, eq. split; [reflexivity|]. split; [exact Hmq|].
  split; [exact Heq|].
  pose proof (F2R_bounds m1 e1 Hm1) as [HX1 _].
  pose proof (F2R_bounds m2 e2 Hm2) as [HY1 _].
  pose proof (F2R_bounds mq eq Hmq) as [HV1 _].
  pose proof (bpow_pos e1). pose proof (bpow_pos e2). pose proof (bpow_pos eq).
  apply Rabs_bounds in HX, HY, HV.
  set (X := F2R m1 e1) in *. set (Y := F2R m2 e2) in *.
  set (V := F2R mq eq) in *.
  assert (0 < V)%R by lra.
  assert (0 <= V * (8388608 * IZR c - 8388607 * Y))%R
    by (apply Rmult_le_pos; lra).
  assert (0 <= V * (8388609 * Y - 8388608 * IZR c))%R
    by (apply Rmult_le_pos; lra).
  split; lra.
Qed.


(** The test fires when [(nb + 1) / c >= 0.700001]. *)
Lemma loadExceeded_above nb c :
  1 <= size_wrap (nb + 1) -> 1 <= c < 2 ^ 64 ->
  700001 * c <= 1000000 * size_wrap (nb + 1) ->
  loadExceeded nb c = true.
Proof.
  intros Hn Hc Hratio. pose proof (size_wrap_range (nb + 1)) as Hw.
  unfold loadExceeded. cbv zeta.
  set (n := size_wrap (nb + 1)) in *.
  destruct (quotient_spec n c) as (mq & eq & -> & Hmq & Heq & Hlo & _);
    [lia..|].
  apply load_test_true; try assumption.
  apply IZR_le in Hratio. rewrite !mult_IZR in Hratio.
  assert (1 <= IZR c)%R by (apply IZR_le; lia).
  destruct (Rle_lt_dec (7000004 / 10000000) (F2R mq eq)) as [|Hlt];
    [assumption|exfalso].
  assert (0 <= (7000004 / 10000000 - F2R mq eq) * (8388608 * IZR c))%R
    by (apply Rmult_le_pos; lra).
  lra.
Qed.

(** The test does not fire when [(nb + 1) / c <= 0.6999995]. *)
Lemma loadExceeded_below nb c :
  1 <= size_wrap (nb + 1) -> 1 <= c < 2 ^ 64 ->
  2000000 * size_wrap (nb + 1) <= 1399999 * c ->
  loadExceeded nb c = false.
Proof.
  intros Hn Hc Hratio. pose proof (size_wrap_range (nb + 1)) as Hw.
  unfold loadExceeded. cbv zeta.
  set (n := size_wrap (nb + 1)) in *.
  destruct (quotient_spec n c) as (mq & eq & -> & Hmq & Heq & _ & Hhi);
    [lia..|].
  apply load_test_false; try assumption.
  apply IZR_le in Hratio. rewrite !mult_IZR in Hratio.
  assert (1 <= IZR c)%R by (apply IZR_le; lia).
  assert (1 <= IZR n)%R by (apply IZR_le; lia).
  destruct (Rle_lt_dec (F2R mq eq) (7000001 / 10000000)) as [|Hgt];
    [assumption|exfalso].
  assert (0 <= (F2R mq eq - 7000001 / 10000000) * (8388608 * IZR c))%R
    by (apply Rmult_le_pos; lra).
  lra.
Qed.

(** ** The load-factor test on small tables *)

Lemma loadTestExact_130 : loadTestExactUpTo 130 = true.
Proof. vm_compute. reflexivity. Qed.

Lemma forallb_seq_lt (f : nat → bool) n i :
  forallb f (seq 0 n) = true → (i < n)%nat → f i = true.
Proof.
  intros H Hi. rewrite forallb_forall in H. apply H, in_seq. lia.
Qed.

Lemma loadTestExactUpTo_at bound c n :
  loadTestExactUpTo bound = true → (c < bound)%nat → (n < bound)%nat →
  loadTestExactAt c n = true.
Proof.
  unfold loadTestExactUpTo. intros H Hc Hn.
  apply (forallb_seq_lt _ bound); [|done].
  by apply (forallb_seq_lt
              (λ c, forallb (loadTestExactAt c) (seq 0 bound)) bound).
Qed.

(** Up to 130 elements and buckets the test is exact: the table is resized
    when, and only when, [(n + 1) / c > 0.7]. *)
Lemma loadExceeded_exact n c :
  0 <= n < 130 → 0 < c <= 130 →
  loadExceeded n c = (7 * c <? 10 * (n + 1)).
Proof.
  intros Hn Hc.
  pose proof (loadTestExactUpTo_at 130 (Z.to_nat (c - 1)) (Z.to_nat n)
                loadTestExact_130) as H.
  unfold loadTestExactAt in H. apply eqb_prop in H; [|lia..].
  replace (Z.of_nat (S (Z.to_nat (c - 1)))) with c in H by lia.
  by replace (Z.of_nat (Z.to_nat n)) with n in H by lia.
Qed.

Lemma wf_capacity_pos t e : wf t → e ∈ entries t → 0 < capacity t.
Proof.
  intros Hwf (i & l & Hi%lookup_lt_Some & _)%elem_of_entries.
  destruct Hwf as [(_ & _ & Hlen) _ _ _]. lia.
Qed.

(** ** Tables built by insertions: the load factor *)

(** On a table built by insertions the load factor is at most 0.700001. *)
Lemma built_load t es :
  built t es → 1000000 * Z.of_nat (length es) <= 700001 * capacity t.
Proof.
  induction 1 as [capacity h c a t a' Hcap Hcreate
                 |t es k v a r t' a' Hbuilt IH Hfresh Hins Hr].
  - apply createHashTable_Some in Hcreate as (a1 & newArray & _ & _ & ->).
    cbn. lia.
  - destruct (built_wf _ _ Hbuilt) as (Hwf & Hcnt & Hperm).
    assert (built t' (es ++ [mkElement k v])) as Hbuilt'
      by (by eapply built_insert).
    destruct (built_wf _ _ Hbuilt') as (Hwf' & _ & Hperm').
    assert (0 < capacity t') as Hpos'.
    { apply (wf_capacity_pos t' (mkElement k v)); [done|].
      rewrite Hperm', elem_of_app, list_elem_of_singleton. by right. }
    destruct (insertElement_extends _ _ _ _ _ _ _ Hins Hr) as [Hext Hsame].
    destruct (ext_capacity _ _ _ _ Hext (wf_shape _ Hwf)) as (d & Hd & Hcap').
    destruct (wf_shape _ Hwf) as (Hc0 & Hc8 & _).
    unfold sizeof_ElementsArray, SIZE_MAX in Hc8.
    assert (0 <= d) as Hd0 by (destruct (loadExceeded _ _); lia).
    pose proof (pow2_ge_1 d Hd0) as Hp1.
    assert (0 < capacity t) as Hpos by nia.
    rewrite length_app. cbn [length].
    destruct (loadExceeded _ _) eqn:Hload.
    + pose proof (pow2_ge_2 d Hd). nia.
    + specialize (Hsame eq_refl). rewrite Hsame.
      rewrite Hcnt, Hperm, size_wrap_small in Hload by lia.
      destruct (Z_le_gt_dec (700001 * capacity t)
                  (1000000 * (Z.of_nat (length es) + 1))) as [Hle|]; [|lia].
      rewrite loadExceeded_above in Hload; [done|..];
        rewrite ?size_wrap_small; lia.
Qed.

(** Its elements are counted by [nbElements], without wrap-around. *)
Lemma built_nbElements t es :
  built t es → nbElements t = Z.of_nat (length es).
Proof.
  intros Hbuilt. destruct (built_wf _ _ Hbuilt) as (Hwf & Hcnt & Hperm).
  pose proof (built_load _ _ Hbuilt).
  destruct (wf_shape _ Hwf) as (Hc0 & Hc8 & _).
  unfold sizeof_ElementsArray, SIZE_MAX in Hc8.
  rewrite Hcnt, Hperm. apply size_wrap_small. lia.
Qed.

(** Hence a doubling is not followed by another one. *)
Lemma built_quiet t es : built t es → quietResize t.
Proof.
  intros Hbuilt j Hj.
  destruct (built_wf _ _ Hbuilt) as (Hwf & _ & Hperm).
  pose proof (built_load _ _ Hbuilt) as Hle. rewrite <- Hperm in Hle.
  destruct (wf_shape _ Hwf) as (Hc0 & Hc8 & _).
  unfold sizeof_ElementsArray, SIZE_MAX in Hc8.
  rewrite size_wrap_small by lia.
  apply loadExceeded_below; rewrite ?size_wrap_small; lia.
Qed.

(** An insertion of a fresh key that does not resize and is granted its
    memory succeeds. *)
Lemma insertElement_quiet t k v a a' :
  wf t → 0 < capacity t → k ≠ NULL → v ≠ NULL →
  fresh (compareFunction t) (entries t) k →
  loadExceeded (nbElements t) (capacity t) = false →
  malloc a = (true, a') →
  ∃ t', insertElement t k v a = Ret (INSERTED, t', a').
Proof.
  intros Hwf Hpos Hk Hv Hfresh Hload Hmalloc.
  rewrite insertElement_unfold. unfold insertBody, resizeStep.
  destruct (Z.eqb_spec k NULL) as [|_]; [done|].
  destruct (Z.eqb_spec v NULL) as [|_]; [done|].
  rewrite Hload. cbn [orb mbind outcome_bind Z.eqb]. unfold insertAtIndex.
  rewrite bucketIndex_mod by done. cbn [mbind outcome_bind].
  destruct (wf_shape _ Hwf) as (_ & _ & Hlen).
  pose proof (Z.mod_pos_bound (size_wrap (hashFunction t k)) (capacity t) Hpos)
    as Hindex.
  destruct (lookup_lt_is_Some_2 (elementsArray t)
              (Z.to_nat (size_wrap (hashFunction t k) mod capacity t)))
    as [l Hl]; [lia|].
  apply bucket_Ret in Hl as Hbucket. rewrite Hbucket.
  cbn [mbind outcome_bind].
  rewrite replaceInChain_None, Hmalloc; [eauto|].
  intros e He. apply Hfresh, elem_of_entries. eauto.
Qed.

(** ** Growth keeps the elements *)

(** C4, as the code has it: on a table built by successful insertions of
    distinct keys, every inserted key is contained, the elements of the
    table are the inserted ones, each once, and [nbElements] is their
    number. A further successful insertion of a distinct key returns
    [(void* )-1]; the capacity is doubled, once, when the load-factor test
    of [insertElement] fires and stays when it does not. The test is the
    single-precision one of the source: it fires when
    [(count + 1) / capacity] is at least 0.700001, it does not fire when
    the quotient is at most 0.6999995, and up to 130 buckets it is the
    exact comparison of the quotient with 0.7. Afterwards the elements
    are the former ones and the new one, and every key inserted so far is
    contained. With capacity 4 and [h(k) = k], inserting the keys 0, 1, 2
    leaves capacity 4 after the second insertion and 8 after the third,
    and the three keys are contained. *)
Theorem insertElement_resize_keeps_entries :
  (∀ t es,
     built t es → (∀ k, compareFunction t k k = 0) →
     entries t ≡ₚ es ∧
     nbElements t = Z.of_nat (length es) ∧
     (∀ e, e ∈ es → hasKey t (key e) = Ret true) ∧
     ∀ k v a r t' a',
       fresh (compareFunction t) es k →
       insertElement t k v a = Ret (r, t', a') → r ≠ NULL →
       r = INSERTED ∧
       capacity t' =
         (if loadExceeded (nbElements t) (capacity t)
          then 2 * capacity t else capacity t) ∧
       (700001 * capacity t <= 1000000 * (Z.of_nat (length es) + 1) →
        capacity t' = 2 * capacity t) ∧
       (2000000 * (Z.of_nat (length es) + 1) <= 1399999 * capacity t →
        capacity t' = capacity t) ∧
       (capacity t <= 130 →
        capacity t' =
          if 7 * capacity t <? 10 * (Z.of_nat (length es) + 1)
          then 2 * capacity t else capacity t) ∧
       entries t' ≡ₚ es ++ [mkElement k v] ∧
       (∀ e, e ∈ es ++ [mkElement k v] → hasKey t' (key e) = Ret true)) ∧
  (∃ t0 t2 t3,
     createHashTable 4 (Some Harness.hashInt) (Some Harness.compareInt) []
       = (Some t0, []) ∧
     Harness.insertAll t0
       [(Harness.keyPtr 0, Harness.valPtr 0);
        (Harness.keyPtr 1, Harness.valPtr 1)] []
       = Ret ([INSERTED; INSERTED], t2, []) ∧
     capacity t2 = 4 ∧
     insertElement t2 (Harness.keyPtr 2) (Harness.valPtr 2) []
       = Ret (INSERTED, t3, []) ∧
     capacity t3 = 8 ∧
     hasKey t3 (Harness.keyPtr 0) = Ret true ∧
     hasKey t3 (Harness.keyPtr 1) = Ret true ∧
     hasKey t3 (Harness.keyPtr 2) = Ret true ∧
     entries t3 =
       [mkElement (Harness.keyPtr 0) (Harness.valPtr 0);
        mkElement (Harness.keyPtr 1) (Harness.valPtr 1);
        mkElement (Harness.keyPtr 2) (Harness.valPtr 2)]).
Proof.
  split.
  - intros t es Hbuilt Hrefl.
    destruct (built_wf _ _ Hbuilt) as (Hwf & Hcnt & Hperm).
    pose proof (built_nbElements _ _ Hbuilt) as Hnb.
    split; [done|]. split; [done|]. split.
    { intros e He. apply hasKey_entry; [done..|]. by rewrite Hperm. }
    intros k v a r t' a' Hfresh Hins Hr.
    assert (fresh (compareFunction t) (entries t) k) as Hfresh'.
    { intros x Hx. apply Hfresh. by rewrite <- Hperm. }
    destruct (insertElement_fresh _ _ _ _ _ _ _ Hwf Hfresh' Hins Hr)
      as [-> Hwf' Hent _ Hquiet].
    destruct (insertElement_extends _ _ _ _ _ _ _ Hins Hr) as [Hext Hsame].
    pose proof (built_quiet _ _ Hbuilt) as Hq.
    pose proof (built_load _ _ Hbuilt) as Hle.
    destruct (wf_shape _ Hwf) as (Hc0 & Hc8 & _).
    unfold sizeof_ElementsArray, SIZE_MAX in Hc8.
    assert (0 < capacity t) as Hpos.
    { destruct (ext_capacity _ _ _ _ Hext (wf_shape _ Hwf)) as (d & _ & Hd).
      assert (0 < capacity t'); [|nia].
      apply (wf_capacity_pos t' (mkElement k v)); [done|].
      rewrite Hent, elem_of_app, list_elem_of_singleton. by right. }
    assert (capacity t' =
              if loadExceeded (nbElements t) (capacity t)
              then 2 * capacity t else capacity t) as Hcap.
    { destruct (loadExceeded _ _) eqn:Hload; auto. }
    split; [done|]. split; [done|]. split; [|split; [|split; [|split]]].
    + intros Hratio. rewrite Hcap, Hnb, loadExceeded_above; [done|..];
        rewrite ?size_wrap_small; lia.
    + intros Hratio. rewrite Hcap, Hnb, loadExceeded_below; [done|..];
        rewrite ?size_wrap_small; lia.
    + intros Hsmall. rewrite Hcap, Hnb. by rewrite loadExceeded_exact by lia.
    + by rewrite Hent, Hperm.
    + intros e He. apply hasKey_entry; [done| |by rewrite Hent, Hperm].
      destruct Hext as [_ _ -> _ _]. apply Hrefl.
  - eexists _, _, _. repeat split; reflexivity.
Qed.

(** * Further properties *)

(** ** Creation *)

Lemma hasKey_empty cap h c k :
  0 < cap →
  hasKey (mkHashTable cap (replicate (Z.to_nat cap) []) 0 h c) k
    = Ret false.
Proof.
  intros Hpos. unfold hasKey. destruct (k =? NULL); [done|].
  rewrite bucketIndex_mod by done. cbn [mbind outcome_bind].
  unfold bucket. cbn [elementsArray capacity hashFunction].
  pose proof (Z.mod_pos_bound (size_wrap (h k)) cap Hpos).
  rewrite lookup_replicate_2 by lia. done.
Qed.

Lemma removeElement_empty cap h c k :
  0 < cap →
  let t := mkHashTable cap (replicate (Z.to_nat cap) []) 0 h c in
  removeElement t k = Ret (NULL, t).
Proof.
  intros Hpos t. unfold removeElement. destruct (k =? NULL); [done|].
  rewrite bucketIndex_mod by done. cbn [mbind outcome_bind].
  unfold bucket. cbn [elementsArray capacity hashFunction t].
  pose proof (Z.mod_pos_bound (size_wrap (h k)) cap Hpos).
  rewrite lookup_replicate_2 by lia. done.
Qed.

(** X1: [createHashTable] returns a table exactly when both callbacks are
    given, both allocations are granted and the bucket array fits a
    [size_t]; without a callback nothing is allocated. The table has
    [capacity] empty buckets and no element: the count is 0, no key is
    contained and every removal returns [NULL]. *)
Theorem createHashTable_empty cap hashFunction compareFunction a r a' :
  0 <= cap →
  createHashTable cap hashFunction compareFunction a = (r, a') →
  ((hashFunction = None ∨ compareFunction = None) → r = None ∧ a' = a) ∧
  (∀ t, r = Some t →
     ∃ h c a1,
       hashFunction = Some h ∧ compareFunction = Some c ∧
       malloc a = (true, a1) ∧ malloc a1 = (true, a') ∧
       cap * sizeof_ElementsArray <= SIZE_MAX ∧
       t = mkHashTable cap (replicate (Z.to_nat cap) []) 0 h c ∧
       shape t ∧ entries t = [] ∧ getNumElements t = 0 ∧
       (0 < cap →
        ∀ k, hasKey t k = Ret false ∧ removeElement t k = Ret (NULL, t))) ∧
  (r = None →
     hashFunction = None ∨ compareFunction = None ∨
     malloc a = (false, a') ∨
     (∃ a1 granted, malloc a = (true, a1) ∧ malloc a1 = (granted, a') ∧
        (granted = false ∨ SIZE_MAX < cap * sizeof_ElementsArray))).
Proof.
  intros Hcap. unfold createHashTable.
  destruct hashFunction as [h|], compareFunction as [c|];
    try (intros [= <- <-]; split; [done|]; split; [done|]; intros _; auto).
  destruct (malloc a) as [[] a1] eqn:Hm; cycle 1.
  { intros [= <- <-]. split; [by intros [|]|]. split; [done|]. auto. }
  destruct (calloc cap a1) as [[newArray|] a2] eqn:Hc.
  - intros [= <- <-]. split; [by intros [|]|]. split; [|done].
    intros t [= <-].
    destruct (wf_empty _ _ _ _ h c Hcap Hc) as (Hwf & _ & Hnil).
    apply calloc_Some in Hc as (-> & Hfit & Hm2).
    exists h, c, a1. repeat (split; [done|]). split; [apply Hwf|].
    split; [done|]. split; [done|]. intros Hpos k.
    split; [by apply hasKey_empty|by apply removeElement_empty].
  - intros [= <- <-]. split; [by intros [|]|]. split; [done|]. intros _.
    right. right. right. unfold calloc in Hc.
    destruct (malloc a1) as [granted a3] eqn:Hm2.
    exists a1, granted. split; [done|].
    destruct granted; cbn [andb] in Hc.
    + destruct (Z.leb_spec (cap * sizeof_ElementsArray) SIZE_MAX);
        [done|]. injection Hc as <-. split; [done|]. right. lia.
    + injection Hc as <-. auto.
Qed.

(** ** Search, replacement and removal in a chain *)

Lemma chainHasKey_true cmp k l :
  chainHasKey cmp k l = true ↔ ∃ e, e ∈ l ∧ cmp (key e) k = 0.
Proof.
  induction l as [|x l IH]; cbn [chainHasKey].
  - split; [done|]. by intros (e & ?%elem_of_nil & _).
  - destruct (Z.eqb_spec (cmp (key x) k) 0) as [Hx|Hx].
    + split; [|done]. intros _. exists x. split; [by left|done].
    + rewrite IH. split.
      * intros (e & He & Hk). exists e. split; [by right|done].
      * intros (e & [->|He]%elem_of_cons & Hk); [done|eauto].
Qed.

Lemma chainHasKey_false cmp k l :
  chainHasKey cmp k l = false ↔ ∀ e, e ∈ l → cmp (key e) k ≠ 0.
Proof.
  rewrite <- not_true_iff_false, chainHasKey_true. split.
  - intros Hno e He Hk. apply Hno. eauto.
  - intros Hall (e & He & Hk). by eapply Hall.
Qed.

Lemma replaceInChain_Some cmp k v l old l' :
  replaceInChain cmp k v l = Some (old, l') →
  ∃ l1 e e' l2,
    l = l1 ++ e :: e' :: l2 ∧ (∀ x, x ∈ l1 → cmp (key x) k ≠ 0) ∧
    cmp (key e) k = 0 ∧ old = value e ∧
    l' = l1 ++ mkElement (key e) v :: e' :: l2.
Proof.
  revert old l'. induction l as [|x next IH]; intros old l'; [done|].
  cbn [replaceInChain]. destruct next as [|y next']; [done|].
  destruct (Z.eqb_spec (cmp (key x) k) 0) as [Hx|Hx].
  - intros [= <- <-]. exists [], x, y, next'.
    split; [done|]. split; [by intros ? ?%elem_of_nil|done].
  - destruct (replaceInChain cmp k v (y :: next')) as [[old0 l0]|] eqn:Hrec;
      [|done].
    intros [= <- <-].
    destruct (IH _ _ eq_refl) as (l1 & e & e' & l2 & Hl & Hl1 & He & -> & ->).
    exists (x :: l1), e, e', l2. rewrite Hl.
    split; [done|]. split; [|done].
    intros z [->|Hz]%elem_of_cons; [done|by apply Hl1].
Qed.

Lemma removeFromChain_Some cmp k l r l' :
  removeFromChain cmp k l = Some (r, l') →
  ∃ l1 e l2,
    l = l1 ++ e :: l2 ∧ (∀ x, x ∈ l1 → cmp (key x) k ≠ 0) ∧
    cmp (key e) k = 0 ∧ r = value e ∧ l' = l1 ++ l2.
Proof.
  revert r l'. induction l as [|x next IH]; intros r l'; [done|].
  cbn [removeFromChain].
  destruct (Z.eqb_spec (cmp (key x) k) 0) as [Hx|Hx].
  - intros [= <- <-]. exists [], x, next.
    split; [done|]. split; [by intros ? ?%elem_of_nil|done].
  - destruct (removeFromChain cmp k next) as [[r0 l0]|] eqn:Hrec; [|done].
    intros [= <- <-].
    destruct (IH _ _ eq_refl) as (l1 & e & l2 & Hl & Hl1 & He & -> & ->).
    exists (x :: l1), e, l2. rewrite Hl.
    split; [done|]. split; [|done].
    intros z [->|Hz]%elem_of_cons; [done|by apply Hl1].
Qed.

Lemma removeFromChain_hasKey cmp k l :
  chainHasKey cmp k l = true → ∃ r l', removeFromChain cmp k l = Some (r, l').
Proof.
  induction l as [|x l IH]; [done|]. cbn [chainHasKey removeFromChain].
  destruct (cmp (key x) k =? 0); [eauto|].
  intros (r & l' & ->)%IH. eauto.
Qed.

Lemma bucketIndex_updateTable t index l n k :
  bucketIndex (updateTable t index l n) k = bucketIndex t k.
Proof. done. Qed.

Lemma bucket_updateTable t index l l' n :
  bucket t index = Ret l → bucket (updateTable t index l' n) index = Ret l'.
Proof.
  intros Hl%bucket_Ret. apply bucket_Ret. cbn [updateTable elementsArray].
  apply list_lookup_insert_eq. by eapply lookup_lt_Some.
Qed.

(** ** Insertion and lookup *)

(** X2: after an insertion that does not return [NULL] the key is
    contained, on every table, whether the value was replaced or a new
    element appended, resized or not (the comparison function being
    reflexive on the key). *)
Theorem hasKey_after_insertElement t k v a r t' a' :
  compareFunction t k k = 0 →
  insertElement t k v a = Ret (r, t', a') → r ≠ NULL →
  hasKey t' k = Ret true.
Proof.
  intros Hrefl. rewrite insertElement_unfold. unfold insertBody.
  destruct (Z.eqb_spec k NULL) as [|Hk]; [by intros [= <- <- <-]|].
  destruct (v =? NULL); [by intros [= <- <- <-]|]. cbn [orb].
  destruct (resizeStep reHashTable t a) as [[[rc t1] a1]| |] eqn:Hre;
    cbn [mbind outcome_bind]; [|done..].
  destruct (Z.eqb_spec rc 0) as [->|_]; [|by intros [= <- <- <-]].
  apply resizeStep_extends in Hre as [_ _ Hcmp _ _]. rewrite <- Hcmp in Hrefl.
  unfold insertAtIndex.
  destruct (bucketIndex t1 k) as [index| |] eqn:Hi;
    cbn [mbind outcome_bind]; [|done..].
  destruct (bucket t1 index) as [l| |] eqn:Hl; cbn [mbind outcome_bind]; [|done..].
  assert (∀ l' n, chainHasKey (compareFunction t1) k l' = true →
                  hasKey (updateTable t1 index l' n) k = Ret true) as Hfound.
  { intros l' n Hl'. unfold hasKey. destruct (Z.eqb_spec k NULL); [done|].
    rewrite bucketIndex_updateTable, Hi. cbn [mbind outcome_bind].
    rewrite (bucket_updateTable _ _ l) by done. cbn [mbind outcome_bind].
    by rewrite <- Hl'. }
  destruct (replaceInChain _ k v l) as [[old l']|] eqn:Hrep.
  - intros [= <- <- <-] _. apply Hfound, chainHasKey_true.
    apply replaceInChain_Some in Hrep
      as (l1 & e & e' & l2 & _ & _ & He & _ & ->).
    exists (mkElement (key e) v). split; [|done].
    rewrite elem_of_app. right. by left.
  - destruct (malloc a1) as [[] a2]; [|by intros [= <- <- <-]].
    intros [= <- <- <-] _. apply Hfound, chainHasKey_true.
    exists (mkElement k v). split; [|done].
    rewrite elem_of_app, list_elem_of_singleton. by right.
Qed.

(** X4: the search of [insertElement] stops before the last element of
    the chain: when no element before the last one has an equivalent key,
    a new element is appended and [(void* )-1] returned, also when the
    last element has an equivalent key, which is then stored twice. *)
Theorem insertElement_ignores_last t k v a t1 a1 index l1 e a2 :
  k ≠ NULL → v ≠ NULL →
  resizeStep reHashTable t a = Ret (0, t1, a1) →
  bucketIndex t1 k = Ret index →
  bucket t1 index = Ret (l1 ++ [e]) →
  (∀ x, x ∈ l1 → compareFunction t1 (key x) k ≠ 0) →
  malloc a1 = (true, a2) →
  ∃ t',
    insertElement t k v a = Ret (INSERTED, t', a2) ∧
    bucket t' index = Ret (l1 ++ [e; mkElement k v]) ∧
    length (entries t') = S (length (entries t1)) ∧
    nbElements t' = size_wrap (nbElements t1 + 1).
Proof.
  intros Hk Hv Hre Hi Hl Hl1 Hm.
  exists (updateTable t1 index ((l1 ++ [e]) ++ [mkElement k v])
                      (size_wrap (nbElements t1 + 1))).
  split; [|split; [|split; [|done]]].
  - rewrite insertElement_unfold. unfold insertBody.
    destruct (Z.eqb_spec k NULL); [done|]. destruct (Z.eqb_spec v NULL); [done|].
    cbn [orb]. rewrite Hre. cbn [mbind outcome_bind Z.eqb].
    unfold insertAtIndex. rewrite Hi. cbn [mbind outcome_bind].
    rewrite Hl. cbn [mbind outcome_bind].
    by rewrite replaceInChain_last, Hm.
  - rewrite (bucket_updateTable t1 index (l1 ++ [e])) by done.
    by rewrite <- (assoc_L (++)).
  - rewrite (entries_updateTable_append t1 index (l1 ++ [e])) by done.
    rewrite length_app. cbn [length]. lia.
Qed.

(** ** Lookup and removal agree *)

(** X5: [removeElement] removes an element exactly when [hasKey] reports
    the key: if the key is contained, one element with an equivalent key
    leaves the table, its value is returned and the count is decremented;
    if not, [NULL] is returned and the table is unchanged; a fault of one
    is the fault of the other. *)
Theorem removeElement_iff_hasKey t k :
  match hasKey t k with
  | Ret true =>
      ∃ e t',
        removeElement t k = Ret (value e, t') ∧
        e ∈ entries t ∧ compareFunction t (key e) k = 0 ∧
        entries t ≡ₚ e :: entries t' ∧
        nbElements t' = size_wrap (nbElements t - 1) ∧
        capacity t' = capacity t
  | Ret false => removeElement t k = Ret (NULL, t)
  | Fault f => removeElement t k = Fault f
  | OutOfFuel => False
  end.
Proof.
  unfold hasKey, removeElement. destruct (k =? NULL); [done|].
  destruct (bucketIndex t k) as [index| |] eqn:Hi; cbn [mbind outcome_bind];
    [|reflexivity|].
  2: { unfold bucketIndex, hashKey in Hi. by repeat case_match. }
  destruct (bucket t index) as [l| |] eqn:Hl; cbn [mbind outcome_bind];
    [|reflexivity|].
  2: { unfold bucket in Hl. by case_match. }
  destruct (chainHasKey (compareFunction t) k l) eqn:Hhas.
  - destruct (removeFromChain_hasKey _ _ _ Hhas) as (r & l' & Hrem).
    rewrite Hrem.
    apply removeFromChain_Some in Hrem as (l1 & e & l2 & -> & _ & He & -> & ->).
    exists e, (updateTable t index (l1 ++ l2) (size_wrap (nbElements t - 1))).
    apply bucket_Ret in Hl.
    split; [done|]. split; [|split; [done|split; [|done]]].
    + apply elem_of_entries. exists (Z.to_nat index), (l1 ++ e :: l2).
      split; [done|]. rewrite elem_of_app. right. by left.
    + unfold entries. cbn [updateTable elementsArray].
      destruct (concat_insert_split _ _ _ (l1 ++ l2) Hl) as [-> ->].
      rewrite <- !(assoc_L (++)). cbn [app].
      by rewrite <- !Permutation_middle.
  - pose proof (proj1 (chainHasKey_false _ _ _) Hhas) as Hno.
    by rewrite removeFromChain_None.
Qed.

(** ** Removal from a well-formed table *)

Lemma distinctKeys_tail cmp e l : distinctKeys cmp (e :: l) → distinctKeys cmp l.
Proof. by intros [_ ?]. Qed.

Lemma wf_unlink t index l1 e l2 n :
  wf t → bucket t index = Ret (l1 ++ e :: l2) →
  wf (updateTable t index (l1 ++ l2) n) ∧
  entries t ≡ₚ e :: entries (updateTable t index (l1 ++ l2) n).
Proof.
  intros [Hs Hidx Hkeys Hdist] Hl%bucket_Ret.
  assert (entries t ≡ₚ e :: entries (updateTable t index (l1 ++ l2) n))
    as Hperm.
  { unfold entries. cbn [updateTable elementsArray].
    destruct (concat_insert_split _ _ _ (l1 ++ l2) Hl) as [-> ->].
    rewrite <- !(assoc_L (++)). cbn [app].
    by rewrite <- !Permutation_middle. }
  split; [|done]. split.
  - by apply shape_updateTable.
  - intros i l x. rewrite bucketIndex_updateTable.
    cbn [updateTable elementsArray].
    destruct (decide (i = Z.to_nat index)) as [->|Hne].
    + rewrite list_lookup_insert_eq by (by eapply lookup_lt_Some).
      intros [= <-] Hx. apply (Hidx _ _ _ Hl).
      rewrite elem_of_app in *. destruct Hx; [by left|right; by right].
    + rewrite list_lookup_insert_ne by done. apply Hidx.
  - intros x Hx. apply Hkeys. rewrite Hperm. by right.
  - apply (distinctKeys_tail _ e).
    eapply distinctKeys_perm; [exact Hperm|done].
Qed.

Lemma removeElement_entry t e :
  wf t → e ∈ entries t → compareFunction t (key e) (key e) = 0 →
  ∃ t',
    removeElement t (key e) = Ret (value e, t') ∧
    wf t' ∧ entries t ≡ₚ e :: entries t' ∧
    nbElements t' = size_wrap (nbElements t - 1) ∧
    capacity t' = capacity t ∧
    hashFunction t' = hashFunction t ∧
    compareFunction t' = compareFunction t ∧
    hasKey t' (key e) = Ret false.
Proof.
  intros Hwf He Hrefl.
  pose proof (wf_keys _ Hwf _ He) as Hk.
  pose proof He as (i & l & Hi & Hel)%elem_of_entries.
  pose proof (wf_index _ Hwf _ _ _ Hi Hel) as Hindex.
  apply list_elem_of_split in Hel as (l1 & l2 & ->).
  assert (bucket t (Z.of_nat i) = Ret (l1 ++ e :: l2)) as Hl
    by (apply bucket_Ret; by rewrite Nat2Z.id).
  (* the keys of the chain are told apart from the key of [e] *)
  assert (∀ x, x ∈ l1 ++ l2 → compareFunction t (key x) (key e) ≠ 0) as Hothers.
  { pose proof (wf_distinct _ Hwf) as Hdist. unfold entries in Hdist.
    destruct (concat_insert_split _ _ _ [] Hi) as [Heq _]. rewrite Heq in Hdist.
    apply (distinctKeys_perm _ _
             (e :: concat (take i (elementsArray t)) ++ (l1 ++ l2) ++
                   concat (drop (S i) (elementsArray t)))) in Hdist; cycle 1.
    { rewrite <- !(assoc_L (++)). cbn [app]. by rewrite <- !Permutation_middle. }
    destruct Hdist as [Hdist _]. intros x Hx.
    apply (Hdist x). apply elem_of_app. right. apply elem_of_app. by left. }
  destruct (wf_unlink t (Z.of_nat i) l1 e l2 (size_wrap (nbElements t - 1))
              Hwf Hl) as [Hwf' Hperm].
  eexists. split; [|split; [exact Hwf'|split; [exact Hperm|]]].
  - unfold removeElement. destruct (Z.eqb_spec (key e) NULL); [done|].
    rewrite Hindex. cbn [mbind outcome_bind]. rewrite Hl.
    cbn [mbind outcome_bind]. rewrite removeFromChain_first; [done| |done].
    intros x Hx. apply Hothers. rewrite elem_of_app. by left.
  - repeat (split; [done|]).
    unfold hasKey. destruct (Z.eqb_spec (key e) NULL); [done|].
    rewrite bucketIndex_updateTable, Hindex. cbn [mbind outcome_bind].
    rewrite (bucket_updateTable _ _ _ _ _ Hl). cbn [mbind outcome_bind].
    f_equal. by apply chainHasKey_false.
Qed.

(** X6: removing the key of a stored element from a well-formed table
    returns the value of that element and leaves a well-formed table with
    the other elements; the key is no longer contained, every other stored
    key still is, and [nbElements] is decremented. *)
Theorem removeElement_stored t e :
  wf t → e ∈ entries t →
  (∀ x, x ∈ entries t → compareFunction t (key x) (key x) = 0) →
  ∃ t',
    removeElement t (key e) = Ret (value e, t') ∧
    wf t' ∧ entries t ≡ₚ e :: entries t' ∧
    nbElements t' = size_wrap (nbElements t - 1) ∧
    hasKey t' (key e) = Ret false ∧
    (∀ x, x ∈ entries t' → hasKey t' (key x) = Ret true).
Proof.
  intros Hwf He Hrefl.
  destruct (removeElement_entry t e Hwf He (Hrefl e He))
    as (t' & Hrem & Hwf' & Hperm & Hnb & _ & _ & Hcmp & Hnot).
  exists t'. repeat (split; [done|]).
  intros x Hx. apply hasKey_entry; [done| |done].
  rewrite Hcmp. apply Hrefl. rewrite Hperm. by right.
Qed.

(** ** Tables reached by insertions of new keys and by removals *)

Lemma insertElement_not_NULL t k v a r t' a' :
  insertElement t k v a = Ret (r, t', a') → r ≠ NULL → k ≠ NULL ∧ v ≠ NULL.
Proof.
  rewrite insertElement_unfold. unfold insertBody.
  destruct (Z.eqb_spec k NULL); [by intros [= <- <- <-]|].
  destruct (Z.eqb_spec v NULL); [by intros [= <- <- <-]|]. done.
Qed.

(** A successful insertion of a new key keeps the count exact and the
    load factor at most 0.700001. *)
Lemma insertElement_load t k v a r t' a' :
  wf t → nbElements t = Z.of_nat (length (entries t)) →
  1000000 * Z.of_nat (length (entries t)) <= 700001 * capacity t →
  fresh (compareFunction t) (entries t) k →
  insertElement t k v a = Ret (r, t', a') → r ≠ NULL →
  wf t' ∧ entries t' ≡ₚ entries t ++ [mkElement k v] ∧
  nbElements t' = Z.of_nat (length (entries t')) ∧
  1000000 * Z.of_nat (length (entries t')) <= 700001 * capacity t'.
Proof.
  intros Hwf Hnb Hload Hfresh Hins Hr.
  destruct (wf_shape _ Hwf) as (Hc0 & Hc8 & _).
  unfold sizeof_ElementsArray, SIZE_MAX in Hc8.
  assert (counted t) as Hcnt.
  { unfold counted. rewrite Hnb, size_wrap_small; [done|lia]. }
  destruct (insertElement_fresh _ _ _ _ _ _ _ Hwf Hfresh Hins Hr)
    as [_ Hwf' Hent Hcnt' _].
  specialize (Hcnt' Hcnt).
  assert (0 < capacity t') as Hpos'.
  { apply (wf_capacity_pos t' (mkElement k v)); [done|].
    rewrite Hent, elem_of_app, list_elem_of_singleton. by right. }
  destruct (insertElement_extends _ _ _ _ _ _ _ Hins Hr) as [Hext Hsame].
  destruct (ext_capacity _ _ _ _ Hext (wf_shape _ Hwf)) as (d & Hd & Hcap').
  assert (0 <= d) as Hd0 by (destruct (loadExceeded _ _); lia).
  pose proof (pow2_ge_1 d Hd0) as Hp1.
  assert (0 < capacity t) as Hpos by nia.
  assert (1000000 * Z.of_nat (length (entries t')) <= 700001 * capacity t')
    as Hload'.
  { rewrite Hent, length_app. cbn [length].
    destruct (loadExceeded _ _) eqn:Htest.
    - pose proof (pow2_ge_2 d Hd). nia.
    - specialize (Hsame eq_refl). rewrite Hsame. rewrite Hnb in Htest.
      destruct (Z_le_gt_dec (700001 * capacity t)
                  (1000000 * (Z.of_nat (length (entries t)) + 1)))
        as [Hle|]; [|lia].
      rewrite loadExceeded_above in Htest; [done|..];
        rewrite ?size_wrap_small; lia. }
  split; [done|]. split; [done|]. split; [|done].
  destruct (wf_shape _ Hwf') as (_ & Hc8' & _).
  unfold sizeof_ElementsArray, SIZE_MAX in Hc8'.
  rewrite Hcnt'. apply size_wrap_small. lia.
Qed.

(** A removal keeps the table well formed and the count exact. *)
Lemma removeElement_wf t k r t' :
  wf t → nbElements t = Z.of_nat (length (entries t)) →
  Z.of_nat (length (entries t)) < 2 ^ 64 →
  removeElement t k = Ret (r, t') →
  wf t' ∧ nbElements t' = Z.of_nat (length (entries t')) ∧
  capacity t' = capacity t ∧
  (length (entries t') ≤ length (entries t))%nat ∧
  (∀ x, x ∈ entries t' → x ∈ entries t).
Proof.
  intros Hwf Hnb Hsmall. unfold removeElement.
  destruct (k =? NULL); [by intros [= <- <-]|].
  destruct (bucketIndex t k) as [index| |]; cbn [mbind outcome_bind]; [|done..].
  destruct (bucket t index) as [l| |] eqn:Hl; cbn [mbind outcome_bind]; [|done..].
  destruct (removeFromChain _ k l) as [[old l']|] eqn:Hrem;
    [|by intros [= <- <-]].
  intros [= <- <-].
  apply removeFromChain_Some in Hrem as (l1 & e & l2 & -> & _ & _ & _ & ->).
  destruct (wf_unlink t index l1 e l2 (size_wrap (nbElements t - 1)) Hwf Hl)
    as [Hwf' Hperm].
  apply Permutation_length in Hperm as Hlen. cbn [length] in Hlen.
  set (t' := updateTable _ _ _ _) in *.
  split; [done|]. split; [|split; [done|split; [lia|]]].
  - change (nbElements t') with (size_wrap (nbElements t - 1)).
    rewrite size_wrap_small; lia.
  - intros x Hx. rewrite Hperm. by right.
Qed.

Lemma reachable_wf t :
  reachable t →
  wf t ∧ nbElements t = Z.of_nat (length (entries t)) ∧
  1000000 * Z.of_nat (length (entries t)) <= 700001 * capacity t ∧
  (∀ e, e ∈ entries t → value e ≠ NULL).
Proof.
  induction 1 as [cap h c a t a' Hcap Hcreate
                 |t k v a r t' a' _ (Hwf & Hnb & Hload & Hval) Hfresh Hins Hr
                 |t k r t' _ (Hwf & Hnb & Hload & Hval) Hrem].
  - apply createHashTable_Some in Hcreate as (a1 & newArray & _ & Hc & ->).
    destruct (wf_empty _ _ _ _ h c Hcap Hc) as (Hwf & _ & Hnil).
    rewrite Hnil. cbn. split; [done|]. split; [done|]. split; [lia|].
    by intros e ?%elem_of_nil.
  - destruct (insertElement_load _ _ _ _ _ _ _ Hwf Hnb Hload Hfresh Hins Hr)
      as (Hwf' & Hent & Hnb' & Hload').
    destruct (insertElement_not_NULL _ _ _ _ _ _ _ Hins Hr) as [_ Hv].
    repeat (split; [done|]). intros e. rewrite Hent.
    intros [He|He%list_elem_of_singleton]%elem_of_app;
      [by apply Hval|by subst e].
  - destruct (wf_shape _ Hwf) as (Hc0 & Hc8 & _).
    unfold sizeof_ElementsArray, SIZE_MAX in Hc8.
    destruct (removeElement_wf _ _ _ _ Hwf Hnb ltac:(lia) Hrem)
      as (Hwf' & Hnb' & Hcap' & Hlen & Hsub).
    split; [done|]. split; [done|]. split; [lia|]. auto.
Qed.

(** X7: on every table reached from [createHashTable] by insertions of
    keys that are not equivalent to a stored key and by removals, every
    element is in the bucket of its key, the stored keys are not [NULL]
    and pairwise not equivalent, no stored value is [NULL],
    [getNumElements] is the number of stored elements, which is at most
    0.700001 times the capacity, and every stored key is contained. *)
Theorem reachable_invariant t :
  reachable t →
  wf t ∧
  (∀ e, e ∈ entries t → value e ≠ NULL) ∧
  getNumElements t = Z.of_nat (length (entries t)) ∧
  1000000 * getNumElements t <= 700001 * capacity t ∧
  (∀ e, e ∈ entries t → compareFunction t (key e) (key e) = 0 →
        hasKey t (key e) = Ret true).
Proof.
  intros (Hwf & Hnb & Hload & Hval)%reachable_wf. unfold getNumElements.
  split; [done|]. split; [done|]. split; [done|]. split; [lia|].
  intros e He Hrefl. by apply hasKey_entry.
Qed.

(** ** Insertions succeed while memory is granted *)

Lemma malloc_granted a :
  (∀ b, b ∈ a → b = true) →
  ∃ a', malloc a = (true, a') ∧ (∀ b, b ∈ a' → b = true).
Proof.
  destruct a as [|b a]; intros Hall; cbn [malloc].
  - by exists [].
  - exists a. rewrite (Hall b) by by left. split; [done|].
    intros b' Hb'. apply Hall. by right.
Qed.

Lemma insertAtIndex_granted t k v a a' :
  wf t → 0 < capacity t →
  fresh (compareFunction t) (entries t) k →
  malloc a = (true, a') →
  ∃ t', insertAtIndex t k v a = Ret (INSERTED, t', a').
Proof.
  intros Hwf Hpos Hfresh Hmalloc. unfold insertAtIndex.
  rewrite bucketIndex_mod by done. cbn [mbind outcome_bind].
  destruct (wf_shape _ Hwf) as (_ & _ & Hlen).
  pose proof (Z.mod_pos_bound (size_wrap (hashFunction t k)) (capacity t) Hpos)
    as Hindex.
  destruct (array_bucket t (size_wrap (hashFunction t k) mod capacity t))
    as [l Hl]; [done..|].
  rewrite Hl. cbn [mbind outcome_bind].
  rewrite replaceInChain_None, Hmalloc; [eauto|].
  intros e He. apply Hfresh, elem_of_entries.
  apply bucket_Ret in Hl. eauto.
Qed.

(** The loop of [reHashTable] on elements with distinct keys, in a table
    that is large enough not to be resized again. *)
Lemma reinsertChain_granted rest : ∀ t a,
  wf t → counted t → 0 < capacity t →
  distinctKeys (compareFunction t) (entries t ++ rest) →
  (∀ e, e ∈ rest → key e ≠ NULL ∧ value e ≠ NULL) →
  (∀ j, (length (entries t) ≤ j < length (entries t) + length rest)%nat →
        loadExceeded (size_wrap (Z.of_nat j)) (capacity t) = false) →
  (∀ b, b ∈ a → b = true) →
  ∃ t' a',
    reinsertChain insertElement rest t a = Ret (true, t', a') ∧
    wf t' ∧ counted t' ∧ entries t' ≡ₚ entries t ++ rest ∧
    capacity t' = capacity t ∧ hashFunction t' = hashFunction t ∧
    compareFunction t' = compareFunction t ∧ (∀ b, b ∈ a' → b = true).
Proof.
  induction rest as [|e rest IH]; intros t a Hwf Hcnt Hpos Hdist Hnn Hquiet Ha.
  - exists t, a. rewrite (right_id_L [] (++)). done.
  - destruct (malloc_granted a Ha) as (a1 & Hm & Ha1).
    destruct (Hnn e) as [Hk Hv]; [by left|].
    assert (fresh (compareFunction t) (entries t) (key e)) as Hfresh
      by (by eapply distinctKeys_middle).
    assert (loadExceeded (nbElements t) (capacity t) = false) as Hload.
    { rewrite Hcnt. apply Hquiet. cbn [length]. lia. }
    destruct (insertElement_quiet t (key e) (value e) a a1) as [t1 Hins];
      try done.
    destruct (insertElement_fresh _ _ _ _ _ _ _ Hwf Hfresh Hins
                INSERTED_not_NULL) as [_ Hwf1 Hent1 Hcnt1 _].
    destruct (insertElement_extends _ _ _ _ _ _ _ Hins INSERTED_not_NULL)
      as [[_ Hh1 Hc1 _ _] Hsame].
    specialize (Hsame Hload). specialize (Hcnt1 Hcnt).
    assert (mkElement (key e) (value e) = e) as Heq by by destruct e.
    rewrite Heq in Hent1.
    destruct (IH t1 a1) as (t' & a' & Hloop & Hwf' & Hcnt' & Hent' & Hcap' &
                            Hh' & Hc' & Ha'); try done.
    + lia.
    + rewrite Hc1. eapply distinctKeys_perm; [|exact Hdist].
      by rewrite Hent1, <- (assoc_L (++)).
    + intros x Hx. apply Hnn. by right.
    + intros j Hj. rewrite Hsame. apply Hquiet.
      apply Permutation_length in Hent1. rewrite length_app in Hent1.
      cbn [length] in *. lia.
    + exists t', a'. cbn [reinsertChain]. rewrite Hins.
      cbn [mbind outcome_bind]. rewrite Hloop.
      split; [done|]. split; [done|]. split; [done|]. split.
      { by rewrite Hent', Hent1, <- (assoc_L (++)). }
      split; [congruence|]. split; [congruence|]. split; [congruence|done].
Qed.

Lemma load_quiet t :
  wf t → 1000000 * Z.of_nat (length (entries t)) <= 700001 * capacity t →
  quietResize t.
Proof.
  intros Hwf Hle j Hj.
  destruct (wf_shape _ Hwf) as (Hc0 & Hc8 & _).
  unfold sizeof_ElementsArray, SIZE_MAX in Hc8.
  rewrite size_wrap_small by lia.
  apply loadExceeded_below; rewrite ?size_wrap_small; lia.
Qed.

Lemma reHashTable_granted t a :
  wf t → 0 < capacity t →
  2 * capacity t * sizeof_ElementsArray <= SIZE_MAX →
  (∀ e, e ∈ entries t → value e ≠ NULL) →
  quietResize t →
  (∀ b, b ∈ a → b = true) →
  ∃ t1 a1,
    reHashTable t a = Ret (0, t1, a1) ∧
    wf t1 ∧ counted t1 ∧ entries t1 ≡ₚ entries t ∧
    capacity t1 = 2 * capacity t ∧ hashFunction t1 = hashFunction t ∧
    compareFunction t1 = compareFunction t ∧ (∀ b, b ∈ a1 → b = true).
Proof.
  intros Hwf Hpos Hfit Hval Hquiet Ha.
  destruct (wf_shape _ Hwf) as (Hc0 & Hc8 & Hlen).
  unfold sizeof_ElementsArray, SIZE_MAX in Hc8, Hfit.
  destruct (malloc_granted a Ha) as (a0 & Hm & Ha0).
  assert (size_wrap (capacity t * 2) = 2 * capacity t) as Hcap
    by (rewrite size_wrap_small; lia).
  assert (calloc (size_wrap (capacity t * 2)) a
          = (Some (replicate (Z.to_nat (size_wrap (capacity t * 2))) []), a0))
    as Hc.
  { unfold calloc. rewrite Hm. cbn [andb].
    destruct (Z.leb_spec (size_wrap (capacity t * 2) * sizeof_ElementsArray)
                SIZE_MAX) as [|Hbig]; [done|].
    unfold sizeof_ElementsArray, SIZE_MAX in Hbig. lia. }
  destruct (wf_empty _ _ _ _ (hashFunction t) (compareFunction t)
              (proj1 (size_wrap_range _)) Hc) as (Hwf0 & Hcnt0 & Hnil0).
  unfold reHashTable, reHashTableWith. rewrite Hc.
  rewrite reinsertBuckets_concat.
  set (t0 := mkHashTable _ _ 0 _ _) in *.
  replace (concat (take _ _)) with (entries t); cycle 1.
  { unfold entries. rewrite take_ge; [done|lia]. }
  destruct (reinsertChain_granted (entries t) t0 a0)
    as (t1 & a1 & Hloop & Hwf1 & Hcnt1 & Hent1 & Hcap1 & Hh1 & Hc1 & Ha1);
    try done.
  - subst t0. cbn [capacity]. lia.
  - rewrite Hnil0. apply Hwf.
  - intros e He. split; [by apply (wf_keys _ Hwf)|by apply Hval].
  - intros j Hj. rewrite Hnil0 in Hj. cbn [length] in Hj.
    subst t0. cbn [capacity]. rewrite Hcap. apply Hquiet. lia.
  - exists t1, a1. rewrite Hloop. cbn [mbind outcome_bind].
    destruct (Z.ltb_spec (Z.of_nat (length (elementsArray t))) (capacity t));
      [lia|].
    rewrite Hnil0 in Hent1. cbn [app] in Hent1.
    repeat (split; [done|]). split; [|done]. rewrite Hcap1. by subst t0.
Qed.

(** X8: on a reached table of positive capacity an insertion of a key
    that is not equivalent to a stored one succeeds whenever the
    allocator grants every request and, if the load-factor test fires, the
    doubled bucket array fits a [size_t]: it returns [(void* )-1], the
    capacity is doubled once if the test fires and unchanged otherwise,
    and the elements are the former ones and the new one. The only
    failures of such an insertion are allocation failures. *)
Theorem insertElement_succeeds t k v a :
  reachable t → 0 < capacity t → k ≠ NULL → v ≠ NULL →
  fresh (compareFunction t) (entries t) k →
  (∀ b, b ∈ a → b = true) →
  (loadExceeded (nbElements t) (capacity t) = true →
   2 * capacity t * sizeof_ElementsArray <= SIZE_MAX) →
  ∃ t' a',
    insertElement t k v a = Ret (INSERTED, t', a') ∧
    capacity t' = (if loadExceeded (nbElements t) (capacity t)
                   then 2 * capacity t else capacity t) ∧
    entries t' ≡ₚ entries t ++ [mkElement k v] ∧
    getNumElements t' = getNumElements t + 1 ∧
    reachable t'.
Proof.
  intros Hreach Hpos Hk Hv Hfresh Ha Hfit.
  destruct (reachable_wf _ Hreach) as (Hwf & Hnb & Hload & Hval).
  assert (∃ t' a', insertElement t k v a = Ret (INSERTED, t', a') ∧
            capacity t' = (if loadExceeded (nbElements t) (capacity t)
                           then 2 * capacity t else capacity t))
    as (t' & a' & Hins & Hcap).
  { destruct (loadExceeded _ _) eqn:Htest.
    - destruct (reHashTable_granted t a)
        as (t1 & a1 & Hre & Hwf1 & _ & Hent1 & Hcap1 & _ & Hc1 & Ha1);
        [done|done|by apply Hfit|done|by apply load_quiet|done|].
      destruct (malloc_granted a1 Ha1) as (a2 & Hm & _).
      destruct (insertAtIndex_granted t1 k v a1 a2) as [t' Hat];
        [done|lia| |done|].
      { rewrite Hc1. intros x Hx. apply Hfresh. by rewrite <- Hent1. }
      exists t', a2. split.
      + rewrite insertElement_unfold. unfold insertBody, resizeStep.
        destruct (Z.eqb_spec k NULL); [done|].
        destruct (Z.eqb_spec v NULL); [done|].
        cbn [orb]. rewrite Htest, Hre. cbn [mbind outcome_bind Z.eqb]. done.
      + rewrite <- Hcap1. by eapply insertAtIndex_capacity.
    - destruct (malloc_granted a Ha) as (a1 & Hm & _).
      destruct (insertElement_quiet t k v a a1) as [t' Hins]; try done.
      exists t', a1. split; [done|].
      by apply (insertElement_extends _ _ _ _ _ _ _ Hins INSERTED_not_NULL). }
  exists t', a'. split; [done|]. split; [done|].
  destruct (insertElement_load _ _ _ _ _ _ _ Hwf Hnb Hload Hfresh Hins
              INSERTED_not_NULL) as (_ & Hent & Hnb' & _).
  split; [done|]. split.
  - unfold getNumElements. rewrite Hnb', Hnb, Hent, length_app. cbn [length].
    lia.
  - eapply reachable_insert; [done..|apply INSERTED_not_NULL].
Qed.

(** ** What an insertion that does not return [NULL] has done *)


Lemma insertAtIndex_result t k v a r t' a' :
  insertAtIndex t k v a = Ret (r, t', a') → r ≠ NULL →
  nbElements t' = size_wrap (nbElements t + 1) ∧
  capacity t' = capacity t ∧
  ((r = INSERTED ∧ malloc a = (true, a') ∧
    entries t' ≡ₚ entries t ++ [mkElement k v]) ∨
   (∃ e rest,
      entries t ≡ₚ e :: rest ∧ compareFunction t (key e) k = 0 ∧
      r = value e ∧ a' = a ∧
      entries t' ≡ₚ mkElement (key e) v :: rest)).
Proof.
  unfold insertAtIndex.
  destruct (bucketIndex t k) as [index| |]; cbn [mbind outcome_bind]; [|done..].
  destruct (bucket t index) as [l| |] eqn:Hl; cbn [mbind outcome_bind]; [|done..].
  destruct (replaceInChain _ k v l) as [[old l']|] eqn:Hrep.
  - intros [= <- <- <-] _. split; [done|]. split; [done|]. right.
    apply replaceInChain_Some in Hrep
      as (l1 & e & e' & l2 & -> & _ & He & -> & ->).
    apply bucket_Ret in Hl.
    exists e, (concat (take (Z.to_nat index) (elementsArray t)) ++
               (l1 ++ e' :: l2) ++
               concat (drop (S (Z.to_nat index)) (elementsArray t))).
    unfold entries. cbn [updateTable elementsArray].
    destruct (concat_insert_split _ _ _
                (l1 ++ mkElement (key e) v :: e' :: l2) Hl) as [-> ->].
    split; [|split; [done|split; [done|split; [done|]]]].
    + rewrite <- !(assoc_L (++)). cbn [app]. by rewrite <- !Permutation_middle.
    + rewrite <- !(assoc_L (++)). cbn [app]. by rewrite <- !Permutation_middle.
  - destruct (malloc a) as [[] a1] eqn:Hm; [|by intros [= <- <- <-]].
    intros [= <- <- <-] _. split; [done|]. split; [done|]. left.
    split; [done|]. split; [done|].
    by apply entries_updateTable_append.
Qed.

(** On a table that is not resized, or that is well formed, an insertion
    that does not return [NULL] has either appended the new element and
    returned [(void* )-1], or replaced the value of a stored element with
    an equivalent key and returned the old value; the other elements are
    kept, and [nbElements] is one more than it was, or than the number of
    elements when the table was resized. *)
Lemma insertElement_result t k v a r t' a' :
  (loadExceeded (nbElements t) (capacity t) = true → wf t) →
  insertElement t k v a = Ret (r, t', a') → r ≠ NULL →
  nbElements t' =
    size_wrap ((if loadExceeded (nbElements t) (capacity t)
                then Z.of_nat (length (entries t)) else nbElements t) + 1) ∧
  ((r = INSERTED ∧ entries t' ≡ₚ entries t ++ [mkElement k v]) ∨
   (∃ e rest,
      entries t ≡ₚ e :: rest ∧ compareFunction t (key e) k = 0 ∧
      r = value e ∧ entries t' ≡ₚ mkElement (key e) v :: rest ∧
      (loadExceeded (nbElements t) (capacity t) = false → a' = a))).
Proof.
  intros Hwf. rewrite insertElement_unfold. unfold insertBody, resizeStep.
  destruct (_ || _); [by intros [= <- <- <-]|].
  destruct (loadExceeded _ _) eqn:Htest.
  - specialize (Hwf eq_refl).
    destruct (reHashTable t a) as [[[rc t1] a1]| |] eqn:Hre;
      cbn [mbind outcome_bind]; [|done..].
    destruct (Z.eqb_spec rc 0) as [->|_]; [|by intros [= <- <- <-]].
    destruct (reHashTable_distinct (length (entries t))
                (λ t k v a r t' a' _, insertElement_fresh t k v a r t' a')
                t a t1 a1 (le_n _) Hwf Hre) as (_ & Hcnt1 & Hent1 & _).
    destruct (reHashTable_extends _ _ _ _ Hre) as [_ _ Hc _ _].
    intros Hat Hr.
    destruct (insertAtIndex_result _ _ _ _ _ _ _ Hat Hr)
      as (Hnb & _ & [(-> & _ & Hent)|(e & rest & He & Hk & -> & _ & Hent)]).
    + split; [by rewrite Hnb, Hcnt1, Hent1, size_wrap_succ|].
      left. split; [done|]. by rewrite Hent, Hent1.
    + split; [by rewrite Hnb, Hcnt1, Hent1, size_wrap_succ|].
      right. exists e, rest. rewrite <- Hent1, <- Hc. done.
  - cbn [mbind outcome_bind Z.eqb]. intros Hat Hr.
    destruct (insertAtIndex_result _ _ _ _ _ _ _ Hat Hr)
      as (Hnb & _ & [(-> & _ & Hent)|(e & rest & He & Hk & -> & -> & Hent)]).
    + split; [done|]. by left.
    + split; [done|]. right. by exists e, rest.
Qed.

(** ** Insertion of a key that the search does not find *)



(** ** Insertion of a key that the search finds *)

(** X3: when the load-factor test does not fire and an element of the
    chain of the key other than the last one has an equivalent key,
    [insertElement] replaces the value of the first such element, returns
    the old value and leaves the allocator as it is; the chain keeps its
    elements and their order, and [nbElements] is incremented all the
    same. On a table that is not resized, or that is well formed, every
    insertion that returns a value other than [NULL] and [(void* )-1] has
    replaced the value of a stored element with an equivalent key and
    returned the old one; the other elements are kept, and [nbElements]
    is one more than it was, or than the number of elements when the table
    was resized. *)
Theorem insertElement_replaces t k v a :
  k ≠ NULL → v ≠ NULL →
  (loadExceeded (nbElements t) (capacity t) = false →
   ∀ index l1 e e' l2,
     bucketIndex t k = Ret index →
     bucket t index = Ret (l1 ++ e :: e' :: l2) →
     (∀ x, x ∈ l1 → compareFunction t (key x) k ≠ 0) →
     compareFunction t (key e) k = 0 →
     let t' :=
       mkHashTable (capacity t)
         (<[Z.to_nat index := l1 ++ mkElement (key e) v :: e' :: l2]>
            (elementsArray t))
         (size_wrap (nbElements t + 1))
         (hashFunction t) (compareFunction t) in
     insertElement t k v a = Ret (value e, t', a) ∧
     bucket t' index = Ret (l1 ++ mkElement (key e) v :: e' :: l2) ∧
     length (entries t') = length (entries t)) ∧
  (∀ r t' a',
     (loadExceeded (nbElements t) (capacity t) = true → wf t) →
     insertElement t k v a = Ret (r, t', a') → r ≠ NULL → r ≠ INSERTED →
     ∃ e rest,
       entries t ≡ₚ e :: rest ∧ compareFunction t (key e) k = 0 ∧
       r = value e ∧ entries t' ≡ₚ mkElement (key e) v :: rest ∧
       nbElements t' =
         size_wrap ((if loadExceeded (nbElements t) (capacity t)
                     then Z.of_nat (length (entries t))
                     else nbElements t) + 1) ∧
       (loadExceeded (nbElements t) (capacity t) = false → a' = a)).
Proof.
  intros Hk Hv. split.
  - intros Htest index l1 e e' l2 Hi Hl Hl1 He t'. split; [|split].
    + rewrite insertElement_unfold. unfold insertBody, resizeStep.
      destruct (Z.eqb_spec k NULL); [done|].
      destruct (Z.eqb_spec v NULL); [done|].
      cbn [orb]. rewrite Htest. cbn [mbind outcome_bind Z.eqb].
      unfold insertAtIndex. rewrite Hi. cbn [mbind outcome_bind].
      rewrite Hl. cbn [mbind outcome_bind].
      by rewrite replaceInChain_inner.
    + by apply (bucket_updateTable t index (l1 ++ e :: e' :: l2)).
    + change t' with (updateTable t index
                        (l1 ++ mkElement (key e) v :: e' :: l2)
                        (size_wrap (nbElements t + 1))).
      rewrite (length_entries_updateTable t index (l1 ++ e :: e' :: l2))
        by done.
      assert (length (l1 ++ e :: e' :: l2) ≤ length (entries t))%nat as Hle.
      { apply bucket_Ret in Hl. unfold entries.
        destruct (concat_insert_split _ _ _ [] Hl) as [-> _].
        rewrite !length_app. lia. }
      rewrite !length_app in *. cbn [length] in *. lia.
  - intros r t' a' Hwf Hins Hr Hsentinel.
    destruct (insertElement_result _ _ _ _ _ _ _ Hwf Hins Hr)
      as (Hnb & [[-> _]|(e & rest & He & Hcmp & -> & Hent & Ha)]); [done|].
    by exists e, rest.
Qed.

(** ** No operation faults on a table of positive capacity *)

Lemma extends_capacity_pos e d t t' :
  shape t → 0 < capacity t → 0 <= d → extends e d t t' →
  shape t' ∧ 0 < capacity t'.
Proof.
  intros Hs Hpos Hd0 [_ _ _ Hs' Hcap]. split; [auto|].
  destruct (Hcap Hs) as (x & Hx & ->).
  pose proof (pow2_ge_1 x ltac:(lia)). nia.
Qed.

Lemma insertAtIndex_returns t k v a :
  shape t → 0 < capacity t →
  ∃ r t' a', insertAtIndex t k v a = Ret (r, t', a') ∧ extends 1 0 t t'.
Proof.
  intros (_ & _ & Hlen) Hpos.
  assert (∃ x, insertAtIndex t k v a = Ret x) as [[[r t'] a'] Hat].
  { unfold insertAtIndex. rewrite bucketIndex_mod by done.
    cbn [mbind outcome_bind].
    pose proof (Z.mod_pos_bound (size_wrap (hashFunction t k)) (capacity t)
                  Hpos) as Hindex.
    destruct (array_bucket t (size_wrap (hashFunction t k) mod capacity t))
      as [l Hl]; [done..|].
    rewrite Hl. cbn [mbind outcome_bind].
    destruct (replaceInChain _ _ _ _) as [[old l']|]; [eauto|].
    destruct (malloc a) as [[] a1]; eauto. }
  exists r, t', a'. split; [done|]. by eapply insertAtIndex_extends.
Qed.

Section Returns.

Variable ins : HashTable → ptr → ptr → allocator → outcome insertResult.

(** [ins] returns on the tables of fewer than [N] elements. *)
Variable N : nat.

Hypothesis ins_returns : ∀ t k v a,
  (length (entries t) < N)%nat → shape t → 0 < capacity t →
  ∃ r t' a', ins t k v a = Ret (r, t', a') ∧ extends 1 0 t t'.

Lemma reinsertChain_returns l : ∀ t a,
  shape t → 0 < capacity t → (length (entries t) + length l ≤ N)%nat →
  ∃ ok t' a',
    reinsertChain ins l t a = Ret (ok, t', a') ∧ extends (length l) 0 t t'.
Proof.
  induction l as [|e l IH]; intros t a Hs Hpos HN.
  - exists true, t, a. split; [done|]. apply extends_refl.
  - cbn [length] in HN.
    destruct (ins_returns t (key e) (value e) a) as (r & t1 & a1 & Hins & Hext);
      [lia|done..|].
    cbn [reinsertChain]. rewrite Hins. cbn [mbind outcome_bind].
    destruct (r =? NULL).
    + exists false, t1, a1. split; [done|].
      eapply extends_weaken; [| |exact Hext]; cbn [length]; lia.
    + destruct (extends_capacity_pos _ _ _ _ Hs Hpos (Z.le_refl 0) Hext)
        as [Hs1 Hpos1].
      destruct (IH t1 a1) as (ok & t' & a' & Hloop & Hext'); [done..| |].
      { destruct Hext as [Hlen _ _ _ _]. lia. }
      exists ok, t', a'. split; [done|].
      change (length (e :: l)) with (1 + length l)%nat.
      change 0 with (0 + 0) at 1.
      eapply extends_trans; [lia|lia|exact Hext|exact Hext'].
Qed.

Lemma reHashTableWith_returns t a :
  shape t → 0 < capacity t → (length (entries t) ≤ N)%nat →
  ∃ rc t' a',
    reHashTableWith ins t a = Ret (rc, t', a') ∧ extends 0 0 t t' ∧
    (rc = 0 ∨ rc = -2 ∧ t' = t ∨ rc = -3).
Proof.
  intros Hs Hpos HN. unfold reHashTableWith.
  destruct (calloc _ a) as [[newArray|] a1] eqn:Hc.
  - destruct (shape_calloc_double _ _ _ _ Hs Hc) as [Hcap Hs0].
    rewrite reinsertBuckets_concat.
    set (t0 := mkHashTable _ newArray 0 _ _) in *.
    set (l := concat (take _ _)).
    assert (entries t0 = []) as H0.
    { apply calloc_Some in Hc as (-> & _). apply concat_replicate_nil. }
    assert (length l ≤ length (entries t))%nat as Hl
      by apply length_concat_take.
    destruct (reinsertChain_returns l t0 a1) as (ok & t' & a' & Hloop & Hext).
    { done. }
    { subst t0. cbn [capacity]. lia. }
    { rewrite H0. cbn [length]. lia. }
    rewrite Hloop. cbn [mbind outcome_bind].
    assert (extends 0 0 t t') as Hext0.
    { destruct Hext as [A B C D E]. rewrite H0 in A. cbn [length] in A.
      split.
      - lia.
      - by rewrite B.
      - by rewrite C.
      - auto.
      - intros _. destruct (E Hs0) as (d & Hd & Hd').
        exists (d + 1). split; [lia|].
        rewrite Hd'. subst t0. cbn [capacity]. rewrite Hcap.
        rewrite Z.pow_add_r by lia. lia. }
    destruct ok.
    + destruct Hs as (_ & _ & Hlen).
      destruct (Z.ltb_spec (Z.of_nat (length (elementsArray t))) (capacity t));
        [lia|].
      exists 0, t', a'. auto.
    + exists (-3), t', a'. auto.
  - exists (-2), t, a1. split; [done|]. split; [apply extends_refl|auto].
Qed.

End Returns.

Lemma insertElement_returns_aux N : ∀ t k v a,
  (length (entries t) < N)%nat → shape t → 0 < capacity t →
  ∃ r t' a', insertElement t k v a = Ret (r, t', a') ∧ extends 1 0 t t'.
Proof.
  induction N as [|N IH]; intros t k v a HN Hs Hpos; [lia|].
  rewrite insertElement_unfold. unfold insertBody, resizeStep.
  destruct (_ || _).
  { exists NULL, t, a. split; [done|].
    eapply extends_weaken, extends_refl; lia. }
  destruct (loadExceeded _ _).
  - destruct (reHashTableWith_returns insertElement N IH t a)
      as (rc & t1 & a1 & Hre & Hext & Hrc); [done|done|lia|].
    unfold reHashTable. rewrite Hre. cbn [mbind outcome_bind].
    destruct (Z.eqb_spec rc 0) as [->|_].
    + destruct (extends_capacity_pos _ _ _ _ Hs Hpos (Z.le_refl 0) Hext)
        as [Hs1 Hpos1].
      destruct (insertAtIndex_returns t1 k v a1 Hs1 Hpos1)
        as (r & t' & a' & Hat & Hext').
      exists r, t', a'. split; [done|].
      change 1%nat with (0 + 1)%nat. change 0 with (0 + 0) at 1.
      eapply extends_trans; [lia|lia|exact Hext|exact Hext'].
    + exists NULL, t1, a1. split; [done|].
      eapply extends_weaken; [| |exact Hext]; lia.
  - cbn [mbind outcome_bind Z.eqb]. by apply insertAtIndex_returns.
Qed.

Lemma extends_facts e d t t' :
  shape t → extends e d t t' →
  shape t' ∧ (∃ x, d <= x ∧ capacity t' = 2 ^ x * capacity t) ∧
  hashFunction t' = hashFunction t ∧ compareFunction t' = compareFunction t ∧
  (length (entries t') ≤ length (entries t) + e)%nat.
Proof. intros Hs [A B C D E]. auto. Qed.

(** X9: on a table whose bucket array has its [capacity > 0] slots no
    operation divides by zero or reads outside the array: [hasKey],
    [removeElement] and [insertElement] return, and so does
    [reHashTable], with return code 0, -2 (the table is then unchanged) or
    -3. The table they leave has a bucket array of its capacity again, the
    same callbacks, and a capacity that is [2^d] times the former one
    ([d = 0] for a removal); an insertion adds at most one element and a
    resize none, also when they fail. *)
Theorem operations_return t k v a :
  shape t → 0 < capacity t →
  (∃ b, hasKey t k = Ret b) ∧
  (∃ r t', removeElement t k = Ret (r, t') ∧
           shape t' ∧ capacity t' = capacity t ∧
           hashFunction t' = hashFunction t ∧
           compareFunction t' = compareFunction t) ∧
  (∃ r t' a',
     insertElement t k v a = Ret (r, t', a') ∧
     shape t' ∧ (∃ d, 0 <= d ∧ capacity t' = 2 ^ d * capacity t) ∧
     hashFunction t' = hashFunction t ∧
     compareFunction t' = compareFunction t ∧
     (length (entries t') ≤ length (entries t) + 1)%nat) ∧
  (∃ rc t' a',
     reHashTable t a = Ret (rc, t', a') ∧
     (rc = 0 ∨ rc = -2 ∧ t' = t ∨ rc = -3) ∧
     shape t' ∧ (∃ d, 0 <= d ∧ capacity t' = 2 ^ d * capacity t) ∧
     hashFunction t' = hashFunction t ∧
     compareFunction t' = compareFunction t ∧
     (length (entries t') ≤ length (entries t) + 0)%nat).
Proof.
  intros Hs Hpos.
  pose proof (Z.mod_pos_bound (size_wrap (hashFunction t k)) (capacity t) Hpos)
    as Hindex.
  destruct (array_bucket t (size_wrap (hashFunction t k) mod capacity t))
    as [l Hl]; [apply Hs|done|].
  split; [|split; [|split]].
  - unfold hasKey. destruct (k =? NULL); [eauto|].
    rewrite bucketIndex_mod by done. cbn [mbind outcome_bind].
    rewrite Hl. cbn [mbind outcome_bind]. eauto.
  - unfold removeElement. destruct (k =? NULL); [by exists NULL, t|].
    rewrite bucketIndex_mod by done. cbn [mbind outcome_bind].
    rewrite Hl. cbn [mbind outcome_bind].
    destruct (removeFromChain _ _ _) as [[old l']|]; [|by exists NULL, t].
    eexists _, _. split; [done|]. split; [by apply shape_updateTable|done].
  - destruct (insertElement_returns_aux (S (length (entries t))) t k v a)
      as (r & t' & a' & Hins & Hext); [lia|done..|].
    exists r, t', a'. split; [done|]. by apply (extends_facts 1 0 t).
  - destruct (reHashTableWith_returns insertElement (length (entries t))
                (λ t1 k1 v1 a1 Hlt,
                   insertElement_returns_aux _ t1 k1 v1 a1 Hlt) t a)
      as (rc & t' & a' & Hre & Hext & Hrc); [done|done|lia|].
    exists rc, t', a'. split; [done|]. split; [done|].
    by apply (extends_facts 0 0 t).
Qed.

(** ** The resize on its own *)

(** X10: when [reHashTable] returns 0 on a well-formed table, the new
    table is well formed, has the callbacks and exactly the elements of
    the old one, each in the bucket of its key for the new capacity, and
    [nbElements] is their number (modulo [2^64]); the capacity has been
    doubled, once if the elements are at most 0.700001 times the old
    capacity, and possibly more often otherwise. *)
Theorem reHashTable_keeps_entries t a t1 a1 :
  wf t → reHashTable t a = Ret (0, t1, a1) →
  wf t1 ∧ entries t1 ≡ₚ entries t ∧
  nbElements t1 = size_wrap (Z.of_nat (length (entries t))) ∧
  hashFunction t1 = hashFunction t ∧ compareFunction t1 = compareFunction t ∧
  (∃ d, 1 <= d ∧ capacity t1 = 2 ^ d * capacity t) ∧
  (1000000 * Z.of_nat (length (entries t)) <= 700001 * capacity t →
   capacity t1 = 2 * capacity t).
Proof.
  intros Hwf Hre.
  destruct (reHashTable_distinct (length (entries t))
              (λ t k v a r t' a' _, insertElement_fresh t k v a r t' a')
              t a t1 a1 (le_n _) Hwf Hre) as (Hwf1 & Hcnt1 & Hent1 & Hquiet).
  destruct (reHashTable_extends _ _ _ _ Hre) as [_ Hh Hc _ Hcap].
  split; [done|]. split; [done|]. split; [by rewrite Hcnt1, Hent1|].
  split; [done|]. split; [done|]. split; [apply Hcap, Hwf|].
  intros Hload. by apply Hquiet, load_quiet.
Qed.

(** ** The load-factor test for all sizes *)

(** X11: for every count and capacity that fit a [size_t] the
    single-precision test [(float)(nb + 1) / capacity - LOAD_FACTOR >
    FLT_EPSILON] fires when [(nb + 1) / capacity] is at least 0.700001 and
    does not fire when it is at most 0.6999995; up to 130 buckets and
    elements it is the exact comparison of [(nb + 1) / capacity] with
    0.7. *)
Theorem loadExceeded_thresholds nb cap :
  0 <= nb < 2 ^ 64 - 1 → 1 <= cap < 2 ^ 64 →
  (700001 * cap <= 1000000 * (nb + 1) → loadExceeded nb cap = true) ∧
  (2000000 * (nb + 1) <= 1399999 * cap → loadExceeded nb cap = false) ∧
  (nb < 130 → cap <= 130 → loadExceeded nb cap = (7 * cap <? 10 * (nb + 1))).
Proof.
  intros Hnb Hcap.
  assert (size_wrap (nb + 1) = nb + 1) as Hw by (apply size_wrap_small; lia).
  split; [|split].
  - intros H. apply loadExceeded_above; rewrite ?Hw; lia.
  - intros H. apply loadExceeded_below; rewrite ?Hw; lia.
  - intros Hn Hc. apply loadExceeded_exact; lia.
Qed.

(** ** Termination *)

(** X12: [insertElement] and [reHashTable], which call each other,
    terminate on every table: [insertElement] is called to a depth of at
    most the number of stored elements plus one, and more fuel does not
    change a result. *)
Theorem insertElement_terminates t k v a fuel :
  (length (entries t) < fuel)%nat →
  insertElementF fuel t k v a = insertElement t k v a ∧
  insertElement t k v a ≠ OutOfFuel ∧
  reHashTable t a ≠ OutOfFuel.
Proof.
  intros Hfuel. split; [by apply insertElementF_fuel|].
  split; [apply insertElement_total|].
  apply (reHashTableWith_fuel _ (length (entries t))); [| |done].
  - intros ? ? ? ? _. apply insertElement_total.
  - intros ? ? ? ? ? ? ? _. apply insertElement_extends_weak.
Qed.

(** ** Lookup by an equivalent key *)

(** X13: in a well-formed table a key that is equivalent to a stored key
    and hashes to the same bucket is contained, and removing it removes
    that stored element; [hasKey] and [removeElement] look at no other
    bucket. *)
Theorem hasKey_equivalent t e k :
  wf t → e ∈ entries t → k ≠ NULL →
  compareFunction t (key e) k = 0 →
  bucketIndex t k = bucketIndex t (key e) →
  hasKey t k = Ret true ∧
  ∃ x t', removeElement t k = Ret (value x, t') ∧
          x ∈ entries t ∧ compareFunction t (key x) k = 0 ∧
          entries t ≡ₚ x :: entries t'.
Proof.
  intros Hwf He Hk Hcmp Hsame.
  pose proof He as (i & l & Hi & Hel)%elem_of_entries.
  pose proof (wf_index _ Hwf _ _ _ Hi Hel) as Hindex.
  assert (bucket t (Z.of_nat i) = Ret l) as Hl
    by (apply bucket_Ret; by rewrite Nat2Z.id).
  assert (hasKey t k = Ret true) as Hhas.
  { unfold hasKey. destruct (Z.eqb_spec k NULL); [done|].
    rewrite Hsame, Hindex. cbn [mbind outcome_bind]. rewrite Hl.
    cbn [mbind outcome_bind]. f_equal. apply chainHasKey_true. eauto. }
  split; [done|].
  unfold removeElement. destruct (Z.eqb_spec k NULL); [done|].
  rewrite Hsame, Hindex. cbn [mbind outcome_bind]. rewrite Hl.
  cbn [mbind outcome_bind].
  destruct (removeFromChain_hasKey (compareFunction t) k l)
    as (r & l' & Hrem); [apply chainHasKey_true; eauto|].
  rewrite Hrem.
  apply removeFromChain_Some in Hrem as (l1 & x & l2 & -> & _ & Hx & -> & ->).
  destruct (wf_unlink t (Z.of_nat i) l1 x l2 (size_wrap (nbElements t - 1))
              Hwf Hl) as [_ Hperm].
  eexists x, _. split; [done|]. split; [|done].
  rewrite Hperm. by left.
Qed.

(** ** Inserting a new key and removing it again *)

(** X14: on a reached table, inserting a key that is not equivalent to a
    stored one and then removing it returns the inserted value and leaves
    the elements and the count the table had before the insertion; the
    key is not contained afterwards. The capacity is the one after the
    insertion: a resize is not undone. *)
Theorem removeElement_after_insertElement t k v a r t1 a1 :
  reachable t → fresh (compareFunction t) (entries t) k →
  compareFunction t k k = 0 →
  insertElement t k v a = Ret (r, t1, a1) → r ≠ NULL →
  ∃ t2,
    removeElement t1 k = Ret (v, t2) ∧
    entries t2 ≡ₚ entries t ∧
    getNumElements t2 = getNumElements t ∧
    capacity t2 = capacity t1 ∧
    hasKey t2 k = Ret false ∧
    reachable t2.
Proof.
  intros Hreach Hfresh Hrefl Hins Hr.
  destruct (reachable_wf _ Hreach) as (Hwf & Hnb & Hload & _).
  destruct (insertElement_load _ _ _ _ _ _ _ Hwf Hnb Hload Hfresh Hins Hr)
    as (Hwf1 & Hent1 & Hnb1 & Hload1).
  destruct (insertElement_extends _ _ _ _ _ _ _ Hins Hr) as [[_ _ Hc _ _] _].
  assert (mkElement k v ∈ entries t1) as He
    by (rewrite Hent1, elem_of_app, list_elem_of_singleton; by right).
  destruct (removeElement_entry t1 (mkElement k v) Hwf1 He)
    as (t2 & Hrem & Hwf2 & Hperm & Hnb2 & Hcap2 & _ & _ & Hnot).
  { cbn [key]. by rewrite Hc. }
  cbn [key value] in *.
  assert (entries t2 ≡ₚ entries t) as Hent2.
  { apply (Permutation_app_inv_r [mkElement k v]).
    rewrite <- Hent1, Hperm. by rewrite (comm (++)). }
  exists t2. repeat (split; [done|]). split; [|split; [done|split; [done|]]].
  - unfold getNumElements. rewrite Hnb2, Hnb1, Hnb, Hent1, length_app.
    cbn [length]. rewrite size_wrap_small; [lia|].
    destruct (wf_shape _ Hwf) as (Hc0 & Hc8 & _).
    unfold sizeof_ElementsArray, SIZE_MAX in Hc8. lia.
  - eapply reachable_remove; [|exact Hrem].
    by eapply reachable_insert.
Qed.

Lemma built_reachable t es : built t es → reachable t.
Proof.
  induction 1 as [cap h c a t a' Hcap Hcreate
                 |t es k v a r t' a' Hbuilt IH Hfresh Hins Hr].
  - by eapply reachable_create.
  - eapply reachable_insert; [done| |done..].
    destruct (built_wf _ _ Hbuilt) as (_ & _ & Hperm).
    intros x Hx. apply Hfresh. by rewrite <- Hperm.
Qed.

(** ** An allocation failure while the elements are moved *)

Lemma insertElement_refused t k v a a' :
  wf t → 0 < capacity t → k ≠ NULL → v ≠ NULL →
  fresh (compareFunction t) (entries t) k →
  loadExceeded (nbElements t) (capacity t) = false →
  malloc a = (false, a') →
  insertElement t k v a = Ret (NULL, t, a').
Proof.
  intros Hwf Hpos Hk Hv Hfresh Hload Hmalloc.
  rewrite insertElement_unfold. unfold insertBody, resizeStep.
  destruct (Z.eqb_spec k NULL) as [|_]; [done|].
  destruct (Z.eqb_spec v NULL) as [|_]; [done|].
  rewrite Hload. cbn [orb mbind outcome_bind Z.eqb]. unfold insertAtIndex.
  rewrite bucketIndex_mod by done. cbn [mbind outcome_bind].
  pose proof (Z.mod_pos_bound (size_wrap (hashFunction t k)) (capacity t) Hpos)
    as Hindex.
  destruct (array_bucket t (size_wrap (hashFunction t k) mod capacity t))
    as [l Hl]; [apply Hwf|done|].
  rewrite Hl. cbn [mbind outcome_bind].
  rewrite replaceInChain_None, Hmalloc; [done|].
  intros e He. apply Hfresh, elem_of_entries.
  apply bucket_Ret in Hl. eauto.
Qed.

(** The loop of [reHashTable] when the allocation of the element number
    [j] (from 0) is refused. *)
Lemma reinsertChain_refused j : ∀ rest t a',
  (j < length rest)%nat →
  wf t → counted t → 0 < capacity t →
  distinctKeys (compareFunction t) (entries t ++ rest) →
  (∀ e, e ∈ rest → key e ≠ NULL ∧ value e ≠ NULL) →
  (∀ i, (length (entries t) ≤ i < length (entries t) + length rest)%nat →
        loadExceeded (size_wrap (Z.of_nat i)) (capacity t) = false) →
  ∃ t',
    reinsertChain insertElement rest t (replicate j true ++ false :: a')
      = Ret (false, t', a') ∧
    wf t' ∧ counted t' ∧ entries t' ≡ₚ entries t ++ take j rest ∧
    capacity t' = capacity t.
Proof.
  induction j as [|j IH]; intros rest t a' Hj Hwf Hcnt Hpos Hdist Hnn Hquiet;
    (destruct rest as [|e rest]; cbn [length] in Hj; [lia|]).
  - cbn [replicate app take]. exists t. rewrite (right_id_L [] (++)).
    split; [|done]. cbn [reinsertChain].
    destruct (Hnn e) as [Hk Hv]; [by left|].
    rewrite (insertElement_refused t (key e) (value e) (false :: a') a');
      try done.
    + by eapply distinctKeys_middle.
    + rewrite Hcnt. apply Hquiet. cbn [length]. lia.
  - cbn [replicate app take].
    destruct (Hnn e) as [Hk Hv]; [by left|].
    assert (fresh (compareFunction t) (entries t) (key e)) as Hfresh
      by (by eapply distinctKeys_middle).
    assert (loadExceeded (nbElements t) (capacity t) = false) as Hload.
    { rewrite Hcnt. apply Hquiet. cbn [length]. lia. }
    destruct (insertElement_quiet t (key e) (value e)
                (true :: replicate j true ++ false :: a')
                (replicate j true ++ false :: a')) as [t1 Hins]; try done.
    destruct (insertElement_fresh _ _ _ _ _ _ _ Hwf Hfresh Hins
                INSERTED_not_NULL) as [_ Hwf1 Hent1 Hcnt1 _].
    destruct (insertElement_extends _ _ _ _ _ _ _ Hins INSERTED_not_NULL)
      as [[_ _ Hc1 _ _] Hsame].
    specialize (Hsame Hload). specialize (Hcnt1 Hcnt).
    assert (mkElement (key e) (value e) = e) as Heq by by destruct e.
    rewrite Heq in Hent1.
    destruct (IH rest t1 a') as (t' & Hloop & Hwf' & Hcnt' & Hent' & Hcap');
      try done.
    + lia.
    + lia.
    + rewrite Hc1. eapply distinctKeys_perm; [|exact Hdist].
      by rewrite Hent1, <- (assoc_L (++)).
    + intros x Hx. apply Hnn. by right.
    + intros i Hi. rewrite Hsame. apply Hquiet.
      apply Permutation_length in Hent1. rewrite length_app in Hent1.
      cbn [length] in *. lia.
    + exists t'. cbn [reinsertChain]. rewrite Hins.
      cbn [mbind outcome_bind]. rewrite Hloop.
      split; [done|]. split; [done|]. split; [done|]. split; [|congruence].
      by rewrite Hent', Hent1, <- (assoc_L (++)).
Qed.

(** X15: when the table is resized and, while the elements are moved to
    the doubled array, the allocation for the element number [j] is
    refused, [insertElement] returns [NULL] and leaves a table of the
    doubled capacity that holds only the [j] elements moved so far: the
    other elements are no longer in the table. *)
Theorem insertElement_refused_while_moving t k v j a' :
  reachable t → 0 < capacity t → k ≠ NULL → v ≠ NULL →
  loadExceeded (nbElements t) (capacity t) = true →
  2 * capacity t * sizeof_ElementsArray <= SIZE_MAX →
  (j < length (entries t))%nat →
  ∃ t',
    insertElement t k v (true :: replicate j true ++ false :: a')
      = Ret (NULL, t', a') ∧
    capacity t' = 2 * capacity t ∧
    entries t' ≡ₚ take j (entries t) ∧
    getNumElements t' = Z.of_nat j ∧
    wf t'.
Proof.
  intros Hreach Hpos Hk Hv Htest Hfit Hj.
  destruct (reachable_wf _ Hreach) as (Hwf & Hnb & Hload & Hval).
  destruct (wf_shape _ Hwf) as (Hc0 & Hc8 & Hlen).
  unfold sizeof_ElementsArray, SIZE_MAX in Hc8, Hfit.
  assert (size_wrap (capacity t * 2) = 2 * capacity t) as Hcap
    by (rewrite size_wrap_small; lia).
  set (a0 := replicate j true ++ false :: a').
  assert (calloc (size_wrap (capacity t * 2)) (true :: a0)
          = (Some (replicate (Z.to_nat (size_wrap (capacity t * 2))) []), a0))
    as Hc.
  { unfold calloc. cbn [malloc andb].
    destruct (Z.leb_spec (size_wrap (capacity t * 2) * sizeof_ElementsArray)
                SIZE_MAX) as [|Hbig]; [done|].
    unfold sizeof_ElementsArray, SIZE_MAX in Hbig. lia. }
  destruct (wf_empty _ _ _ _ (hashFunction t) (compareFunction t)
              (proj1 (size_wrap_range _)) Hc) as (Hwf0 & Hcnt0 & Hnil0).
  set (t0 := mkHashTable _ _ 0 _ _) in *.
  destruct (reinsertChain_refused j (entries t) t0 a')
    as (t' & Hloop & Hwf' & Hcnt' & Hent' & Hcap'); try done.
  { subst t0. cbn [capacity]. lia. }
  { rewrite Hnil0. apply Hwf. }
  { intros e He. split; [by apply (wf_keys _ Hwf)|by apply Hval]. }
  { intros i Hi. rewrite Hnil0 in Hi. cbn [length] in Hi.
    subst t0. cbn [capacity]. rewrite Hcap.
    apply (load_quiet t Hwf Hload). lia. }
  rewrite Hnil0 in Hent'. cbn [app] in Hent'.
  exists t'. split; [|split; [|split; [done|split; [|done]]]].
  - rewrite insertElement_unfold. unfold insertBody, resizeStep.
    destruct (Z.eqb_spec k NULL); [done|]. destruct (Z.eqb_spec v NULL); [done|].
    cbn [orb]. rewrite Htest. unfold reHashTable, reHashTableWith.
    rewrite Hc. rewrite reinsertBuckets_concat.
    replace (concat (take _ _)) with (entries t); cycle 1.
    { unfold entries. rewrite take_ge; [done|lia]. }
    fold t0. subst a0. rewrite Hloop. done.
  - rewrite Hcap'. subst t0. cbn [capacity]. done.
  - unfold getNumElements. rewrite Hcnt', Hent', length_take.
    rewrite size_wrap_small; lia.
Qed.

(** ** A key that is not stored *)

(** X16: when no stored element of the bucket array has a key equivalent
    to [k], the key is not contained and removing it returns [NULL] and
    leaves the table as it is (on a table whose bucket array has its
    [capacity > 0] slots). *)
Theorem hasKey_missing t k :
  shape t → 0 < capacity t →
  (∀ e, e ∈ entries t → compareFunction t (key e) k ≠ 0) →
  hasKey t k = Ret false ∧ removeElement t k = Ret (NULL, t).
Proof.
  intros Hs Hpos Hno.
  pose proof (Z.mod_pos_bound (size_wrap (hashFunction t k)) (capacity t) Hpos)
    as Hindex.
  destruct (array_bucket t (size_wrap (hashFunction t k) mod capacity t))
    as [l Hl]; [apply Hs|done|].
  assert (∀ e, e ∈ l → compareFunction t (key e) k ≠ 0) as Hl'.
  { intros e He. apply Hno, elem_of_entries. apply bucket_Ret in Hl. eauto. }
  split.
  - unfold hasKey. destruct (k =? NULL); [done|].
    rewrite bucketIndex_mod by done. cbn [mbind outcome_bind].
    rewrite Hl. cbn [mbind outcome_bind]. f_equal.
    by apply chainHasKey_false.
  - unfold removeElement. destruct (k =? NULL); [done|].
    rewrite bucketIndex_mod by done. cbn [mbind outcome_bind].
    rewrite Hl. cbn [mbind outcome_bind]. by rewrite removeFromChain_None.
Qed.

(** ** Runs of the test harness *)

Module Runs.
Import Harness.

(** C1 (the code departs from it): in a table of capacity 4 a second
    insertion of the same key does not find the element, which is the
    last of its chain: it returns [(void* )-1] and not the first value,
    appends a second element, and removing the key then yields the first
    value, not the second. *)
Theorem insertElement_skips_last_element :
  ∃ t0 t1 t2,
    create 4 = Some t0 ∧
    insertElement t0 (keyPtr 1) (valPtr 1) [] = Ret (INSERTED, t1, []) ∧
    insertElement t1 (keyPtr 1) (valPtr 2) [] = Ret (INSERTED, t2, []) ∧
    INSERTED ≠ valPtr 1 ∧
    elementsArray t2 = [[]; [entry 1 1; entry 1 2]; []; []] ∧
    removeElement t2 (keyPtr 1)
      = Ret (valPtr 1, table 4 [[]; [entry 1 2]; []; []] 1).
Proof. eexists _, _, _. repeat split; try reflexivity. discriminate. Qed.

(** C2 (the code departs from it): after the two insertions of one key
    the chain of bucket 1 holds two elements with equivalent keys. *)
Theorem chain_with_equivalent_keys :
  ∃ t0 rs t2 e1 e2,
    create 4 = Some t0 ∧
    insertAll t0 [(keyPtr 1, valPtr 1); (keyPtr 1, valPtr 2)] []
      = Ret (rs, t2, []) ∧
    elementsArray t2 !! 1%nat = Some [e1; e2] ∧
    compareFunction t2 (key e1) (key e2) = 0.
Proof. eexists _, _, _, _, _. repeat split; reflexivity. Qed.

(** C3 (the code departs from it): in a table of capacity 10 the keys 1
    and 11 share bucket 1; inserting key 1 again replaces its value and
    still increments the count, which is then 3 for 2 elements. *)
Theorem nbElements_incremented_on_replace :
  ∃ t0 t3,
    create 10 = Some t0 ∧
    insertAll t0 [(keyPtr 1, valPtr 1); (keyPtr 11, valPtr 2);
                  (keyPtr 1, valPtr 3)] []
      = Ret ([INSERTED; INSERTED; valPtr 1], t3, []) ∧
    entries t3 = [entry 1 3; entry 11 2] ∧
    getNumElements t3 = 3 ∧
    length (entries t3) = 2%nat.
Proof. eexists _, _. repeat split; reflexivity. Qed.

(** C8 (the code departs from it): on the table that already holds key 1
    as the last element of its chain, inserting key 1 succeeds, removing
    it decrements the count, and the key is still contained. *)
Theorem hasKey_after_insert_and_remove :
  ∃ t0 t1 t2 t3,
    create 4 = Some t0 ∧
    insertElement t0 (keyPtr 1) (valPtr 1) [] = Ret (INSERTED, t1, []) ∧
    insertElement t1 (keyPtr 1) (valPtr 2) [] = Ret (INSERTED, t2, []) ∧
    removeElement t2 (keyPtr 1) = Ret (valPtr 1, t3) ∧
    getNumElements t3 = getNumElements t2 - 1 ∧
    hasKey t3 (keyPtr 1) = Ret true.
Proof. eexists _, _, _, _. repeat split; reflexivity. Qed.

(** The table of capacity 4 that holds the keys 0 and 1. *)
Lemma built_two :
  built (table 4 [[entry 0 0]; [entry 1 1]; []; []] 2) [entry 0 0; entry 1 1].
Proof.
  assert (∀ k, fresh compareInt [] k) as Hnil
    by (intros k x Hx; by apply elem_of_nil in Hx).
  eapply (built_insert _ [entry 0 0] (keyPtr 1) (valPtr 1) [] INSERTED);
    [eapply (built_insert _ [] (keyPtr 0) (valPtr 0) [] INSERTED);
      [eapply (built_create 4 hashInt compareInt []); [lia|reflexivity]
      |apply Hnil|reflexivity|discriminate]
    | |reflexivity|discriminate].
  intros x Hx. apply list_elem_of_singleton in Hx. subst x.
  split; discriminate.
Qed.

(** C7, counterexample: the table of capacity 4 with the keys 0 and 1 is
    resized by the insertion of key 2; the allocations of the new array
    and of the two re-inserted elements succeed, the allocation of the
    new element fails: the insertion returns [NULL] and leaves a table of
    capacity 8 with other chains. *)
Lemma insertElement_fails_after_resize :
  let t := table 4 [[entry 0 0]; [entry 1 1]; []; []] 2 in
  ∃ t',
    insertElement t (keyPtr 2) (valPtr 2) [true; true; true; false]
      = Ret (NULL, t', []) ∧
    capacity t = 4 ∧ capacity t' = 8 ∧
    elementsArray t' ≠ elementsArray t.
Proof. eexists. repeat split; try reflexivity. discriminate. Qed.

Lemma firstEntries_S n :
  firstEntries (S n) = firstEntries n ++ [entry (Z.of_nat n) (Z.of_nat n)].
Proof. unfold firstEntries. by rewrite seq_S, map_app. Qed.

Lemma fresh_firstEntries n :
  fresh compareInt (firstEntries n) (keyPtr (Z.of_nat n)).
Proof.
  intros x (i & -> & Hi%elem_of_seq)%list_elem_of_fmap.
  unfold apart, compareInt, intAt, entry. cbn [key]. unfold keyPtr, keysBase.
  replace (4096 + 4 * Z.of_nat i - 4096) with (Z.of_nat i * 4) by lia.
  replace (4096 + 4 * Z.of_nat n - 4096) with (Z.of_nat n * 4) by lia.
  rewrite !Z.div_mul by done. lia.
Qed.

(** A table of 800007 buckets takes the keys 0, ..., 560003, one after
    the other, without being resized. *)
Lemma built_firstEntries n :
  (n ≤ Z.to_nat 560004)%nat →
  ∃ t, built t (firstEntries n) ∧ capacity t = 800007 ∧
       compareFunction t = compareInt.
Proof.
  induction n as [|n IH]; intros Hn.
  - exists (mkHashTable 800007 (replicate (Z.to_nat 800007) []) 0
                         hashInt compareInt).
    split; [|done].
    apply (built_create 800007 hashInt compareInt [] _ []); [lia|].
    reflexivity.
  - destruct IH as (t & Hbuilt & Hcap & Hcmp); [lia|].
    destruct (built_wf _ _ Hbuilt) as (Hwf & _ & Hperm).
    pose proof (built_nbElements _ _ Hbuilt) as Hnb.
    unfold firstEntries in Hnb. rewrite length_map, length_seq in Hnb.
    assert (fresh (compareFunction t) (firstEntries n) (keyPtr (Z.of_nat n)))
      as Hfresh by (rewrite Hcmp; apply fresh_firstEntries).
    destruct (insertElement_quiet t (keyPtr (Z.of_nat n)) (valPtr (Z.of_nat n))
                [] []) as [t' Hins]; try done.
    + lia.
    + unfold keyPtr, keysBase, NULL. lia.
    + unfold valPtr, NULL. lia.
    + intros x Hx. apply Hfresh. by rewrite <- Hperm.
    + rewrite Hnb, Hcap.
      apply loadExceeded_below; rewrite ?size_wrap_small; lia.
    + destruct (insertElement_extends _ _ _ _ _ _ _ Hins INSERTED_not_NULL)
        as [Hext Hsame].
      exists t'. rewrite firstEntries_S. split; [|split].
      * eapply built_insert; [done..|apply INSERTED_not_NULL].
      * rewrite Hsame, ?Hcap; [done|]. rewrite Hnb, Hcap.
        apply loadExceeded_below; rewrite ?size_wrap_small; lia.
      * by rewrite (ext_compare _ _ _ _ Hext).
Qed.

(** C4, counterexample: with 560004 elements in 800007 buckets the next
    insertion has the load factor [560005 / 800007], which is above 0.7,
    by more than [2^-23] even; the single-precision quotient is
    [0.7f + 2^-23], its distance to [0.7f] is not greater than
    [FLT_EPSILON], and the insertion succeeds without resizing the
    table. *)
Lemma insertElement_above_threshold_no_resize :
  ∃ t t',
    built t (firstEntries (Z.to_nat 560004)) ∧
    fresh (compareFunction t) (firstEntries (Z.to_nat 560004)) (keyPtr 560004) ∧
    capacity t = 800007 ∧ nbElements t = 560004 ∧
    7 * capacity t < 10 * (nbElements t + 1) ∧
    10 * capacity t < 2 ^ 23 * (10 * (nbElements t + 1) - 7 * capacity t) ∧
    insertElement t (keyPtr 560004) (valPtr 560004) []
      = Ret (INSERTED, t', []) ∧
    capacity t' = capacity t ∧ capacity t' ≠ 2 * capacity t.
Proof.
  destruct (built_firstEntries (Z.to_nat 560004)) as (t & Hbuilt & Hcap & Hcmp);
    [done|].
  destruct (built_wf _ _ Hbuilt) as (Hwf & _ & Hperm).
  pose proof (built_nbElements _ _ Hbuilt) as Hnb.
  unfold firstEntries in Hnb. rewrite length_map, length_seq in Hnb.
  rewrite Z2Nat.id in Hnb by lia.
  pose proof (fresh_firstEntries (Z.to_nat 560004)) as Hfresh.
  rewrite Z2Nat.id, <- Hcmp in Hfresh by lia.
  assert (loadExceeded (nbElements t) (capacity t) = false) as Hload
    by (rewrite Hnb, Hcap; vm_compute; reflexivity).
  destruct (insertElement_quiet t (keyPtr 560004) (valPtr 560004) [] [])
    as [t' Hins]; try done.
  { lia. }
  { intros x Hx. apply Hfresh. by rewrite <- Hperm. }
  destruct (insertElement_extends _ _ _ _ _ _ _ Hins INSERTED_not_NULL)
    as [_ Hsame].
  exists t, t'. split; [done|]. split; [done|]. rewrite Hnb, Hcap.
  split; [done|]. split; [done|]. split; [lia|]. split; [lia|].
  split; [done|]. rewrite Hsame, ?Hcap; done.
Qed.


Lemma compareInt_refl k : compareInt k k = 0.
Proof. unfold compareInt. lia. Qed.

(** The growth theorem at the insertion of key 2 into the table of
    capacity 4 that holds the keys 0 and 1. *)
Lemma insertElement_resize_keeps_entries_witness :
  let t2 := table 4 [[entry 0 0]; [entry 1 1]; []; []] 2 in
  let t3 := table 8 [[entry 0 0]; [entry 1 1]; [entry 2 2]; []; []; []; []; []] 3 in
  built t2 [entry 0 0; entry 1 1] ∧
  insertElement t2 (keyPtr 2) (valPtr 2) [] = Ret (INSERTED, t3, []) ∧
  capacity t3 = 2 * capacity t2 ∧
  (∀ e, e ∈ [entry 0 0; entry 1 1] ++ [entry 2 2] →
        hasKey t3 (key e) = Ret true).
Proof.
  intros t2 t3. pose proof built_two as Hb.
  assert (fresh (compareFunction t2) [entry 0 0; entry 1 1] (keyPtr 2))
    as Hfresh.
  { intros x Hx. apply elem_of_cons in Hx as [->|Hx];
      [split; discriminate|].
    apply list_elem_of_singleton in Hx. subst x. split; discriminate. }
  destruct (proj1 insertElement_resize_keeps_entries t2 _ Hb compareInt_refl)
    as (_ & _ & _ & Hstep).
  destruct (Hstep (keyPtr 2) (valPtr 2) [] INSERTED t3 [] Hfresh eq_refl
                  INSERTED_not_NULL) as (_ & _ & Hfires & _ & _ & _ & Hhas).
  split; [exact Hb|]. split; [reflexivity|]. split; [|exact Hhas].
  apply Hfires. cbn. lia.
Defined.

(** Key 5 in a table of capacity 4. *)
Lemma bucketIndex_hash_mod_capacity_witness :
  let t := table 4 [[]; []; []; []] 0 in
  0 < capacity t ∧ bucketIndex t (keyPtr 5) = Ret 1.
Proof.
  intros t. assert (0 < capacity t) as Hcap by (cbn; lia).
  split; [exact Hcap|].
  exact (proj1 (bucketIndex_hash_mod_capacity t (keyPtr 5) Hcap)).
Defined.

(** Removing key 5, the second element of the chain of bucket 1. *)
Lemma removeElement_unlinks_first_witness :
  let t := table 4 [[]; [entry 1 1; entry 5 5]; []; []] 2 in
  keyPtr 5 ≠ NULL ∧ 0 < capacity t ∧
  length (elementsArray t) = Z.to_nat (capacity t) ∧
  removeElement t (keyPtr 5)
    = Ret (valPtr 5, table 4 [[]; [entry 1 1]; []; []] 1).
Proof.
  intros t. assert (keyPtr 5 ≠ NULL) as Hk by discriminate.
  assert (0 < capacity t) as Hcap by (cbn; lia).
  assert (length (elementsArray t) = Z.to_nat (capacity t)) as Hlen
    by reflexivity.
  split; [exact Hk|]. split; [exact Hcap|]. split; [exact Hlen|].
  destruct (removeElement_unlinks_first t (keyPtr 5) Hk Hcap Hlen)
    as (l & Hl & Hfound & _).
  injection Hl as <-.
  refine (proj1 (Hfound [entry 1 1] (entry 5 5) [] eq_refl _ eq_refl)).
  intros x Hx. apply list_elem_of_singleton in Hx. subst x. discriminate.
Defined.


(** The doubled array cannot be allocated; the element cannot be
    allocated in a table that is not resized. *)
Lemma insertElement_allocation_failure_witness :
  let t2 := table 4 [[entry 0 0]; [entry 1 1]; []; []] 2 in
  let t1 := table 4 [[]; [entry 1 1]; []; []] 1 in
  insertElement t2 (keyPtr 2) (valPtr 2) [false] = Ret (NULL, t2, []) ∧
  insertElement t1 (keyPtr 5) (valPtr 5) [false] = Ret (NULL, t1, []).
Proof.
  intros t2 t1.
  assert (∀ i, keyPtr (Z.pos i) ≠ NULL ∧ valPtr (Z.pos i) ≠ NULL) as Hnn
    by (intros i; split; discriminate).
  split.
  - exact (proj1 (insertElement_allocation_failure t2 (keyPtr 2) (valPtr 2)
                    [false] [] (proj1 (Hnn 2%positive)) (proj2 (Hnn 2%positive)))
                 eq_refl eq_refl).
  - exact (proj2 (insertElement_allocation_failure t1 (keyPtr 5) (valPtr 5)
                    [false] [] (proj1 (Hnn 5%positive)) (proj2 (Hnn 5%positive)))
                 eq_refl 1 [entry 1 1] eq_refl eq_refl eq_refl eq_refl).
Defined.

(** Creation with capacity 0 and the first insertion. *)
Lemma createHashTable_zero_capacity_witness :
  insertElement (table 0 [] 0) (keyPtr 1) (valPtr 1) [] = Fault DivisionByZero.
Proof.
  destruct (createHashTable_zero_capacity hashInt compareInt [] [] []
              eq_refl eq_refl) as (t & Hcreate & _ & Hops).
  injection Hcreate as <-.
  assert (keyPtr 1 ≠ NULL) as Hk by discriminate.
  assert (valPtr 1 ≠ NULL) as Hv by discriminate.
  destruct (Hops (keyPtr 1) Hk) as (_ & _ & _ & Hins).
  exact (Hins (valPtr 1) [] [] Hv eq_refl).
Defined.

End Runs.

(** ** Runs for the further properties *)

Module Examples.
Import Harness.

Lemma wf_two : wf (table 4 [[entry 0 0]; [entry 1 1]; []; []] 2).
Proof. apply (built_wf _ _ Runs.built_two). Qed.

Lemma reachable_two : reachable (table 4 [[entry 0 0]; [entry 1 1]; []; []] 2).
Proof. apply (built_reachable _ _ Runs.built_two). Qed.

Lemma fresh_two :
  fresh compareInt [entry 0 0; entry 1 1] (keyPtr 2).
Proof.
  intros x Hx. apply elem_of_cons in Hx as [->|Hx]; [split; discriminate|].
  apply list_elem_of_singleton in Hx. subst x. split; discriminate.
Qed.

Lemma shape_two : shape (table 4 [[entry 0 0]; [entry 1 1]; []; []] 2).
Proof. apply wf_two. Qed.

(** A table of four buckets is created. *)
Lemma createHashTable_empty_witness :
  0 <= 4 ∧
  createHashTable 4 (Some hashInt) (Some compareInt) []
    = (Some (table 4 [[]; []; []; []] 0), []) ∧
  hasKey (table 4 [[]; []; []; []] 0) (keyPtr 1) = Ret false.
Proof.
  assert (0 <= 4) as Hcap by lia.
  split; [exact Hcap|]. split; [reflexivity|].
  destruct (createHashTable_empty 4 (Some hashInt) (Some compareInt) [] _ _
              Hcap eq_refl) as (_ & Hsome & _).
  destruct (Hsome _ eq_refl) as (h & c & a1 & _ & _ & _ & _ & _ & _ & _ & _ &
                                 _ & Hempty).
  assert (0 < 4) as Hpos by lia.
  exact (proj1 (Hempty Hpos (keyPtr 1))).
Defined.

(** Key 5 is contained after its insertion behind key 1. *)
Lemma hasKey_after_insertElement_witness :
  let t := table 4 [[]; [entry 1 1]; []; []] 1 in
  let t' := table 4 [[]; [entry 1 1; entry 5 5]; []; []] 2 in
  compareFunction t (keyPtr 5) (keyPtr 5) = 0 ∧
  insertElement t (keyPtr 5) (valPtr 5) [] = Ret (INSERTED, t', []) ∧
  INSERTED ≠ NULL ∧
  hasKey t' (keyPtr 5) = Ret true.
Proof.
  intros t t'.
  assert (compareFunction t (keyPtr 5) (keyPtr 5) = 0) as Hrefl by reflexivity.
  assert (insertElement t (keyPtr 5) (valPtr 5) [] = Ret (INSERTED, t', []))
    as Hins by reflexivity.
  assert (INSERTED ≠ NULL) as Hr by discriminate.
  split; [exact Hrefl|]. split; [exact Hins|]. split; [exact Hr|].
  exact (hasKey_after_insertElement t (keyPtr 5) (valPtr 5) [] INSERTED t' []
           Hrefl Hins Hr).
Defined.

(** Key 1, followed by key 11 in bucket 1 of ten, gets a new value. *)
Lemma insertElement_replaces_witness :
  let t := table 10 [[]; [entry 1 1; entry 11 2]; []; []; []; []; []; []; []; []]
                 2 in
  insertElement t (keyPtr 1) (valPtr 3) []
    = Ret (valPtr 1,
           table 10 [[]; [entry 1 3; entry 11 2]; []; []; []; []; []; []; []; []]
                 3,
           []).
Proof.
  intros t.
  assert (keyPtr 1 ≠ NULL) as Hk by discriminate.
  assert (valPtr 3 ≠ NULL) as Hv by discriminate.
  refine (proj1 (proj1 (insertElement_replaces t (keyPtr 1) (valPtr 3) []
                          Hk Hv)
                   eq_refl 1 [] (entry 1 1) (entry 11 2) [] eq_refl eq_refl
                   _ eq_refl)).
  intros x Hx. by apply elem_of_nil in Hx.
Defined.

(** Key 1 is the last element of its chain and is inserted again. *)
Lemma insertElement_ignores_last_witness :
  let t := table 4 [[]; [entry 1 1]; []; []] 1 in
  ∃ t', insertElement t (keyPtr 1) (valPtr 2) [] = Ret (INSERTED, t', []) ∧
        bucket t' 1 = Ret [entry 1 1; entry 1 2].
Proof.
  intros t.
  destruct (insertElement_ignores_last t (keyPtr 1) (valPtr 2) [] t [] 1
              [] (entry 1 1) []) as (t' & Hins & Hl & _);
    [discriminate|discriminate|reflexivity|reflexivity|reflexivity| |
     reflexivity|].
  - intros x Hx. by apply elem_of_nil in Hx.
  - exists t'. split; [exact Hins|exact Hl].
Defined.

(** Key 1 is removed from the table that holds the keys 0 and 1. *)
Lemma removeElement_stored_witness :
  let t := table 4 [[entry 0 0]; [entry 1 1]; []; []] 2 in
  wf t ∧ entry 1 1 ∈ entries t ∧
  ∃ t', removeElement t (keyPtr 1) = Ret (valPtr 1, t') ∧
        hasKey t' (keyPtr 1) = Ret false.
Proof.
  intros t.
  assert (entry 1 1 ∈ entries t) as He.
  { apply elem_of_cons. right. apply elem_of_cons. by left. }
  split; [exact wf_two|]. split; [exact He|].
  destruct (removeElement_stored t (entry 1 1) wf_two He)
    as (t' & Hrem & _ & _ & _ & Hnot & _).
  - intros x _. apply Runs.compareInt_refl.
  - exists t'. split; [exact Hrem|exact Hnot].
Defined.

(** The table that holds the keys 0 and 1 after two insertions. *)
Lemma reachable_invariant_witness :
  let t := table 4 [[entry 0 0]; [entry 1 1]; []; []] 2 in
  reachable t ∧ getNumElements t = Z.of_nat (length (entries t)).
Proof.
  intros t. split; [exact reachable_two|].
  exact (proj1 (proj2 (proj2 (reachable_invariant t reachable_two)))).
Defined.

(** Key 2 is inserted into that table, which is resized. *)
Lemma insertElement_succeeds_witness :
  let t := table 4 [[entry 0 0]; [entry 1 1]; []; []] 2 in
  reachable t ∧ 0 < capacity t ∧ keyPtr 2 ≠ NULL ∧ valPtr 2 ≠ NULL ∧
  fresh (compareFunction t) (entries t) (keyPtr 2) ∧
  ∃ t' a', insertElement t (keyPtr 2) (valPtr 2) [] = Ret (INSERTED, t', a') ∧
           capacity t' = 8.
Proof.
  intros t.
  assert (0 < capacity t) as Hpos by (cbn; lia).
  assert (keyPtr 2 ≠ NULL) as Hk by discriminate.
  assert (valPtr 2 ≠ NULL) as Hv by discriminate.
  assert (∀ b : bool, b ∈ ([] : list bool) → b = true) as Ha
    by (intros b Hb; by apply elem_of_nil in Hb).
  assert (loadExceeded (nbElements t) (capacity t) = true →
          2 * capacity t * sizeof_ElementsArray <= SIZE_MAX) as Hfit
    by (intros _; unfold sizeof_ElementsArray, SIZE_MAX; cbn; lia).
  split; [exact reachable_two|]. split; [exact Hpos|]. split; [exact Hk|].
  split; [exact Hv|]. split; [exact fresh_two|].
  destruct (insertElement_succeeds t (keyPtr 2) (valPtr 2) [] reachable_two
              Hpos Hk Hv fresh_two Ha Hfit) as (t' & a' & Hins & Hcap & _).
  exists t', a'. split; [exact Hins|]. rewrite Hcap. reflexivity.
Defined.

(** The operations on that table return. *)
Lemma operations_return_witness :
  let t := table 4 [[entry 0 0]; [entry 1 1]; []; []] 2 in
  shape t ∧ 0 < capacity t ∧ ∃ b, hasKey t (keyPtr 7) = Ret b.
Proof.
  intros t. assert (0 < capacity t) as Hpos by (cbn; lia).
  split; [exact shape_two|]. split; [exact Hpos|].
  exact (proj1 (operations_return t (keyPtr 7) (valPtr 7) [] shape_two Hpos)).
Defined.

(** That table is resized to eight buckets. *)
Lemma reHashTable_keeps_entries_witness :
  let t := table 4 [[entry 0 0]; [entry 1 1]; []; []] 2 in
  let t1 := table 8 [[entry 0 0]; [entry 1 1]; []; []; []; []; []; []] 2 in
  wf t ∧ reHashTable t [] = Ret (0, t1, []) ∧
  wf t1 ∧ entries t1 ≡ₚ entries t.
Proof.
  intros t t1.
  assert (reHashTable t [] = Ret (0, t1, [])) as Hre by reflexivity.
  split; [exact wf_two|]. split; [exact Hre|].
  destruct (reHashTable_keeps_entries t [] t1 [] wf_two Hre)
    as (Hwf1 & Hent & _).
  split; [exact Hwf1|exact Hent].
Defined.

(** Three elements for four buckets. *)
Lemma loadExceeded_thresholds_witness :
  0 <= 2 < 2 ^ 64 - 1 ∧ 1 <= 4 < 2 ^ 64 ∧ loadExceeded 2 4 = true.
Proof.
  assert (0 <= 2 < 2 ^ 64 - 1) as Hnb by lia.
  assert (1 <= 4 < 2 ^ 64) as Hcap by lia.
  split; [exact Hnb|]. split; [exact Hcap|].
  apply (proj1 (loadExceeded_thresholds 2 4 Hnb Hcap)). lia.
Defined.

(** The insertion that resizes the table with two elements needs no more
    than three nested calls. *)
Lemma insertElement_terminates_witness :
  let t := table 4 [[entry 0 0]; [entry 1 1]; []; []] 2 in
  (length (entries t) < 3)%nat ∧
  insertElementF 3 t (keyPtr 2) (valPtr 2) []
    = insertElement t (keyPtr 2) (valPtr 2) [].
Proof.
  intros t. assert (length (entries t) < 3)%nat as Hfuel by (cbn; lia).
  split; [exact Hfuel|].
  exact (proj1 (insertElement_terminates t (keyPtr 2) (valPtr 2) [] 3 Hfuel)).
Defined.

(** Key 1 is looked up in the table that holds the keys 0 and 1. *)
Lemma hasKey_equivalent_witness :
  let t := table 4 [[entry 0 0]; [entry 1 1]; []; []] 2 in
  wf t ∧ entry 1 1 ∈ entries t ∧ keyPtr 1 ≠ NULL ∧
  hasKey t (keyPtr 1) = Ret true.
Proof.
  intros t.
  assert (entry 1 1 ∈ entries t) as He.
  { apply elem_of_cons. right. apply elem_of_cons. by left. }
  assert (keyPtr 1 ≠ NULL) as Hk by discriminate.
  split; [exact wf_two|]. split; [exact He|]. split; [exact Hk|].
  exact (proj1 (hasKey_equivalent t (entry 1 1) (keyPtr 1) wf_two He Hk
                  eq_refl eq_refl)).
Defined.

(** Key 2 is inserted into that table and removed again. *)
Lemma removeElement_after_insertElement_witness :
  let t := table 4 [[entry 0 0]; [entry 1 1]; []; []] 2 in
  let t1 := table 8 [[entry 0 0]; [entry 1 1]; [entry 2 2]; []; []; []; []; []]
                  3 in
  reachable t ∧
  insertElement t (keyPtr 2) (valPtr 2) [] = Ret (INSERTED, t1, []) ∧
  ∃ t2, removeElement t1 (keyPtr 2) = Ret (valPtr 2, t2) ∧
        getNumElements t2 = 2 ∧ hasKey t2 (keyPtr 2) = Ret false.
Proof.
  intros t t1.
  assert (insertElement t (keyPtr 2) (valPtr 2) [] = Ret (INSERTED, t1, []))
    as Hins by reflexivity.
  split; [exact reachable_two|]. split; [exact Hins|].
  destruct (removeElement_after_insertElement t (keyPtr 2) (valPtr 2) []
              INSERTED t1 [] reachable_two fresh_two eq_refl Hins
              INSERTED_not_NULL) as (t2 & Hrem & _ & Hnb & _ & Hnot & _).
  exists t2. split; [exact Hrem|]. split; [exact Hnb|exact Hnot].
Defined.

(** The second of the two elements cannot be moved to the new array. *)
Lemma insertElement_refused_while_moving_witness :
  let t := table 4 [[entry 0 0]; [entry 1 1]; []; []] 2 in
  reachable t ∧ loadExceeded (nbElements t) (capacity t) = true ∧
  ∃ t', insertElement t (keyPtr 2) (valPtr 2) [true; true; false]
          = Ret (NULL, t', []) ∧
        entries t' ≡ₚ [entry 0 0] ∧ capacity t' = 8.
Proof.
  intros t.
  assert (loadExceeded (nbElements t) (capacity t) = true) as Htest
    by reflexivity.
  assert (0 < capacity t) as Hpos by (cbn; lia).
  assert (keyPtr 2 ≠ NULL) as Hk by discriminate.
  assert (valPtr 2 ≠ NULL) as Hv by discriminate.
  assert (2 * capacity t * sizeof_ElementsArray <= SIZE_MAX) as Hfit
    by (unfold sizeof_ElementsArray, SIZE_MAX; cbn; lia).
  assert (1 < length (entries t))%nat as Hj by (cbn; lia).
  split; [exact reachable_two|]. split; [exact Htest|].
  destruct (insertElement_refused_while_moving t (keyPtr 2) (valPtr 2) 1 []
              reachable_two Hpos Hk Hv Htest Hfit Hj)
    as (t' & Hins & Hcap & Hent & _).
  exists t'. split; [exact Hins|]. split; [exact Hent|]. rewrite Hcap.
  reflexivity.
Defined.

(** Key 7 is not in the table that holds the keys 0 and 1. *)
Lemma hasKey_missing_witness :
  let t := table 4 [[entry 0 0]; [entry 1 1]; []; []] 2 in
  shape t ∧ 0 < capacity t ∧ hasKey t (keyPtr 7) = Ret false.
Proof.
  intros t. assert (0 < capacity t) as Hpos by (cbn; lia).
  split; [exact shape_two|]. split; [exact Hpos|].
  refine (proj1 (hasKey_missing t (keyPtr 7) shape_two Hpos _)).
  intros x Hx. apply elem_of_cons in Hx as [->|Hx]; [discriminate|].
  apply list_elem_of_singleton in Hx. subst x. discriminate.
Defined.

End Examples.
